(** * hallucino: log retrieval, storage, classification and report

    A shallow embedding of the Go packages [k8s], [storage], [analysis]
    (the classification and the request for insights) and [cmd] (the
    command of [root.go] with [retrieveLogs]), followed by the properties
    proved about them.

    Go strings are byte sequences: they are modelled by [string] (one
    [ascii] per byte).  Go's [int] is taken to be the 64-bit one and its
    wrap-around is written out.  The cluster behind the Kubernetes client
    and the clock are parameters.  The goroutines of [retrieveLogs], its
    two buffered channels, its two wait groups and the [select] of its
    consumer are modelled by a transition function over an explicit
    state: each step is one goroutine advancing to its next program
    point, chosen by the scheduler, and a run is a list of such choices.
    The properties of [retrieveLogs] hold for every such list. *)

From Stdlib Require Import ZArith Lia Ascii String.
From stdpp Require Import list strings pretty.

Local Open Scope Z_scope.

(* ===================================================================== *)
(** ** Go basics *)

Module Go.

(** A Go [error] value is represented by its message, which is all the
    program ever does with it (it is formatted with [%v]). *)
Definition error := string.

(** [(T, error)] results: exactly one of the two is meaningful. *)
Inductive result (T : Type) : Type :=
| Ok (v : T)
| Err (e : error).
Arguments Ok {T} v.
Arguments Err {T} e.

(** [int] on a 64-bit platform, two's complement. *)
Definition int_min : Z := - 2 ^ 63.
Definition int_max : Z := 2 ^ 63 - 1.
Definition wrap_int (z : Z) : Z := (z + 2 ^ 63) mod 2 ^ 64 - 2 ^ 63.

(** [x++] on an [int]. *)
Definition incr (x : Z) : Z := wrap_int (x + 1).

(** [len(s)] of a slice, as an [int]. *)
Definition len {A} (l : list A) : Z := Z.of_nat (length l).

(** [fmt.Sprintf("%d", n)]. *)
Definition fmt_d (n : Z) : string := pretty n.

(** [strings.Split(s, "\n")]: the pieces between the separators, so one
    more piece than there are separators; [Split("", "\n")] is [[""]]. *)
Fixpoint Split_nl (s : string) : list string :=
  match s with
  | EmptyString => [EmptyString]
  | String c s' =>
      if Ascii.eqb c "010"%char then EmptyString :: Split_nl s'
      else match Split_nl s' with
           | piece :: rest => String c piece :: rest
           | [] => [String c EmptyString]
           end
  end.

(** [strings.Join(elems, sep)]. *)
Definition Join (elems : list string) (sep : string) : string :=
  String.concat sep elems.

(** [len(s)] of a string: its number of bytes. *)
Definition len_string (s : string) : Z := Z.of_nat (String.length s).

(** [s[:n]], the first [n] bytes of [s]; the program evaluates it only
    where [n <= len(s)]. *)
Fixpoint slice_to (s : string) (n : nat) : string :=
  match n, s with
  | S n', String b s' => String b (slice_to s' n')
  | _, _ => EmptyString
  end.

(** The conversion [int32(i)] of an [int]: the low 32 bits, signed. *)
Definition int32_min : Z := - 2 ^ 31.
Definition int32_max : Z := 2 ^ 31 - 1.
Definition int32 (i : Z) : Z := (i + 2 ^ 31) mod 2 ^ 32 - 2 ^ 31.

End Go.

(* ===================================================================== *)
(** ** The fragment of Go's [regexp] the analyser uses *)

Module Regexp.

(** The four patterns are alternations of literals, plus one [.*], all
    under the flag [(?i)]. *)
Inductive regex : Type :=
| Lit (w : string)          (* a literal, matched with case folding *)
| DotStar                   (* [.*]; without flag [s], [.] excludes newline *)
| Cat (r1 r2 : regex)
| Alt (r1 r2 : regex).

(** ASCII lower-casing of one byte. *)
Definition to_lower (b : ascii) : ascii :=
  let n := nat_of_ascii b in
  if ((65 <=? n) && (n <=? 90))%nat then ascii_of_nat (n + 32) else b.

(** One pattern character against the front of the input, under [(?i)].
    Go folds case with [unicode.SimpleFold]; among the letters of the four
    patterns only [s] has a non-ASCII member in its orbit, U+017F (long s),
    which is the two bytes C5 BF in UTF-8.  The result is the rest of the
    input after the matched rune. *)
Definition fold_rune (c : ascii) (s : string) : option string :=
  match s with
  | EmptyString => None
  | String b s' =>
      if Ascii.eqb (to_lower b) (to_lower c) then Some s'
      else if Ascii.eqb (to_lower c) "s"%char then
        match s with
        | String "197"%char (String "191"%char s'') => Some s''
        | _ => None
        end
      else None
  end.

(** A literal against the front of the input. *)
Fixpoint lit_prefix (w : string) (s : string) : option string :=
  match w with
  | EmptyString => Some s
  | String c w' =>
      match fold_rune c s with
      | Some s' => lit_prefix w' s'
      | None => None
      end
  end.

(** Every rest of the input that [.*] can leave: it stops at a newline.
    Positions are byte positions; the literals that follow [.*] in the
    patterns start with an ASCII letter, which is always the first byte of
    a rune, so byte positions and rune positions give the same matches. *)
Fixpoint dot_star (s : string) : list string :=
  s :: match s with
       | EmptyString => []
       | String b s' => if Ascii.eqb b "010"%char then [] else dot_star s'
       end.

(** All the ways [r] matches a prefix of [s], each given by the rest of
    the input. *)
Fixpoint matchAt (r : regex) (s : string) : list string :=
  match r with
  | Lit w => match lit_prefix w s with Some s' => [s'] | None => [] end
  | DotStar => dot_star s
  | Cat r1 r2 => s' ← matchAt r1 s; matchAt r2 s'
  | Alt r1 r2 => matchAt r1 s ++ matchAt r2 s
  end.

Fixpoint suffixes (s : string) : list string :=
  s :: match s with
       | EmptyString => []
       | String _ s' => suffixes s'
       end.

(** [re.MatchString(s)]: the pattern is not anchored, it matches when it
    matches at some position of the input. *)
Definition MatchString (r : regex) (s : string) : bool :=
  existsb (fun t => match matchAt r t with [] => false | _ => true end)
          (suffixes s).

End Regexp.

(* ===================================================================== *)
(** ** Package k8s *)

Module K8s.
Import Go.

Record LogEntry : Type := mkLogEntry {
  Namespace : string;
  PodName : string;
  Container : string;
  LogContent : string;
  Timestamp : string
}.

(** What [req.Stream] followed by [io.ReadAll] gives for one container. *)
Inductive stream : Type :=
| StreamOpenError (e : error)     (* [req.Stream] fails *)
| StreamReadError (e : error)     (* [io.ReadAll] fails *)
| StreamBytes (b : string).       (* the whole log *)

(** The cluster behind [*kubernetes.Clientset], as the program sees it,
    and the wall clock read by [time.Now().Format(time.RFC3339)]. *)
Record Clientset : Type := mkClientset {
  (* names of [Pods(ns).List(...).Items] *)
  pods_List : string -> result (list string);
  (* names of [Pods(ns).Get(pod).Spec.Containers] *)
  pods_Get : string -> string -> result (list string);
  (* [Pods(ns).GetLogs(pod, {Container: c}).Stream] and [io.ReadAll] *)
  pods_GetLogs : string -> string -> string -> stream;
  (* the formatted time read for the [i]-th entry of a container *)
  time_Now : string -> string -> nat -> string
}.

Definition ListPods (client : Clientset) (namespace : string)
  : result (list string) :=
  match pods_List client namespace with
  | Err e => Err e
  | Ok items => Ok items
  end.

Definition ListContainers (client : Clientset) (namespace podName : string)
  : result (list string) :=
  match pods_Get client namespace podName with
  | Err e => Err e
  | Ok containers => Ok containers
  end.

(** The non-empty lines of a log. *)
Definition logLines (logBytes : string) : list string :=
  filter (fun line => line <> EmptyString) (Split_nl logBytes).

Definition RetrievePodLogs (client : Clientset)
    (namespace podName containerName : string) : result (list LogEntry) :=
  match pods_GetLogs client namespace podName containerName with
  | StreamOpenError e => Err ("error opening log stream: " +:+ e)
  | StreamReadError e => Err ("error reading logs: " +:+ e)
  | StreamBytes logBytes =>
      Ok (imap (fun i line =>
                  {| Namespace := namespace;
                     PodName := podName;
                     Container := containerName;
                     LogContent := line;
                     Timestamp := time_Now client podName containerName i |})
               (logLines logBytes))
  end.

End K8s.

(* ===================================================================== *)
(** ** Package storage *)

Module Storage.
Import K8s.

(** [LogStorage]: the slice; the mutex makes each method atomic, which is
    how the methods are modelled. *)
Record LogStorage : Type := mkLogStorage { logs : list LogEntry }.

Definition NewLogStorage : LogStorage := {| logs := [] |}.

Definition AddLog (ls : LogStorage) (log : LogEntry) : LogStorage :=
  {| logs := logs ls ++ [log] |}.

Definition GetLogs (ls : LogStorage) : list LogEntry := logs ls.

Definition Clear (ls : LogStorage) : LogStorage := {| logs := [] |}.

(** The three [color.New(...).SprintFunc()] of [PrettyPrintLogs]: what
    each makes of a string depends on the terminal. *)
Record Palette : Type := mkPalette {
  podColor : string -> string;
  containerColor : string -> string;
  timestampColor : string -> string
}.

(** What [fmt.Printf("%s | %s | %s | %s\n", ...)] writes for one entry. *)
Definition prettyLine (palette : Palette) (log : LogEntry) : string :=
  timestampColor palette (Timestamp log) +:+ " | "
    +:+ podColor palette (PodName log) +:+ " | "
    +:+ containerColor palette (Container log) +:+ " | "
    +:+ LogContent log +:+ "
".

(** [PrettyPrintLogs], from the newer [storage.go]: one write to the
    standard output per entry; [stdout] is what was written before. *)
Definition PrettyPrintLogs (palette : Palette) (ls : LogStorage)
    (stdout : list string) : list string :=
  fold_left (fun stdout log => stdout ++ [prettyLine palette log])
            (logs ls) stdout.

End Storage.

(* ===================================================================== *)
(** ** Package analysis *)

Module Analysis.
Import Go K8s Regexp.

Record LogAnalyzer : Type := mkLogAnalyzer {
  logs : list LogEntry;
  criticalEvents : list LogEntry;
  performanceIssues : list LogEntry;
  errorCount : Z;
  warningCount : Z
}.

(** [(?i)error|critical|fatal|panic] *)
Definition errorRegex : regex :=
  Alt (Lit "error") (Alt (Lit "critical") (Alt (Lit "fatal") (Lit "panic"))).

(** [(?i)warning|warn] *)
Definition warningRegex : regex :=
  Alt (Lit "warning") (Lit "warn").

(** [(?i)timeout|latency|slow|high load] *)
Definition performanceRegex : regex :=
  Alt (Lit "timeout") (Alt (Lit "latency") (Alt (Lit "slow") (Lit "high load"))).

(** [(?i)pod|container.*restart]: alternation binds weakest, so this is
    [pod] or [container.*restart]. *)
Definition restartRegex : regex :=
  Alt (Lit "pod") (Cat (Lit "container") (Cat DotStar (Lit "restart"))).

(** The entry is received by value: the assignment to [log.LogContent] in
    the last case changes the callee's copy only. *)
Definition analyzeLine (la : LogAnalyzer) (log : LogEntry) : LogAnalyzer :=
  if MatchString errorRegex (LogContent log) then
    {| logs := logs la;
       criticalEvents := criticalEvents la ++ [log];
       performanceIssues := performanceIssues la;
       errorCount := incr (errorCount la);
       warningCount := warningCount la |}
  else if MatchString warningRegex (LogContent log) then
    {| logs := logs la;
       criticalEvents := criticalEvents la;
       performanceIssues := performanceIssues la;
       errorCount := errorCount la;
       warningCount := incr (warningCount la) |}
  else if MatchString performanceRegex (LogContent log) then
    {| logs := logs la;
       criticalEvents := criticalEvents la;
       performanceIssues := performanceIssues la ++ [log];
       errorCount := errorCount la;
       warningCount := warningCount la |}
  else if MatchString restartRegex (LogContent log) then
    let log' :=
      {| Namespace := Namespace log;
         PodName := PodName log;
         Container := Container log;
         LogContent := "Restart Event: " +:+ LogContent log;
         Timestamp := Timestamp log |} in
    {| logs := logs la;
       criticalEvents := criticalEvents la ++ [log'];
       performanceIssues := performanceIssues la;
       errorCount := errorCount la;
       warningCount := warningCount la |}
  else la.

(** [for _, log := range la.logs { la.analyzeLine(log) }] *)
Definition processLogs (la : LogAnalyzer) : LogAnalyzer :=
  fold_left analyzeLine (logs la) la.

Definition NewLogAnalyzer (logs : list LogEntry) : LogAnalyzer :=
  processLogs {| logs := logs;
                 criticalEvents := [];
                 performanceIssues := [];
                 errorCount := 0;
                 warningCount := 0 |}.

(** [fmt.Sprintf("- `%s | %s | %s`: %s\n", ...)] for one entry. *)
Definition eventLine (event : LogEntry) : string :=
  "- `" +:+ Timestamp event +:+ " | " +:+ PodName event +:+ " | "
    +:+ Container event +:+ "`: " +:+ LogContent event +:+ "
".

(** [for _, event := range events { report += ... }] *)
Definition appendEvents (report : string) (events : list LogEntry) : string :=
  fold_left (fun report event => report +:+ eventLine event) events report.

Definition generateDetailedReport (la : LogAnalyzer) : string :=
  let report := "### Kubernetes Log Analysis Report

" in
  let report := report +:+ ("- **Total Log Entries:** " +:+ fmt_d (len (logs la)) +:+ "
") in
  let report := report +:+ ("- **Error Count:** " +:+ fmt_d (errorCount la) +:+ "
") in
  let report := report +:+ ("- **Warning Count:** " +:+ fmt_d (warningCount la) +:+ "

") in
  let report := report +:+ "#### Critical Events
" in
  let report :=
    if 0 <? len (criticalEvents la)
    then appendEvents report (criticalEvents la)
    else report +:+ "- No critical events detected.
" in
  let report := report +:+ "
#### Performance Issues
" in
  let report :=
    if 0 <? len (performanceIssues la)
    then appendEvents report (performanceIssues la)
    else report +:+ "- No significant performance issues detected.
" in
  report.

End Analysis.

(* ===================================================================== *)
(** ** Package analysis: the insights of [openai.go] *)

Module OpenAI.
Import Go K8s Analysis.

Definition AnalysisPrompt : string := "**Instructions:**
You are an expert in analyzing Kubernetes logs. Your goal is to analyze the given log data, identify patterns, detect anomalies, and summarize insights clearly. Pay attention to the context provided in the logs, and focus on:
1. **Errors and Warnings:** Highlight any critical issues, error messages, or warnings that may indicate failures or potential problems in the Kubernetes system or its components.
2. **Patterns and Trends:** Look for repetitive log entries, trends, or sequences that might indicate systemic issues or misconfigurations.
3. **System Events:** Summarize key system events such as service startups, shutdowns, or resource state changes.
4. **Performance Issues:** Identify potential bottlenecks, timeouts, or latency-related concerns.
5. **Suggestions:** Provide actionable recommendations for resolving any detected issues or improving the system's stability and performance.

**Example Format of Response:**
* **Summary of Key Events:** (List of major activities or noteworthy occurrences.)
* **Detected Issues and Errors:** (Detailed analysis of errors, anomalies, or potential issues.)
* **Pattern Observations:** (Summary of any recurring patterns or trends in the logs.)
* **Actionable Recommendations:** (Specific steps or insights to address the issues identified.)".

Record Config : Type := mkConfig {
  APIKey : string;
  Endpoint : string;
  DeploymentName : string
}.

(** *** What the program uses of the [azopenai] SDK *)

Inductive ChatRequestMessage : Type :=
| ChatRequestSystemMessage (content : string)
| ChatRequestUserMessage (content : string).

Record ChatCompletionsOptions : Type := mkChatCompletionsOptions {
  Messages : list ChatRequestMessage;
  Deployment : string;            (* [*DeploymentName] *)
  MaxTokens : Z                   (* [*MaxTokens], an [int32] *)
}.

(** [Content] is a [*string] and [Message] a [*ChatResponseMessage]:
    either can be [nil]. *)
Record ChatResponseMessage : Type := mkChatResponseMessage {
  Content : option string
}.

Record ChatChoice : Type := mkChatChoice {
  Message : option ChatResponseMessage
}.

(** [client.GetChatCompletions(ctx, req, nil)] of one client, under the
    30 seconds of the context: the choices of the response, or the error
    (the expiry of the context is one). *)
Definition Client : Type := ChatCompletionsOptions -> result (list ChatChoice).

Record OpenAIAnalyzer : Type := mkOpenAIAnalyzer {
  client : Client;
  config : Config
}.

(** [azopenai.NewClientWithKeyCredential(endpoint, key, nil)] is a
    parameter. *)
Definition NewOpenAIAnalyzer
    (NewClientWithKeyCredential : string -> string -> result Client)
    (config : Config) : result OpenAIAnalyzer :=
  if decide (APIKey config = EmptyString \/ DeploymentName config = EmptyString
             \/ Endpoint config = EmptyString)
  then Err "missing required OpenAI configuration"
  else match NewClientWithKeyCredential (Endpoint config) (APIKey config) with
       | Err e => Err ("failed to create OpenAI client: " +:+ e)
       | Ok client => Ok {| client := client; config := config |}
       end.

(** [fmt.Sprintf("%s | %s | %s | %s", ...)] for one entry: the namespace
    takes the place the container has in the report. *)
Definition logText (log : LogEntry) : string :=
  Timestamp log +:+ " | " +:+ Namespace log +:+ " | " +:+ PodName log
    +:+ " | " +:+ LogContent log.

Definition maxInputSize : Z := 10000.

(** [focusedLogs] as [fmt.Sprintf] builds it. *)
Definition combinedLogs (la : LogAnalyzer) : string :=
  "Detailed Report:
" +:+ generateDetailedReport la +:+ "

Critical Events:
" +:+ Join (logText <$> criticalEvents la) "
" +:+ "

Performance Issues:
" +:+ Join (logText <$> performanceIssues la) "
".

(** [focusedLogs] after the size check. *)
Definition focusedLogs (la : LogAnalyzer) : string :=
  let focusedLogs := combinedLogs la in
  if maxInputSize <? len_string focusedLogs
  then slice_to focusedLogs (Z.to_nat maxInputSize)
  else focusedLogs.

(** [toInt32Ptr]: the pointer is to a fresh variable, its value is all
    that is used. *)
Definition toInt32Ptr (i : Z) : Z := int32 i.

Definition userContent (la : LogAnalyzer) : string :=
  "Analyze the following Kubernetes log analysis and provide strategic insights and recommendations:

" +:+ focusedLogs la.

(** The request [req]. *)
Definition request (oa : OpenAIAnalyzer) (la : LogAnalyzer)
  : ChatCompletionsOptions :=
  {| Messages := [ChatRequestSystemMessage AnalysisPrompt;
                  ChatRequestUserMessage (userContent la)];
     Deployment := DeploymentName (config oa);
     MaxTokens := toInt32Ptr 750 |}.

(** How a call ends: it returns, or it panics on a [nil] pointer. *)
Inductive outcome (T : Type) : Type :=
| Returns (v : T)
| NilDereference.
Arguments Returns {T} v.
Arguments NilDereference {T}.

Definition GenerateInsights (oa : OpenAIAnalyzer) (la : LogAnalyzer)
  : outcome (result string) :=
  match client oa (request oa la) with
  | Err e => Returns (Err ("failed to get chat completions: " +:+ e))
  | Ok choices =>
      match choices with
      | {| Message := Some message |} :: _ =>
          (* [*resp.Choices[0].Message.Content] *)
          match Content message with
          | Some content => Returns (Ok content)
          | None => NilDereference
          end
      | _ => Returns (Err "no insights generated")
      end
  end.

End OpenAI.


(* ===================================================================== *)
(** ** Package cmd: [retrieveLogs] *)

Module Cmd.
Import Go K8s Storage.

(** The package-level flag variables read by [retrieveLogs]. *)
Record Flags : Type := mkFlags {
  namespace : string;
  pod : string;
  container : string
}.

(** *** Buffered channels *)

Record chan (T : Type) : Type := mkChan {
  cap : nat;            (* the capacity given to [make] *)
  buf : list T;         (* values sent and not yet received, oldest first *)
  closed : bool
}.
Arguments mkChan {T} cap buf closed.
Arguments cap {T} c.
Arguments buf {T} c.
Arguments closed {T} c.

Definition make_chan (T : Type) (n : nat) : chan T :=
  {| cap := n; buf := []; closed := false |}.

Inductive send_result (T : Type) : Type :=
| Sent (c : chan T)
| SendBlocks                 (* the buffer is full *)
| SendPanics.                (* send on a closed channel *)
Arguments Sent {T} c.
Arguments SendBlocks {T}.
Arguments SendPanics {T}.

(** [c <- v] *)
Definition send {T} (c : chan T) (v : T) : send_result T :=
  if closed c then SendPanics
  else if (length (buf c) <? cap c)%nat
       then Sent {| cap := cap c; buf := buf c ++ [v]; closed := false |}
       else SendBlocks.

Inductive recv_result (T : Type) : Type :=
| Received (v : T) (c : chan T)     (* [v, true] *)
| RecvClosed                        (* [zero, false]: closed and drained *)
| RecvBlocks.
Arguments Received {T} v c.
Arguments RecvClosed {T}.
Arguments RecvBlocks {T}.

(** [v, ok := <-c]: a closed channel still delivers what is buffered. *)
Definition recv {T} (c : chan T) : recv_result T :=
  match buf c with
  | v :: rest => Received v {| cap := cap c; buf := rest; closed := closed c |}
  | [] => if closed c then RecvClosed else RecvBlocks
  end.

(** [close(c)]; closing a closed channel panics. *)
Definition close {T} (c : chan T) : option (chan T) :=
  if closed c then None
  else Some {| cap := cap c; buf := buf c; closed := true |}.

(** *** Goroutines and the state they share *)

(** The goroutines started by [go func(podName string)] and by
    [go func(podName, containerName string)], each at one of its program
    points, with its parameters and the local variables that are live. *)
Inductive goroutine : Type :=
| PodStart (podName : string)
    (* entry: [containers] is about to be determined *)
| PodSendErr (podName : string) (err : error)
    (* at [errorChan <- fmt.Errorf("failed to list containers ...")] *)
| PodRange (podName : string) (containers : list string)
    (* in [for _, containerName := range containers]: what is left *)
| PodDeferred (podName : string)
    (* returning: the deferred [wg.Done()] is about to run *)
| PodFinished (podName : string)
| CtrStart (podName containerName : string)
    (* entry: [k8s.RetrievePodLogs] is about to be called *)
| CtrSendErr (podName containerName : string) (err : error)
    (* at [errorChan <- fmt.Errorf("failed to retrieve logs ...")] *)
| CtrRange (podName containerName : string) (logs : list LogEntry)
    (* in [for _, log := range logs { logChan <- log }]: what is left *)
| CtrDeferred (podName containerName : string)
| CtrFinished (podName containerName : string).

(** What the pod and container goroutines touch. *)
Record shared : Type := mkShared {
  wg : Z;                          (* the counter of [wg] *)
  logChan : chan LogEntry;
  errorChan : chan error;
  panicked : bool                  (* a goroutine has panicked *)
}.

Definition panic (sh : shared) : shared :=
  {| wg := wg sh; logChan := logChan sh; errorChan := errorChan sh;
     panicked := true |}.

Definition set_wg (n : Z) (sh : shared) : shared :=
  {| wg := n; logChan := logChan sh; errorChan := errorChan sh;
     panicked := panicked sh |}.

Definition set_logChan (c : chan LogEntry) (sh : shared) : shared :=
  {| wg := wg sh; logChan := c; errorChan := errorChan sh;
     panicked := panicked sh |}.

Definition set_errorChan (c : chan error) (sh : shared) : shared :=
  {| wg := wg sh; logChan := logChan sh; errorChan := c;
     panicked := panicked sh |}.

(** [wg.Done()]: a negative counter panics. *)
Definition wg_Done (sh : shared) : shared :=
  if wg sh <=? 0 then panic sh else set_wg (wg sh - 1) sh.

Section Program.
Variable client : Clientset.
Variable flags : Flags.

(** The containers a pod goroutine works on: the [container] flag when
    it is set, else all the containers of the pod. *)
Definition containersOf (podName : string) : result (list string) :=
  if decide (container flags <> EmptyString) then Ok [container flags]
  else match ListContainers client (namespace flags) podName with
       | Err e =>
           Err ("failed to list containers for pod " +:+ podName
                  +:+ ": " +:+ e)
       | Ok podContainers => Ok podContainers
       end.

(** The call of [k8s.RetrievePodLogs] in a container goroutine and the
    error built from its failure. *)
Definition logsOf (podName containerName : string)
  : result (list LogEntry) :=
  match RetrievePodLogs client (namespace flags) podName containerName with
  | Err e =>
      Err ("failed to retrieve logs for pod " +:+ podName
             +:+ ", container " +:+ containerName +:+ ": " +:+ e)
  | Ok logs => Ok logs
  end.

(** One step of a pod or container goroutine: its next program point,
    the goroutines it starts, and the shared state afterwards; [None]
    when it is blocked or finished.  [wg.Add(1)] and the [go] statement
    that follows it are one step. *)
Definition exec_goroutine (g : goroutine) (sh : shared)
  : option (goroutine * list goroutine * shared) :=
  match g with
  | PodStart p =>
      match containersOf p with
      | Err e => Some (PodSendErr p e, [], sh)
      | Ok containers => Some (PodRange p containers, [], sh)
      end
  | PodSendErr p e =>
      match send (errorChan sh) e with
      | Sent c => Some (PodDeferred p, [], set_errorChan c sh)
      | SendBlocks => None
      | SendPanics => Some (PodSendErr p e, [], panic sh)
      end
  | PodRange p (c :: containers) =>
      Some (PodRange p containers, [CtrStart p c], set_wg (wg sh + 1) sh)
  | PodRange p [] => Some (PodDeferred p, [], sh)
  | PodDeferred p => Some (PodFinished p, [], wg_Done sh)
  | PodFinished _ => None
  | CtrStart p c =>
      match logsOf p c with
      | Err e => Some (CtrSendErr p c e, [], sh)
      | Ok logs => Some (CtrRange p c logs, [], sh)
      end
  | CtrSendErr p c e =>
      match send (errorChan sh) e with
      | Sent ch => Some (CtrDeferred p c, [], set_errorChan ch sh)
      | SendBlocks => None
      | SendPanics => Some (CtrSendErr p c e, [], panic sh)
      end
  | CtrRange p c (log :: logs) =>
      match send (logChan sh) log with
      | Sent ch => Some (CtrRange p c logs, [], set_logChan ch sh)
      | SendBlocks => None
      | SendPanics => Some (CtrRange p c (log :: logs), [], panic sh)
      end
  | CtrRange p c [] => Some (CtrDeferred p c, [], sh)
  | CtrDeferred p c => Some (CtrFinished p c, [], wg_Done sh)
  | CtrFinished _ _ => None
  end.

(** *** The whole of [retrieveLogs] *)

(** The calling goroutine. *)
Inductive main_pc : Type :=
| MainEntry                          (* the pods are about to be determined *)
| MainRange (pods : list string)     (* in [for _, podName := range pods] *)
| MainGoConsumer                     (* the closer is started, the consumer not yet *)
| MainWait                           (* at [logsProcessed.Wait()] *)
| MainReturned (err : option error). (* [return err] *)

(** The goroutine that closes the channels. *)
Inductive closer_pc : Type :=
| CloserWait                         (* at [wg.Wait()] *)
| CloserCloseLog                     (* at [close(logChan)] *)
| CloserCloseErr                     (* at [close(errorChan)] *)
| CloserFinished.

(** The goroutine that receives from both channels. *)
Inductive consumer_pc : Type :=
| ConsumerSelect                     (* at the [select] of the loop *)
| ConsumerFinished.                  (* returned; [logsProcessed.Done()] has run *)

Record state : Type := mkState {
  main : main_pc;
  goroutines : list goroutine;       (* pod and container goroutines, in start order *)
  closer : option closer_pc;         (* [None]: not started *)
  consumer : option consumer_pc;     (* [None]: not started *)
  sh : shared;
  logsProcessed : Z;                 (* the counter of [logsProcessed] *)
  logStore : LogStorage;
  totalLogs : Z;
  printed : list error               (* the errors given to [color.Red] *)
}.

Definition set_main (m : main_pc) (s : state) : state :=
  {| main := m; goroutines := goroutines s; closer := closer s;
     consumer := consumer s; sh := sh s; logsProcessed := logsProcessed s;
     logStore := logStore s; totalLogs := totalLogs s;
     printed := printed s |}.

Definition set_goroutines (gs : list goroutine) (s : state) : state :=
  {| main := main s; goroutines := gs; closer := closer s;
     consumer := consumer s; sh := sh s; logsProcessed := logsProcessed s;
     logStore := logStore s; totalLogs := totalLogs s;
     printed := printed s |}.

Definition set_closer (c : closer_pc) (s : state) : state :=
  {| main := main s; goroutines := goroutines s; closer := Some c;
     consumer := consumer s; sh := sh s; logsProcessed := logsProcessed s;
     logStore := logStore s; totalLogs := totalLogs s;
     printed := printed s |}.

Definition set_consumer (c : consumer_pc) (s : state) : state :=
  {| main := main s; goroutines := goroutines s; closer := closer s;
     consumer := Some c; sh := sh s; logsProcessed := logsProcessed s;
     logStore := logStore s; totalLogs := totalLogs s;
     printed := printed s |}.

Definition set_sh (x : shared) (s : state) : state :=
  {| main := main s; goroutines := goroutines s; closer := closer s;
     consumer := consumer s; sh := x; logsProcessed := logsProcessed s;
     logStore := logStore s; totalLogs := totalLogs s;
     printed := printed s |}.

Definition set_logsProcessed (n : Z) (s : state) : state :=
  {| main := main s; goroutines := goroutines s; closer := closer s;
     consumer := consumer s; sh := sh s; logsProcessed := n;
     logStore := logStore s; totalLogs := totalLogs s;
     printed := printed s |}.

(** The consumer's [logStore.AddLog(log); totalLogs++]. *)
Definition store_log (log : LogEntry) (s : state) : state :=
  {| main := main s; goroutines := goroutines s; closer := closer s;
     consumer := consumer s; sh := sh s; logsProcessed := logsProcessed s;
     logStore := AddLog (logStore s) log; totalLogs := incr (totalLogs s);
     printed := printed s |}.

(** The consumer's [color.Red("Error: %v", err)]. *)
Definition print_error (err : error) (s : state) : state :=
  {| main := main s; goroutines := goroutines s; closer := closer s;
     consumer := consumer s; sh := sh s; logsProcessed := logsProcessed s;
     logStore := logStore s; totalLogs := totalLogs s;
     printed := printed s ++ [err] |}.

(** The state in which [retrieveLogs] is entered: the channels are made,
    nothing is started; [store] is the package-level [logStore]. *)
Definition enter (store : LogStorage) : state :=
  {| main := MainEntry; goroutines := []; closer := None; consumer := None;
     sh := {| wg := 0; logChan := make_chan LogEntry 100;
              errorChan := make_chan error 10; panicked := false |};
     logsProcessed := 0; logStore := store; totalLogs := 0;
     printed := [] |}.

(** One step of the calling goroutine. *)
Definition exec_main (s : state) : option state :=
  match main s with
  | MainEntry =>
      if decide (pod flags = EmptyString) then
        match ListPods client (namespace flags) with
        | Err e =>
            Some (set_main (MainReturned (Some ("failed to list pods: " +:+ e))) s)
        | Ok podList => Some (set_main (MainRange podList) s)
        end
      else Some (set_main (MainRange [pod flags]) s)
  | MainRange (podName :: pods) =>
      (* [wg.Add(1); go func(podName string) {...}(podName)] *)
      Some (set_main (MainRange pods)
              (set_goroutines (goroutines s ++ [PodStart podName])
                 (set_sh (set_wg (wg (sh s) + 1) (sh s)) s)))
  | MainRange [] =>
      (* [go func() { wg.Wait(); close(logChan); close(errorChan) }()] *)
      Some (set_main MainGoConsumer (set_closer CloserWait s))
  | MainGoConsumer =>
      (* [logsProcessed.Add(1); go func() {...}()] *)
      Some (set_main MainWait
              (set_consumer ConsumerSelect
                 (set_logsProcessed (logsProcessed s + 1) s)))
  | MainWait =>
      if logsProcessed s =? 0 then Some (set_main (MainReturned None) s)
      else None
  | MainReturned _ => None
  end.

(** One step of the closer. *)
Definition exec_closer (s : state) : option state :=
  match closer s with
  | None => None
  | Some CloserWait =>
      if wg (sh s) =? 0 then Some (set_closer CloserCloseLog s) else None
  | Some CloserCloseLog =>
      match close (logChan (sh s)) with
      | Some c => Some (set_closer CloserCloseErr (set_sh (set_logChan c (sh s)) s))
      | None => Some (set_sh (panic (sh s)) s)
      end
  | Some CloserCloseErr =>
      match close (errorChan (sh s)) with
      | Some c => Some (set_closer CloserFinished (set_sh (set_errorChan c (sh s)) s))
      | None => Some (set_sh (panic (sh s)) s)
      end
  | Some CloserFinished => None
  end.

(** The two cases of the consumer's [select]. *)
Inductive select_case : Type :=
| CaseLog          (* [case log, ok := <-logChan] *)
| CaseErr.         (* [case err, ok := <-errorChan] *)

(** One turn of the consumer's loop, through the case of the [select]
    that the runtime picked; the case must be ready.  In the error case
    [break] leaves the [select], not the [for]: the loop goes on. *)
Definition exec_consumer (k : select_case) (s : state) : option state :=
  match consumer s with
  | Some ConsumerSelect =>
      match k with
      | CaseLog =>
          match recv (logChan (sh s)) with
          | Received log c =>
              Some (store_log log (set_sh (set_logChan c (sh s)) s))
          | RecvClosed =>
              (* [return], then the deferred [logsProcessed.Done()] *)
              Some (set_consumer ConsumerFinished
                      (set_logsProcessed (logsProcessed s - 1) s))
          | RecvBlocks => None
          end
      | CaseErr =>
          match recv (errorChan (sh s)) with
          | Received err c =>
              Some (print_error err (set_sh (set_errorChan c (sh s)) s))
          | RecvClosed => Some s
          | RecvBlocks => None
          end
      end
  | _ => None
  end.

(** What the scheduler (and, for the consumer, the [select]) picks. *)
Inductive choice : Type :=
| RunMain
| RunGoroutine (i : nat)       (* the [i]-th pod or container goroutine *)
| RunCloser
| RunConsumer (k : select_case).

(** One step of the program; a panic stops it. *)
Definition step (c : choice) (s : state) : option state :=
  if panicked (sh s) then None
  else match c with
       | RunMain => exec_main s
       | RunGoroutine i =>
           match goroutines s !! i with
           | None => None
           | Some g =>
               match exec_goroutine g (sh s) with
               | None => None
               | Some (g', started, sh') =>
                   Some (set_goroutines (<[i := g']> (goroutines s) ++ started)
                           (set_sh sh' s))
               end
           end
       | RunCloser => exec_closer s
       | RunConsumer k => exec_consumer k s
       end.

(** A run under a schedule. *)
Fixpoint run (schedule : list choice) (s : state) : option state :=
  match schedule with
  | [] => Some s
  | c :: schedule' =>
      match step c s with
      | Some s' => run schedule' s'
      | None => None
      end
  end.

(** [retrieveLogs] under a schedule, from the store it finds: the error
    it returns and the state it leaves, when the schedule makes it
    return. *)
Definition retrieveLogs (store : LogStorage) (schedule : list choice)
  : option (option error * state) :=
  match run schedule (enter store) with
  | Some s =>
      match main s with
      | MainReturned err => Some (err, s)
      | _ => None
      end
  | None => None
  end.

End Program.

End Cmd.

(* ===================================================================== *)
(** ** Package cmd: the command of [root.go] *)

Module Root.
Import Go K8s Storage Cmd.

Definition validateInputCombinations (namespace pod container : string)
  : option error :=
  if decide (namespace = EmptyString /\ pod = EmptyString
             /\ container = EmptyString)
  then Some "no parameters specified. Please provide at least a namespace.

Usage examples:
  hallucino --kubeconfig=/path/to/config --namespace my-namespace
  hallucino --kubeconfig=/path/to/config --namespace my-namespace --pod my-pod
  hallucino --kubeconfig=/path/to/config --namespace my-namespace --pod my-pod --container my-container"
  else if decide (container <> EmptyString
                  /\ (pod = EmptyString \/ namespace = EmptyString))
  then Some ("container must be specified with both a pod and a namespace. For example:
" +:+ "  --namespace my-namespace --pod my-pod --container my-container")
  else if decide (pod <> EmptyString /\ namespace = EmptyString)
  then Some ("pod must be specified with a namespace. For example:
" +:+ "  --namespace my-namespace --pod my-pod")
  else None.

(** What [createK8sClient] uses of [clientcmd] and [kubernetes]. *)
Record Kube : Type := mkKube {
  RestConfig : Type;
  RecommendedHomeFile : string;
  (* [clientcmd.BuildConfigFromFlags("", kubeconfig)] *)
  BuildConfigFromFlags : string -> result RestConfig;
  NewForConfig : RestConfig -> result Clientset
}.

(** [createK8sClient]: the package-level [kubeconfig] is read and may be
    assigned; its new value is the first component. *)
Definition createK8sClient (kube : Kube) (kubeconfig : string)
  : string * result Clientset :=
  let kubeconfig :=
    if decide (kubeconfig = EmptyString) then RecommendedHomeFile kube
    else kubeconfig in
  (kubeconfig,
   match BuildConfigFromFlags kube kubeconfig with
   | Err e => Err ("error building kubernetes config: " +:+ e)
   | Ok config =>
       match NewForConfig kube config with
       | Err e => Err ("error creating kubernetes client: " +:+ e)
       | Ok client => Ok client
       end
   end).

(** What [analyzeKubernetsLogs] uses of the environment, of [azopenai]
    and of [glamour]. *)
Record Services : Type := mkServices {
  Getenv : string -> string;
  NewClientWithKeyCredential : string -> string -> result OpenAI.Client;
  (* [glamour.Render(in, stylePath)] *)
  glamour_Render : string -> string -> result string
}.

(** [analyzeKubernetsLogs]: the error it returns and the standard output
    after it, [stdout] being what was written before. *)
Definition analyzeKubernetsLogs (sv : Services) (logStorage : LogStorage)
    (stdout : list string) : OpenAI.outcome (option error * list string) :=
  let logs := GetLogs logStorage in
  let logAnalyzer := Analysis.NewLogAnalyzer logs in
  let openaiConfig :=
    {| OpenAI.APIKey := Getenv sv "AZURE_API_KEY";
       OpenAI.Endpoint := Getenv sv "AZURE_API_BASE";
       OpenAI.DeploymentName := Getenv sv "AZURE_DEPLOYMENT_NAME" |} in
  match OpenAI.NewOpenAIAnalyzer (NewClientWithKeyCredential sv) openaiConfig with
  | Err e =>
      OpenAI.Returns (Some ("failed to create OpenAI analyzer: " +:+ e), stdout)
  | Ok openaiAnalyzer =>
      match OpenAI.GenerateInsights openaiAnalyzer logAnalyzer with
      | OpenAI.NilDereference => OpenAI.NilDereference
      | OpenAI.Returns (Err e) =>
          OpenAI.Returns (Some ("failed to generate insights: " +:+ e), stdout)
      | OpenAI.Returns (Ok insights) =>
          match glamour_Render sv insights "dark" with
          | Err e =>
              (* [fmt.Println("Error rendering markdown:", err)] *)
              OpenAI.Returns
                (None, stdout ++ ["Error rendering markdown: " +:+ e +:+ "
"])
          | Ok out =>
              (* [fmt.Println(out)] *)
              OpenAI.Returns (None, stdout ++ [out +:+ "
"])
          end
      end
  end.

(** The package-level variables set from the command line. *)
Record Options : Type := mkOptions {
  flags : Flags;
  kubeconfig : string;
  printRaw : bool
}.

(** Everything outside the program.  [color.Red] of [fatih/color] writes
    on the standard output the formatted message and a line feed between
    the escape sequences of the terminal: [color_Red] is what is written
    for the message with its line feed. *)
Record World : Type := mkWorld {
  zap_NewProduction : option error;    (* the error of [zap.NewProduction()] *)
  kube : Kube;
  services : Services;
  palette : Palette;
  color_Red : string -> string
}.

(** What [color.Red("Error: %v", err)] writes on the standard output. *)
Definition redLine (w : World) (err : error) : string :=
  color_Red w ("Error: " +:+ err +:+ "
").

(** How [RunE] ends and what it has written: [stdout] is all that was
    written on the standard output, in the order it was written, the
    lines of [color.Red] as well as the writes of [fmt.Printf] and
    [fmt.Println]; [red] are the errors that were given to [color.Red]. *)
Record Run : Type := mkRun {
  exit : OpenAI.outcome (option error);
  stdout : list string;
  red : list error
}.

(** [RunE] of the root command, [retrieveLogs] running under
    [schedule]; [None] when the schedule does not take [retrieveLogs] to
    its return.  The consumer of [retrieveLogs] has returned before
    [retrieveLogs] does, so the lines of [color.Red] come before what is
    written afterwards.  The logger is not used after its creation: the
    deferred [logger.Sync()] is left out. *)
Definition RunE (w : World) (o : Options) (schedule : list choice)
  : option Run :=
  match zap_NewProduction w with
  | Some e =>
      Some {| exit := OpenAI.Returns (Some ("failed to initialize logger: " +:+ e));
              stdout := []; red := [] |}
  | None =>
      match validateInputCombinations (namespace (flags o)) (pod (flags o))
                                      (container (flags o)) with
      | Some e => Some {| exit := OpenAI.Returns (Some e); stdout := []; red := [] |}
      | None =>
          let logStore := NewLogStorage in
          match (createK8sClient (kube w) (kubeconfig o)).2 with
          | Err e =>
              Some {| exit := OpenAI.Returns
                                (Some ("failed to create Kubernetes client: " +:+ e));
                      stdout := []; red := [] |}
          | Ok client =>
              match retrieveLogs client (flags o) logStore schedule with
              | None => None
              | Some (Some e, s) =>
                  Some {| exit := OpenAI.Returns
                                    (Some ("log retrieval failed: " +:+ e));
                          stdout := redLine w <$> printed s;
                          red := printed s |}
              | Some (None, s) =>
                  let written := redLine w <$> printed s in
                  if printRaw o then
                    Some {| exit := OpenAI.Returns None;
                            stdout := PrettyPrintLogs (palette w) (Cmd.logStore s)
                                                      written;
                            red := printed s |}
                  else
                    match analyzeKubernetsLogs (services w) (Cmd.logStore s)
                                               written with
                    | OpenAI.NilDereference =>
                        Some {| exit := OpenAI.NilDereference; stdout := written;
                                red := printed s |}
                    | OpenAI.Returns (Some e, out) =>
                        Some {| exit := OpenAI.Returns
                                          (Some ("log analysis failed: " +:+ e));
                                stdout := out; red := printed s |}
                    | OpenAI.Returns (None, out) =>
                        Some {| exit := OpenAI.Returns None; stdout := out;
                                red := printed s |}
                    end
              end
          end
      end
  end.

End Root.


(* ===================================================================== *)
(** ** Definitions used to state the properties *)

Module Spec.
Import Go K8s Regexp Analysis.

(** The four pattern categories of the classification, and none. *)
Inductive category : Type :=
| CatError | CatWarning | CatPerformance | CatRestart | CatNone.

Global Instance category_eq_dec : EqDecision category.
Proof. solve_decision. Defined.

(** The single decision per entry: the first category, in the order
    error, warning, performance, restart, whose pattern matches. *)
Definition first_match (content : string) : category :=
  if MatchString errorRegex content then CatError
  else if MatchString warningRegex content then CatWarning
  else if MatchString performanceRegex content then CatPerformance
  else if MatchString restartRegex content then CatRestart
  else CatNone.

(** The copy made of a restart entry. *)
Definition restartCopy (log : LogEntry) : LogEntry :=
  {| Namespace := Namespace log;
     PodName := PodName log;
     Container := Container log;
     LogContent := "Restart Event: " +:+ LogContent log;
     Timestamp := Timestamp log |}.

(** The effect of one category on the classification state. *)
Definition effect (c : category) (la : LogAnalyzer) (log : LogEntry)
  : LogAnalyzer :=
  match c with
  | CatError =>
      {| logs := logs la;
         criticalEvents := criticalEvents la ++ [log];
         performanceIssues := performanceIssues la;
         errorCount := incr (errorCount la);
         warningCount := warningCount la |}
  | CatWarning =>
      {| logs := logs la;
         criticalEvents := criticalEvents la;
         performanceIssues := performanceIssues la;
         errorCount := errorCount la;
         warningCount := incr (warningCount la) |}
  | CatPerformance =>
      {| logs := logs la;
         criticalEvents := criticalEvents la;
         performanceIssues := performanceIssues la ++ [log];
         errorCount := errorCount la;
         warningCount := warningCount la |}
  | CatRestart =>
      {| logs := logs la;
         criticalEvents := criticalEvents la ++ [restartCopy log];
         performanceIssues := performanceIssues la;
         errorCount := errorCount la;
         warningCount := warningCount la |}
  | CatNone => la
  end.

(** How an entry of the batch shows in critical-events: as it is on the
    error path, as its restart copy otherwise. *)
Definition asCritical (log : LogEntry) : LogEntry :=
  match first_match (LogContent log) with
  | CatRestart => restartCopy log
  | _ => log
  end.

(** The entries of a batch that go to critical-events and to
    performance-issues. *)
Definition is_critical (log : LogEntry) : Prop :=
  first_match (LogContent log) = CatError
  \/ first_match (LogContent log) = CatRestart.

Definition is_performance (log : LogEntry) : Prop :=
  first_match (LogContent log) = CatPerformance.

(** The entries of a batch that are counted as errors and as warnings. *)
Definition counted_error (log : LogEntry) : Prop :=
  first_match (LogContent log) = CatError.

Definition counted_warning (log : LogEntry) : Prop :=
  first_match (LogContent log) = CatWarning.

(** A word that is [pod] in some mix of upper and lower case. *)
Definition is_pod_word (w : string) : Prop :=
  exists a b c,
    w = String a (String b (String c EmptyString))
    /\ to_lower a = "p"%char /\ to_lower b = "o"%char
    /\ to_lower c = "d"%char.

(** A section of the report: one line per event, or the placeholder. *)
Definition report_section (events : list LogEntry) (placeholder : string)
  : string :=
  match events with
  | [] => placeholder
  | _ => String.concat EmptyString (map eventLine events)
  end.

(** The report as the sequence of its parts. *)
Definition report_document (total errors warnings : Z)
    (critical performance : list LogEntry) : string :=
  "### Kubernetes Log Analysis Report

" +:+ "- **Total Log Entries:** " +:+ fmt_d total +:+ "
" +:+ "- **Error Count:** " +:+ fmt_d errors +:+ "
" +:+ "- **Warning Count:** " +:+ fmt_d warnings +:+ "

" +:+ "#### Critical Events
" +:+ report_section critical "- No critical events detected.
" +:+ "
#### Performance Issues
" +:+ report_section performance "- No significant performance issues detected.
".

(** The report of an empty batch. *)
Definition empty_report : string :=
  "### Kubernetes Log Analysis Report

- **Total Log Entries:** 0
- **Error Count:** 0
- **Warning Count:** 0

#### Critical Events
- No critical events detected.

#### Performance Issues
- No significant performance issues detected.
".

(** Output order, read literally: each list is a subsequence of the
    batch. *)
Definition outputs_are_subsequences (batch : list LogEntry) : Prop :=
  criticalEvents (NewLogAnalyzer batch) `sublist_of` batch
  /\ performanceIssues (NewLogAnalyzer batch) `sublist_of` batch.

(** Entries used in the examples. *)
Definition entry (content : string) : LogEntry :=
  {| Namespace := "n"; PodName := "p"; Container := "c1";
     LogContent := content; Timestamp := "2024-11-27T10:00:00Z" |}.

Definition fresh (batch : list LogEntry) : LogAnalyzer :=
  {| logs := batch; criticalEvents := []; performanceIssues := [];
     errorCount := 0; warningCount := 0 |}.


End Spec.

(* ===================================================================== *)
(** ** Definitions used to state the properties of [retrieveLogs] *)

Module RetrieveSpec.
Import Go K8s Storage Cmd.

(** The tasks of a run, by the parameters of their goroutines. *)
Inductive task : Type :=
| PodTask (podName : string)
| CtrTask (podName containerName : string).

(** What a run accounts for: every log entry, every error and every task
    is, at each moment, in exactly one place. *)
Inductive token : Type :=
| TEntry (log : LogEntry)
| TError (err : error)
| TTask (t : task).

Definition entry_of (t : token) : option LogEntry :=
  match t with TEntry log => Some log | _ => None end.

Definition error_of (t : token) : option error :=
  match t with TError err => Some err | _ => None end.

Definition task_of (t : token) : option task :=
  match t with TTask t => Some t | _ => None end.

Definition is_pod_task (t : task) : bool :=
  match t with PodTask _ => true | CtrTask _ _ => false end.

Definition is_ctr_task (t : task) : bool :=
  match t with PodTask _ => false | CtrTask _ _ => true end.

Definition goroutine_task (g : goroutine) : task :=
  match g with
  | PodStart p | PodSendErr p _ | PodRange p _ | PodDeferred p
  | PodFinished p => PodTask p
  | CtrStart p c | CtrSendErr p c _ | CtrRange p c _ | CtrDeferred p c
  | CtrFinished p c => CtrTask p c
  end.

(** A goroutine that has not yet run its deferred [wg.Done()]. *)
Definition live (g : goroutine) : nat :=
  match g with
  | PodFinished _ | CtrFinished _ _ => 0
  | _ => 1
  end%nat.

Definition finished (g : goroutine) : Prop := live g = 0%nat.

(** An idle turn of the consumer: its [select] takes the error case on the
    closed and drained [errorChan], and [break] only leaves the [select]. *)
Definition idle (c : choice) (s : state) : bool :=
  match c with
  | RunConsumer CaseErr =>
      match recv (errorChan (sh s)) with
      | RecvClosed => true
      | _ => false
      end
  | _ => false
  end.

Section Expected.
Variable client : Clientset.
Variable flags : Flags.

(** The pods of the run. *)
Definition resolved_pods : result (list string) :=
  if decide (pod flags = EmptyString)
  then ListPods client (namespace flags)
  else Ok [pod flags].

(** What a container goroutine will produce, and with its task. *)
Definition ctr_work (p c : string) : list token :=
  match logsOf client flags p c with
  | Err e => [TError e]
  | Ok logs => TEntry <$> logs
  end.

Definition ctr_tokens (p c : string) : list token :=
  TTask (CtrTask p c) :: ctr_work p c.

(** What a pod goroutine and the goroutines it starts will produce. *)
Definition pod_work (p : string) : list token :=
  match containersOf client flags p with
  | Err e => [TError e]
  | Ok containers => containers ≫= ctr_tokens p
  end.

Definition pod_tokens (p : string) : list token :=
  TTask (PodTask p) :: pod_work p.

(** Everything a run that gets its pods accounts for. *)
Definition expected_tokens : list token :=
  match resolved_pods with
  | Err _ => []
  | Ok pods => pods ≫= pod_tokens
  end.

Definition expected_entries : list LogEntry := omap entry_of expected_tokens.
Definition expected_errors : list error := omap error_of expected_tokens.
Definition expected_tasks : list task := omap task_of expected_tokens.

(** The entries a run collects from [pods]: for each pod whose containers
    are resolved, for each container whose fetch succeeds, the stamped
    non-empty lines of its log, in the order of the log. *)
Definition collected (pods : list string) : list LogEntry :=
  p ← pods;
  match containersOf client flags p with
  | Err _ => []
  | Ok containers =>
      c ← containers;
      match logsOf client flags p c with
      | Err _ => []
      | Ok logs => logs
      end
  end.

(** The tokens held by a goroutine: its task, and what it has still
    to send or to start. *)
Definition goroutine_tokens (g : goroutine) : list token :=
  match g with
  | PodStart p => pod_tokens p
  | PodSendErr p e => [TTask (PodTask p); TError e]
  | PodRange p containers => TTask (PodTask p) :: (containers ≫= ctr_tokens p)
  | PodDeferred p | PodFinished p => [TTask (PodTask p)]
  | CtrStart p c => ctr_tokens p c
  | CtrSendErr p c e => [TTask (CtrTask p c); TError e]
  | CtrRange p c logs => TTask (CtrTask p c) :: (TEntry <$> logs)
  | CtrDeferred p c | CtrFinished p c => [TTask (CtrTask p c)]
  end.

Definition main_tokens (m : main_pc) : list token :=
  match m with
  | MainEntry => expected_tokens
  | MainRange pods => pods ≫= pod_tokens
  | _ => []
  end.

Definition shared_tokens (x : shared) : list token :=
  (TEntry <$> buf (logChan x)) ++ (TError <$> buf (errorChan x)).

Definition tokens (s : state) : list token :=
  (TEntry <$> logs (logStore s)) ++ (TError <$> printed s)
    ++ shared_tokens (sh s)
    ++ (goroutines s ≫= goroutine_tokens)
    ++ main_tokens (main s).

(** *** The invariant of a run from the store [store0]

    No goroutine has panicked; [wg] counts the pod and container
    goroutines that have not run their [wg.Done()]; the closer and the
    consumer are where the calling goroutine has put them; a channel is
    closed only by the closer, after [wg.Wait()] returned; the consumer
    returns only at the closed and drained [logChan]; the store only
    grows; and no token is created or lost. *)

Definition channels_open (x : shared) : Prop :=
  closed (logChan x) = false /\ closed (errorChan x) = false.

Definition main_inv (store0 : LogStorage) (s : state) : Prop :=
  match main s with
  | MainEntry => s = enter store0
  | MainRange _ =>
      closer s = None /\ consumer s = None /\ logsProcessed s = 0
  | MainGoConsumer =>
      closer s <> None /\ consumer s = None /\ logsProcessed s = 0
  | MainWait =>
      closer s <> None
      /\ (consumer s = Some ConsumerSelect /\ logsProcessed s = 1
          \/ consumer s = Some ConsumerFinished /\ logsProcessed s = 0)
  | MainReturned None =>
      closer s <> None /\ consumer s = Some ConsumerFinished
  | MainReturned (Some err) =>
      s = set_main (MainReturned (Some err)) (enter store0)
      /\ pod flags = EmptyString
      /\ exists e, ListPods client (namespace flags) = Err e
                   /\ err = "failed to list pods: " +:+ e
  end.

Definition closer_inv (s : state) : Prop :=
  match closer s with
  | None | Some CloserWait => channels_open (sh s)
  | Some CloserCloseLog => wg (sh s) = 0 /\ channels_open (sh s)
  | Some CloserCloseErr =>
      wg (sh s) = 0 /\ closed (logChan (sh s)) = true
      /\ closed (errorChan (sh s)) = false
  | Some CloserFinished =>
      wg (sh s) = 0 /\ closed (logChan (sh s)) = true
      /\ closed (errorChan (sh s)) = true
  end.

Definition consumer_inv (s : state) : Prop :=
  consumer s = Some ConsumerFinished ->
  closed (logChan (sh s)) = true /\ buf (logChan (sh s)) = [].

Record invariant (store0 : LogStorage) (s : state) : Prop := mkInvariant {
  inv_no_panic : panicked (sh s) = false;
  inv_caps : cap (logChan (sh s)) = 100%nat /\ cap (errorChan (sh s)) = 10%nat;
  inv_wg : wg (sh s) = Z.of_nat (sum_list_with live (goroutines s));
  inv_main : main_inv store0 s;
  inv_closer : closer_inv s;
  inv_consumer : consumer_inv s;
  inv_store : logs store0 `prefix_of` logs (logStore s);
  inv_tokens : tokens s ≡ₚ (TEntry <$> logs store0) ++ expected_tokens
}.

(** *** The measure of what is left to do

    One unit for each step a goroutine has still to take and for each
    value waiting in a channel, counting what the goroutines not yet
    started will do. *)

Definition ctr_weight (p c : string) : nat :=
  match logsOf client flags p c with
  | Err _ => 3
  | Ok logs => 2 + 2 * length logs
  end%nat.

Definition range_weight (p : string) (containers : list string) : nat :=
  (2 + sum_list_with (fun c => 2 + ctr_weight p c) containers)%nat.

Definition pod_weight (p : string) : nat :=
  match containersOf client flags p with
  | Err _ => 3%nat
  | Ok containers => range_weight p containers
  end.

Definition weight (g : goroutine) : nat :=
  match g with
  | PodStart p => 1 + pod_weight p
  | PodSendErr _ _ => 3
  | PodRange p containers => range_weight p containers
  | PodDeferred _ => 1
  | PodFinished _ => 0
  | CtrStart p c => 1 + ctr_weight p c
  | CtrSendErr _ _ _ => 3
  | CtrRange _ _ logs => 2 + 2 * length logs
  | CtrDeferred _ _ => 1
  | CtrFinished _ _ => 0
  end%nat.

Definition pods_weight (pods : list string) : nat :=
  sum_list_with (fun p => 2 + pod_weight p)%nat pods.

Definition main_weight (m : main_pc) : nat :=
  match m with
  | MainEntry =>
      4 + match resolved_pods with Ok pods => pods_weight pods | Err _ => 0 end
  | MainRange pods => 3 + pods_weight pods
  | MainGoConsumer => 2
  | MainWait => 1
  | MainReturned _ => 0
  end%nat.

Definition closer_weight (c : option closer_pc) : nat :=
  match c with
  | None | Some CloserWait => 3
  | Some CloserCloseLog => 2
  | Some CloserCloseErr => 1
  | Some CloserFinished => 0
  end%nat.

Definition consumer_weight (c : option consumer_pc) : nat :=
  match c with
  | None | Some ConsumerSelect => 1
  | Some ConsumerFinished => 0
  end%nat.

Definition shared_weight (x : shared) : nat :=
  (length (buf (logChan x)) + length (buf (errorChan x)))%nat.

Definition measure (s : state) : nat :=
  (main_weight (main s) + closer_weight (closer s)
    + consumer_weight (consumer s) + shared_weight (sh s)
    + sum_list_with weight (goroutines s))%nat.

Definition returned (s : state) : Prop :=
  exists err, main s = MainReturned err.

(** The steps of a run that are not idle turns. *)
Fixpoint busy (schedule : list choice) (s : state) : nat :=
  match schedule with
  | [] => 0
  | c :: schedule' =>
      match step client flags c s with
      | Some s' => (if idle c s then 0 else 1) + busy schedule' s'
      | None => 0
      end
  end.

(** The fetches of the containers of a pod all succeed, each with [L]
    non-empty lines. *)
Definition fetches_succeed (p : string) (containers : list string) (L : nat)
  : Prop :=
  forall c, c ∈ containers ->
    exists logBytes,
      pods_GetLogs client (namespace flags) p c = StreamBytes logBytes
      /\ length (logLines logBytes) = L.

(** A cluster where every call succeeds: each pod of [pods] has [M]
    containers and the log of each has [L] non-empty lines. *)
Definition all_succeed (pods : list string) (M L : nat) : Prop :=
  forall p, p ∈ pods ->
    exists containers,
      containersOf client flags p = Ok containers
      /\ length containers = M
      /\ fetches_succeed p containers L.

(** An entry stamped with the namespace of the run, one of its pods,
    one of the containers of that pod, and holding a non-empty line of
    the log of that container. *)
Definition stamped (pods : list string) (log : LogEntry) : Prop :=
  Namespace log = namespace flags
  /\ PodName log ∈ pods
  /\ (exists containers,
        containersOf client flags (PodName log) = Ok containers
        /\ Container log ∈ containers)
  /\ (exists logBytes,
        pods_GetLogs client (namespace flags) (PodName log) (Container log)
        = StreamBytes logBytes
        /\ LogContent log ∈ logLines logBytes
        /\ LogContent log <> EmptyString).

End Expected.

(** The state in which a failed pod listing leaves [retrieveLogs]. *)
Definition aborted (store : LogStorage) (e : error) : state :=
  set_main (MainReturned (Some ("failed to list pods: " +:+ e))) (enter store).

(** Clusters, flags and schedules used in the examples. *)
Definition demo_flags : Flags :=
  {| namespace := "prod"; pod := ""; container := "" |}.

Definition demo_client : Clientset :=
  {| pods_List := fun _ => Ok ["web-0"; "web-1"];
     pods_Get := fun _ _ => Ok ["app"; "sidecar"];
     pods_GetLogs := fun _ _ _ => StreamBytes "INFO start
";
     time_Now := fun _ _ _ => "2024-11-27T10:00:00Z" |}.

(** A schedule that runs each goroutine to its end in the order they were
    started, the consumer receiving each entry as soon as it is sent. *)
Definition demo_schedule : list choice :=
  [RunMain; RunMain; RunMain; RunMain; RunMain;
   RunGoroutine 0; RunGoroutine 0; RunGoroutine 0; RunGoroutine 0;
   RunGoroutine 0; RunGoroutine 1; RunGoroutine 1; RunGoroutine 1;
   RunGoroutine 1; RunGoroutine 1; RunGoroutine 2; RunGoroutine 2;
   RunConsumer CaseLog; RunGoroutine 2; RunGoroutine 2; RunGoroutine 3;
   RunGoroutine 3; RunConsumer CaseLog; RunGoroutine 3; RunGoroutine 3;
   RunGoroutine 4; RunGoroutine 4; RunConsumer CaseLog; RunGoroutine 4;
   RunGoroutine 4; RunGoroutine 5; RunGoroutine 5; RunConsumer CaseLog;
   RunGoroutine 5; RunGoroutine 5; RunCloser; RunCloser;
   RunConsumer CaseLog; RunMain].

Definition lossy_client : Clientset :=
  {| pods_List := fun _ => Ok ["web-0"];
     pods_Get := fun _ _ => Ok ["app"; "sidecar"];
     pods_GetLogs := fun _ _ c =>
       if decide (c = "sidecar") then StreamOpenError "container is starting"
       else StreamBytes "INFO start
";
     time_Now := fun _ _ _ => "2024-11-27T10:00:00Z" |}.

(** A schedule in which the producers and the closer are done before the
    consumer takes its first turn. *)
Definition lossy_schedule : list choice :=
  [RunMain;              (* the pods are listed: web-0 *)
   RunMain;              (* the goroutine of web-0 is started *)
   RunMain;              (* the closer is started *)
   RunMain;              (* the consumer is started *)
   RunGoroutine 0;       (* web-0: its containers are app and sidecar *)
   RunGoroutine 0;       (* web-0: the goroutine of app is started *)
   RunGoroutine 0;       (* web-0: the goroutine of sidecar is started *)
   RunGoroutine 0;       (* web-0: the loop ends *)
   RunGoroutine 0;       (* web-0: wg.Done() *)
   RunGoroutine 1;       (* app: RetrievePodLogs gives one entry *)
   RunGoroutine 1;       (* app: logChan <- log *)
   RunGoroutine 1;       (* app: the loop ends *)
   RunGoroutine 1;       (* app: wg.Done() *)
   RunGoroutine 2;       (* sidecar: RetrievePodLogs fails *)
   RunGoroutine 2;       (* sidecar: errorChan <- the error *)
   RunGoroutine 2;       (* sidecar: wg.Done() *)
   RunCloser;            (* wg.Wait() returns *)
   RunCloser;            (* close(logChan) *)
   RunCloser;            (* close(errorChan) *)
   RunConsumer CaseLog;  (* select, log case: the entry is stored *)
   RunConsumer CaseLog;  (* select, log case: logChan is closed, return *)
   RunMain].             (* logsProcessed.Wait() returns; return nil *)

(** The end-to-end scenario: namespace [n], pod [p], containers [c1] and
    [c2]. *)
Definition scenario_flags : Flags :=
  {| namespace := "n"; pod := "p"; container := "" |}.

Definition scenario_client : Clientset :=
  {| pods_List := fun _ => Ok ["p"];
     pods_Get := fun _ _ => Ok ["c1"; "c2"];
     pods_GetLogs := fun _ _ c =>
       if decide (c = "c1") then StreamBytes "INFO start
ERROR timeout reaching db
"
       else StreamBytes "WARN disk nearly full
";
     time_Now := fun _ _ _ => "2024-11-27T10:00:00Z" |}.

Definition scenario_schedule : list choice :=
  [RunMain; RunMain; RunMain; RunMain; RunGoroutine 0; RunGoroutine 0;
   RunGoroutine 1; RunGoroutine 1; RunConsumer CaseLog; RunGoroutine 1;
   RunConsumer CaseLog; RunGoroutine 1; RunGoroutine 1; RunGoroutine 0;
   RunGoroutine 2; RunGoroutine 2; RunConsumer CaseLog; RunGoroutine 2;
   RunGoroutine 2; RunGoroutine 0; RunGoroutine 0; RunCloser; RunCloser;
   RunConsumer CaseLog; RunMain].

Definition unreachable_client : Clientset :=
  {| pods_List := fun _ => Err "connection refused";
     pods_Get := fun _ _ => Ok ["app"];
     pods_GetLogs := fun _ _ _ => StreamBytes "INFO start
";
     time_Now := fun _ _ _ => "2024-11-27T10:00:00Z" |}.

End RetrieveSpec.

(* ===================================================================== *)
(** ** Definitions used to state the properties of lines and of contents *)

Module TextSpec.
Import Go K8s Regexp Analysis.

(** The byte is a line feed. *)
Definition is_newline (b : ascii) : bool := Ascii.eqb b "010"%char.

(** The string holds a line feed. *)
Fixpoint has_newline (s : string) : bool :=
  match s with
  | EmptyString => false
  | String b s' => is_newline b || has_newline s'
  end.

(** A line as a container writes it: not empty, no line feed in it. *)
Definition is_line (s : string) : Prop :=
  s <> EmptyString /\ has_newline s = false.

(** The number of line feeds of a string. *)
Fixpoint newlines (s : string) : nat :=
  match s with
  | EmptyString => 0
  | String b s' => (if is_newline b then 1 else 0) + newlines s'
  end%nat.

(** An entry as [RetrievePodLogs] builds it for a container. *)
Definition from_container (ns p c : string) (log : LogEntry) : Prop :=
  Namespace log = ns /\ PodName log = p /\ Container log = c
  /\ is_line (LogContent log).

(** A string with its ASCII letters in lower case. *)
Fixpoint lower (s : string) : string :=
  match s with
  | EmptyString => EmptyString
  | String b s' => String (to_lower b) (lower s')
  end.

(** The order in which [analyzeLine] tries the categories. *)
Definition rank (c : Spec.category) : nat :=
  match c with
  | Spec.CatError => 0
  | Spec.CatWarning => 1
  | Spec.CatPerformance => 2
  | Spec.CatRestart => 3
  | Spec.CatNone => 4
  end.

(** Batches used in the examples. *)
Definition mixed_batch : list LogEntry :=
  [Spec.entry "ERROR timeout reaching db"; Spec.entry "WARN disk nearly full";
   Spec.entry "request was slow"; Spec.entry "pod restarted";
   Spec.entry "INFO start"].

End TextSpec.

(* ===================================================================== *)
(** ** Definitions used to state further properties of [retrieveLogs] *)

Module RunSpec.
Import Go K8s Storage Cmd RetrieveSpec.

(** The entries added to the store since [retrieveLogs] was entered. *)
Definition added (store0 : LogStorage) (s : state) : list LogEntry :=
  drop (length (logs store0)) (logs (logStore s)).

(** The entries that have been sent: those added to the store, then those
    waiting in [logChan], oldest first. *)
Definition sent (store0 : LogStorage) (s : state) : list LogEntry :=
  added store0 s ++ buf (logChan (sh s)).

(** No channel holds more than its capacity. *)
Definition within_caps (s : state) : Prop :=
  (length (buf (logChan (sh s))) <= cap (logChan (sh s)))%nat
  /\ (length (buf (errorChan (sh s))) <= cap (errorChan (sh s)))%nat.

(** [totalLogs] counts the entries added to the store. *)
Definition counted (store0 : LogStorage) (s : state) : Prop :=
  totalLogs s = wrap_int (len (added store0 s)).

Section Cluster.
Variable client : Clientset.
Variable flags : Flags.

(** The errors of a run over [pods]: one for each pod whose containers
    cannot be listed, one for each container whose fetch fails. *)
Definition failures (pods : list string) : list error :=
  p ← pods;
  match containersOf client flags p with
  | Err e => [e]
  | Ok containers =>
      c ← containers;
      match logsOf client flags p c with
      | Err e => [e]
      | Ok _ => []
      end
  end.

(** An error of a run over [pods], by the call that failed: the listing
    of the containers of one of the pods, or the fetch of the log of one
    of its containers. *)
Definition failure_of (pods : list string) (e : error) : Prop :=
  exists p,
    p ∈ pods
    /\ ((container flags = EmptyString
         /\ exists e',
              ListContainers client (namespace flags) p = Err e'
              /\ e = "failed to list containers for pod " +:+ p +:+ ": " +:+ e')
        \/ exists containers c e',
             containersOf client flags p = Ok containers
             /\ c ∈ containers
             /\ RetrievePodLogs client (namespace flags) p c = Err e'
             /\ e = "failed to retrieve logs for pod " +:+ p
                      +:+ ", container " +:+ c +:+ ": " +:+ e').

(** A container goroutine has sent its entries in the order of its log:
    what it has sent so far is a subsequence of [seq]. *)
Definition in_order (seq : list LogEntry) (g : goroutine) : Prop :=
  match g with
  | CtrRange p c rest =>
      exists done,
        logsOf client flags p c = Ok (done ++ rest) /\ done `sublist_of` seq
  | CtrSendErr p c _ | CtrDeferred p c | CtrFinished p c =>
      forall logs, logsOf client flags p c = Ok logs -> logs `sublist_of` seq
  | _ => True
  end.


End Cluster.

(** Two clients that answer alike the calls a run with [flags] makes. *)
Definition same_answers (flags : Flags) (client1 client2 : Clientset) : Prop :=
  (pod flags = EmptyString ->
   ListPods client1 (namespace flags) = ListPods client2 (namespace flags))
  /\ (container flags = EmptyString ->
      forall p, ListContainers client1 (namespace flags) p
                = ListContainers client2 (namespace flags) p)
  /\ (forall p c, RetrievePodLogs client1 (namespace flags) p c
                  = RetrievePodLogs client2 (namespace flags) p c).

(** Flags and schedules used in the examples. *)

(** The container [c1] of the pod [p] of the scenario, and a schedule
    for it. *)
Definition single_flags : Flags :=
  {| namespace := "n"; pod := "p"; container := "c1" |}.

Definition single_schedule : list choice :=
  [RunMain; RunMain; RunMain; RunMain; RunGoroutine 0; RunGoroutine 0;
   RunGoroutine 0; RunGoroutine 0; RunGoroutine 1; RunGoroutine 1;
   RunGoroutine 1; RunGoroutine 1; RunGoroutine 1; RunConsumer CaseLog;
   RunConsumer CaseLog; RunCloser; RunCloser; RunCloser;
   RunConsumer CaseLog; RunMain].

(** A schedule of the scenario in which the goroutine of [c2] runs to
    its end before the one of [c1] starts. *)
Definition late_schedule : list choice :=
  [RunMain; RunMain; RunMain; RunMain; RunGoroutine 0; RunGoroutine 0;
   RunGoroutine 0; RunGoroutine 0; RunGoroutine 0; RunGoroutine 2;
   RunGoroutine 2; RunGoroutine 2; RunGoroutine 2; RunGoroutine 1;
   RunGoroutine 1; RunGoroutine 1; RunGoroutine 1; RunGoroutine 1;
   RunConsumer CaseLog; RunConsumer CaseLog; RunConsumer CaseLog;
   RunCloser; RunCloser; RunCloser; RunConsumer CaseLog; RunMain].

(** A schedule of the cluster with the failing fetch in which the
    consumer receives the error. *)
Definition printing_schedule : list choice :=
  [RunMain; RunMain; RunMain; RunMain; RunGoroutine 0; RunGoroutine 0;
   RunGoroutine 1; RunGoroutine 1; RunConsumer CaseLog; RunGoroutine 1;
   RunGoroutine 1; RunGoroutine 0; RunGoroutine 2; RunGoroutine 2;
   RunConsumer CaseErr; RunGoroutine 2; RunGoroutine 0; RunGoroutine 0;
   RunCloser; RunCloser; RunCloser; RunConsumer CaseLog; RunMain].

(** The scenario behind a client whose pod listing fails. *)
Definition unlisted_client : Clientset :=
  {| pods_List := fun _ => Err "forbidden";
     pods_Get := pods_Get scenario_client;
     pods_GetLogs := pods_GetLogs scenario_client;
     time_Now := time_Now scenario_client |}.

End RunSpec.

(* ===================================================================== *)
(** ** Worlds used in the examples of [RunE] *)

Module RootSpec.
Import Go K8s Storage Cmd Root RetrieveSpec RunSpec.

(** A terminal without colours. *)
Definition plain : Palette :=
  {| podColor := fun s => s;
     containerColor := fun s => s;
     timestampColor := fun s => s |}.

(** A cluster behind a kubeconfig that can be read, no variable set in
    the environment. *)
Definition world_of (client : Clientset) : World :=
  {| zap_NewProduction := None;
     kube := {| RestConfig := unit;
                RecommendedHomeFile := "/home/user/.kube/config";
                BuildConfigFromFlags := fun _ => Ok tt;
                NewForConfig := fun _ => Ok client |};
     services := {| Getenv := fun _ => EmptyString;
                    NewClientWithKeyCredential := fun _ _ => Err "no client";
                    glamour_Render := fun text _ => Ok text |};
     palette := plain;
     color_Red := fun s => s |}.

(** The cluster of the scenario, and the one with the failing fetch. *)
Definition scenario_world : World := world_of scenario_client.
Definition lossy_world : World := world_of lossy_client.

(** The same with no cluster to reach. *)
Definition offline_world : World :=
  {| zap_NewProduction := None;
     kube := {| RestConfig := unit;
                RecommendedHomeFile := "/home/user/.kube/config";
                BuildConfigFromFlags := fun _ => Err "no such file";
                NewForConfig := fun _ => Ok scenario_client |};
     services := services scenario_world;
     palette := plain;
     color_Red := fun s => s |}.

Definition raw_options : Options :=
  {| flags := scenario_flags; kubeconfig := EmptyString; printRaw := true |}.

Definition analysis_options : Options :=
  {| flags := scenario_flags; kubeconfig := EmptyString; printRaw := false |}.


Definition prod_analysis_options : Options :=
  {| flags := demo_flags; kubeconfig := EmptyString; printRaw := false |}.

(** A pod without its namespace. *)
Definition bad_options : Options :=
  {| flags := {| namespace := ""; pod := "p"; container := "" |};
     kubeconfig := EmptyString; printRaw := false |}.

End RootSpec.

(*THEOREMS*)

(* ===================================================================== *)
(** ** The log store *)

Module StorageFacts.
Import K8s Storage.

(** Appending a sequence of entries, one call after the other. *)
Lemma GetLogs_fold_AddLog (es : list LogEntry) (ls : LogStorage) :
  GetLogs (fold_left AddLog es ls) = GetLogs ls ++ es.
Proof.
  revert ls. induction es as [|e es IH]; intros ls; simpl.
  - by rewrite app_nil_r.
  - rewrite IH. unfold GetLogs, AddLog; simpl. by rewrite <- app_assoc.
Qed.

(** C7: appending then reading gives the previous sequence with the entry
    at its end, so the entry is in it; clearing then reading gives the
    empty sequence; appending N entries one after the other (the mutex
    makes each append atomic) then reading gives the previous sequence
    followed by exactly those N entries. *)
Theorem store_round_trip (ls : LogStorage) (e : LogEntry) (es : list LogEntry) :
  GetLogs (AddLog ls e) = GetLogs ls ++ [e]
  /\ e ∈ GetLogs (AddLog ls e)
  /\ GetLogs (Clear ls) = []
  /\ GetLogs (fold_left AddLog es ls) = GetLogs ls ++ es
  /\ GetLogs (fold_left AddLog es NewLogStorage) = es
  /\ length (GetLogs (fold_left AddLog es (Clear ls))) = length es.
Proof.
  repeat split.
  - unfold GetLogs, AddLog; simpl. apply elem_of_app. right.
    by apply list_elem_of_singleton.
  - apply GetLogs_fold_AddLog.
  - by rewrite GetLogs_fold_AddLog.
  - by rewrite GetLogs_fold_AddLog.
Qed.

End StorageFacts.

(* ===================================================================== *)
(** ** The patterns *)

Module RegexpFacts.
Import Regexp.

(** A match at the first position is a match. *)
Lemma MatchString_here (r : regex) (s : string) :
  matchAt r s <> [] -> MatchString r s = true.
Proof.
  intros H. unfold MatchString. destruct s; simpl; destruct (matchAt r _); try done.
Qed.

(** A match of the rest of the input is a match of the input. *)
Lemma MatchString_cons (r : regex) (b : ascii) (s : string) :
  MatchString r s = true -> MatchString r (String b s) = true.
Proof.
  unfold MatchString. intros H. simpl. rewrite H. apply orb_true_r.
Qed.

(** A match somewhere in the input is a match of the input. *)
Lemma MatchString_skip (r : regex) (pre s : string) :
  matchAt r s <> [] -> MatchString r (pre +:+ s) = true.
Proof.
  intros H. induction pre as [|b pre IH]; simpl.
  - by apply MatchString_here.
  - by apply MatchString_cons.
Qed.

(** String concatenation, as used by [report += ...]. *)
Lemma append_assoc (s1 s2 s3 : string) :
  (s1 +:+ s2) +:+ s3 = s1 +:+ s2 +:+ s3.
Proof.
  induction s1 as [|a s1 IH]; [done|].
  change (String a ((s1 +:+ s2) +:+ s3) = String a (s1 +:+ s2 +:+ s3)).
  by rewrite IH.
Qed.

Lemma append_nil_r (s : string) : s +:+ EmptyString = s.
Proof.
  induction s as [|a s IH]; [done|].
  change (String a (s +:+ EmptyString) = String a s). by rewrite IH.
Qed.

End RegexpFacts.

(* ===================================================================== *)
(** ** The classification *)

Module AnalysisFacts.
Import Go K8s Regexp Analysis Spec RegexpFacts.

(** The patterns on a few lines: case is folded, a pattern matches
    anywhere in the line, [.*] does not cross a newline, and [container]
    must come before [restart]. *)
Example patterns_on_lines :
  MatchString errorRegex "2024-11-27 FATAL: out of memory" = true
  /\ MatchString errorRegex "INFO start" = false
  /\ MatchString warningRegex "WARN disk nearly full" = true
  /\ MatchString performanceRegex "High Load on node-3" = true
  /\ MatchString restartRegex "Container app will Restart" = true
  /\ MatchString restartRegex "restart of the container" = false
  /\ MatchString restartRegex "container stopped
restart requested" = false
  /\ MatchString restartRegex "Podman started" = true.
Proof. repeat split; reflexivity. Qed.

(** [analyzeLine] is the effect of the first matching category. *)
Lemma analyzeLine_effect (la : LogAnalyzer) (log : LogEntry) :
  analyzeLine la log = effect (first_match (LogContent log)) la log.
Proof.
  unfold analyzeLine, first_match.
  destruct (MatchString errorRegex _); [done|].
  destruct (MatchString warningRegex _); [done|].
  destruct (MatchString performanceRegex _); [done|].
  destruct (MatchString restartRegex _); done.
Qed.

(** The error pattern decides first. *)
Lemma first_match_error (content : string) :
  MatchString errorRegex content = true -> first_match content = CatError.
Proof. unfold first_match. by intros ->. Qed.

(** The whole loop of [processLogs], from any classification state. *)
Lemma fold_analyzeLine (batch : list LogEntry) (la : LogAnalyzer) :
  logs (fold_left analyzeLine batch la) = logs la
  /\ criticalEvents (fold_left analyzeLine batch la) =
       criticalEvents la ++ (asCritical <$> filter is_critical batch)
  /\ performanceIssues (fold_left analyzeLine batch la) =
       performanceIssues la ++ filter is_performance batch.
Proof.
  revert la. induction batch as [|log batch IH]; intros la.
  - simpl. by rewrite !app_nil_r.
  - cbn [fold_left]. destruct (IH (analyzeLine la log)) as (Hl & Hc & Hp).
    rewrite Hl, Hc, Hp, analyzeLine_effect, !filter_cons.
    unfold is_critical, is_performance, asCritical.
    destruct (first_match (LogContent log)) eqn:Hm; simpl;
      repeat case_decide; try (exfalso; intuition congruence);
      rewrite ?fmap_cons, <- ?app_assoc; simpl; by rewrite ?Hm.
Qed.

(** [x++] does not wrap below the largest [int]. *)
Lemma incr_small (x : Z) : 0 <= x < int_max -> incr x = x + 1.
Proof.
  unfold incr, wrap_int, int_max. intros H.
  rewrite Z.mod_small; lia.
Qed.

(** The counts of the loop of [processLogs], from any classification state
    whose counts leave room for the batch. *)
Lemma fold_analyzeLine_counts (batch : list LogEntry) (la : LogAnalyzer) :
  0 <= errorCount la -> 0 <= warningCount la ->
  errorCount la + len batch <= int_max ->
  warningCount la + len batch <= int_max ->
  errorCount (fold_left analyzeLine batch la)
  = errorCount la + len (filter counted_error batch)
  /\ warningCount (fold_left analyzeLine batch la)
     = warningCount la + len (filter counted_warning batch).
Proof.
  revert la. unfold len.
  induction batch as [|log batch IH]; intros la He Hw Hemax Hwmax.
  - simpl. lia.
  - cbn [fold_left]. rewrite !filter_cons, analyzeLine_effect.
    rewrite length_cons in Hemax, Hwmax.
    destruct (decide (counted_error log)) as [Hce|Hce];
      destruct (decide (counted_warning log)) as [Hcw|Hcw];
      unfold counted_error, counted_warning in Hce, Hcw;
      destruct (first_match (LogContent log)); try congruence;
      match goal with
      | |- context [fold_left analyzeLine batch ?la'] =>
          destruct (IH la') as [IHe IHw]; simpl in *;
          rewrite ?incr_small in * by lia; lia
      end.
Qed.

(** The counts of a classification are the numbers of entries taking the
    error path and the warning path: a slice is never longer than the
    largest [int], so the counts do not wrap. *)
Lemma NewLogAnalyzer_counts (batch : list LogEntry) :
  len batch <= int_max ->
  errorCount (NewLogAnalyzer batch) = len (filter counted_error batch)
  /\ warningCount (NewLogAnalyzer batch) = len (filter counted_warning batch).
Proof.
  intros H.
  destruct (fold_analyzeLine_counts batch (fresh batch)) as [He Hw];
    simpl; try lia.
  unfold NewLogAnalyzer, processLogs. cbn [logs]. fold (fresh batch).
  by rewrite He, Hw.
Qed.

(** C3: one decision per entry, the first matching category in the order
    error, warning, performance, restart, and only its effect.  An entry
    matching the error pattern takes the error path whatever else it
    matches: the error count is incremented and the entry itself is
    appended to critical-events, nothing else changes.  Whatever the
    entry, at most one of the two lists grows, by one entry, at most one
    of the two counts changes, and a count changes only when
    performance-issues does not grow. *)
Theorem analyzeLine_single_decision (la : LogAnalyzer) (log : LogEntry) :
  analyzeLine la log = effect (first_match (LogContent log)) la log
  /\ (MatchString errorRegex (LogContent log) = true ->
      analyzeLine la log =
        {| logs := logs la;
           criticalEvents := criticalEvents la ++ [log];
           performanceIssues := performanceIssues la;
           errorCount := incr (errorCount la);
           warningCount := warningCount la |})
  /\ (length (criticalEvents (analyzeLine la log))
        + length (performanceIssues (analyzeLine la log))
      <= length (criticalEvents la) + length (performanceIssues la) + 1)%nat
  /\ (errorCount (analyzeLine la log) = errorCount la
      \/ warningCount (analyzeLine la log) = warningCount la)
  /\ (performanceIssues (analyzeLine la log) = performanceIssues la
      \/ (criticalEvents (analyzeLine la log) = criticalEvents la
          /\ errorCount (analyzeLine la log) = errorCount la
          /\ warningCount (analyzeLine la log) = warningCount la))
  /\ (warningCount (analyzeLine la log) = warningCount la
      \/ (criticalEvents (analyzeLine la log) = criticalEvents la
          /\ performanceIssues (analyzeLine la log) = performanceIssues la
          /\ errorCount (analyzeLine la log) = errorCount la)).
Proof.
  split; [apply analyzeLine_effect|].
  split.
  { intros H. by rewrite analyzeLine_effect, (first_match_error _ H). }
  rewrite analyzeLine_effect.
  destruct (first_match (LogContent log)); simpl;
    rewrite ?length_app; simpl; repeat split; auto; lia.
Qed.

(** The line of the end-to-end scenario: it matches both the error and the
    performance pattern and is classified as an error only. *)
Lemma analyzeLine_single_decision_witness :
  MatchString errorRegex "ERROR timeout reaching db" = true
  /\ MatchString performanceRegex "ERROR timeout reaching db" = true
  /\ analyzeLine (fresh []) (entry "ERROR timeout reaching db") =
       {| logs := [];
          criticalEvents := [entry "ERROR timeout reaching db"];
          performanceIssues := [];
          errorCount := 1;
          warningCount := 0 |}.
Proof.
  split; [reflexivity|]. split; [reflexivity|].
  apply (proj1 (proj2 (analyzeLine_single_decision
                         (fresh []) (entry "ERROR timeout reaching db")))).
  reflexivity.
Defined.




(** C5: an entry taking the restart path (the restart pattern matches
    and no pattern before it does) is appended to critical-events as a
    copy whose content is [Restart Event: ] followed by the original
    content, the other fields being those of the entry; the counts and
    performance-issues are unchanged; the batch held by the analyser is
    unchanged, by this step and by the whole classification. *)
Theorem analyzeLine_restart_copy (la : LogAnalyzer) (log : LogEntry) :
  MatchString errorRegex (LogContent log) = false ->
  MatchString warningRegex (LogContent log) = false ->
  MatchString performanceRegex (LogContent log) = false ->
  MatchString restartRegex (LogContent log) = true ->
  criticalEvents (analyzeLine la log) =
    criticalEvents la ++
      [{| Namespace := Namespace log;
          PodName := PodName log;
          Container := Container log;
          LogContent := "Restart Event: " +:+ LogContent log;
          Timestamp := Timestamp log |}]
  /\ errorCount (analyzeLine la log) = errorCount la
  /\ warningCount (analyzeLine la log) = warningCount la
  /\ performanceIssues (analyzeLine la log) = performanceIssues la
  /\ logs (analyzeLine la log) = logs la
  /\ (forall batch, logs (NewLogAnalyzer batch) = batch).
Proof.
  intros He Hw Hp Hr. unfold analyzeLine. rewrite He, Hw, Hp, Hr. simpl.
  repeat split. intros batch. apply (proj1 (fold_analyzeLine batch (fresh batch))).
Qed.

(** The line of the restart scenario. *)
Lemma analyzeLine_restart_copy_witness :
  criticalEvents
    (analyzeLine (fresh [entry "pod restarted unexpectedly"])
                 (entry "pod restarted unexpectedly"))
  = [entry "Restart Event: pod restarted unexpectedly"]
  /\ logs (NewLogAnalyzer [entry "pod restarted unexpectedly"])
     = [entry "pod restarted unexpectedly"].
Proof.
  pose proof (analyzeLine_restart_copy
                (fresh [entry "pod restarted unexpectedly"])
                (entry "pod restarted unexpectedly")
                eq_refl eq_refl eq_refl eq_refl) as H.
  split; [exact (proj1 H)|].
  exact (proj2 (proj2 (proj2 (proj2 (proj2 H)))) _).
Defined.

(** C6 as stated fails where an entry takes the restart path: its copy in
    critical-events is not an entry of the batch, so critical-events is
    not a subsequence of the batch. *)
Lemma restart_copy_not_in_batch :
  ~ outputs_are_subsequences [entry "pod restarted unexpectedly"].
Proof.
  intros [H _]. apply sublist_subseteq in H.
  assert (Hin : entry "Restart Event: pod restarted unexpectedly"
                ∈ [entry "pod restarted unexpectedly"]).
  { apply H. vm_compute. apply list_elem_of_here. }
  apply list_elem_of_singleton in Hin. discriminate Hin.
Qed.

(** C6, amended: performance-issues is a subsequence of the batch, and
    critical-events is, entry for entry and in the same order, a
    subsequence of the batch in which every entry that took the restart
    path is replaced by its prefixed copy. *)
Theorem outputs_preserve_order (batch : list LogEntry) :
  performanceIssues (NewLogAnalyzer batch) `sublist_of` batch
  /\ exists sub,
       sub `sublist_of` batch
       /\ Forall is_critical sub
       /\ criticalEvents (NewLogAnalyzer batch) = asCritical <$> sub.
Proof.
  unfold NewLogAnalyzer, processLogs.
  destruct (fold_analyzeLine batch (fresh batch)) as (_ & Hc & Hp).
  change (logs _) with batch. fold (fresh batch). rewrite Hc, Hp. simpl.
  split; [apply sublist_filter|].
  exists (filter is_critical batch). split; [apply sublist_filter|].
  split; [|done].
  apply Forall_forall. intros x Hx. by apply list_elem_of_filter in Hx as [? _].
Qed.

(** The loop over the events appends the concatenation of their lines. *)
Lemma appendEvents_concat (events : list LogEntry) (report : string) :
  appendEvents report events
  = report +:+ String.concat EmptyString (map eventLine events).
Proof.
  unfold appendEvents. revert report.
  induction events as [|e events IH]; intros report.
  - simpl. by rewrite append_nil_r.
  - cbn [fold_left]. rewrite IH, append_assoc.
    destruct events as [|e' events]; [|done].
    simpl. by rewrite append_nil_r.
Qed.

(** Either branch of [if len(events) > 0] appends the section. *)
Lemma events_section (events : list LogEntry) (report placeholder : string) :
  (if 0 <? len events then appendEvents report events
   else report +:+ placeholder)
  = report +:+ report_section events placeholder.
Proof.
  destruct events as [|e events]; [done|].
  replace (0 <? len (e :: events)) with true
    by (symmetry; apply Z.ltb_lt; unfold len; simpl; lia).
  apply appendEvents_concat.
Qed.

(** C9: the report is a function of the classification state alone, made
    of the title, the total entry count, the error count, the warning
    count, the critical-events section and the performance-issues section,
    each section holding one line per event (timestamp, pod, container,
    content) or its placeholder when the list is empty; classifying the
    empty batch gives zero counts and empty lists, and its report shows a
    total of zero and both placeholders. *)
Theorem report_contents (la : LogAnalyzer) (event : LogEntry) :
  generateDetailedReport la
  = report_document (len (logs la)) (errorCount la) (warningCount la)
      (criticalEvents la) (performanceIssues la)
  /\ eventLine event
     = "- `" +:+ Timestamp event +:+ " | " +:+ PodName event +:+ " | "
         +:+ Container event +:+ "`: " +:+ LogContent event +:+ "
"
  /\ NewLogAnalyzer []
     = {| logs := []; criticalEvents := []; performanceIssues := [];
          errorCount := 0; warningCount := 0 |}
  /\ generateDetailedReport (NewLogAnalyzer []) = empty_report.
Proof.
  split; [|done].
  unfold generateDetailedReport, report_document.
  rewrite !events_section. by rewrite !append_assoc.
Qed.

(** The restart pattern matches at a [pod] word. *)
Lemma pod_word_matches (w post : string) :
  is_pod_word w -> matchAt restartRegex (w +:+ post) <> [].
Proof.
  intros (a & b & c & -> & Ha & Hb & Hc).
  unfold restartRegex. cbn [matchAt].
  change (String a (String b (String c EmptyString)) +:+ post)
    with (String a (String b (String c post))).
  cbn [lit_prefix fold_rune]. rewrite Ha. cbn [Ascii.eqb to_lower].
  simpl. rewrite Hb. simpl. rewrite Hc. simpl. done.
Qed.

(** C10: the restart pattern is [pod] or [container.*restart], so an
    entry whose content has [pod] somewhere, in any mix of case, and
    matches none of the error, warning and performance patterns, takes
    the restart path: its copy with the content prefixed by
    [Restart Event: ] is appended to critical-events, and nothing else
    changes. *)
Theorem pod_word_takes_restart_path
    (la : LogAnalyzer) (log : LogEntry) (pre w post : string) :
  LogContent log = pre +:+ w +:+ post ->
  is_pod_word w ->
  MatchString errorRegex (LogContent log) = false ->
  MatchString warningRegex (LogContent log) = false ->
  MatchString performanceRegex (LogContent log) = false ->
  MatchString restartRegex (LogContent log) = true
  /\ analyzeLine la log =
       {| logs := logs la;
          criticalEvents :=
            criticalEvents la ++
              [{| Namespace := Namespace log;
                  PodName := PodName log;
                  Container := Container log;
                  LogContent := "Restart Event: " +:+ LogContent log;
                  Timestamp := Timestamp log |}];
          performanceIssues := performanceIssues la;
          errorCount := errorCount la;
          warningCount := warningCount la |}.
Proof.
  intros Hc Hw He Hwa Hp.
  assert (Hr : MatchString restartRegex (LogContent log) = true).
  { rewrite Hc. apply MatchString_skip. by apply pod_word_matches. }
  split; [done|]. unfold analyzeLine. by rewrite He, Hwa, Hp, Hr.
Qed.

(** A line about a pod and about no restart. *)
Lemma pod_word_takes_restart_path_witness :
  analyzeLine (fresh []) (entry "new Pod scheduled") =
    {| logs := [];
       criticalEvents := [entry "Restart Event: new Pod scheduled"];
       performanceIssues := [];
       errorCount := 0;
       warningCount := 0 |}.
Proof.
  refine (proj2 (pod_word_takes_restart_path
                   (fresh []) (entry "new Pod scheduled")
                   "new " "Pod" " scheduled" eq_refl _ eq_refl eq_refl eq_refl)).
  exists "P"%char, "o"%char, "d"%char. repeat split; reflexivity.
Defined.

End AnalysisFacts.

(* ===================================================================== *)
(** ** The retrieval *)

Module RetrieveFacts.
  Import Go K8s Storage Cmd RetrieveSpec.

(** *** Lists updated at an index *)

(** The list around the element at index [i], and around its update. *)
Lemma lookup_split {A} (l : list A) (i : nat) (x : A) :
  l !! i = Some x ->
  exists l1 l2, l = l1 ++ x :: l2 /\ forall y, <[i:=y]> l = l1 ++ y :: l2.
Proof.
  intros H. exists (take i l), (drop (S i) l). split.
  - symmetry. by apply take_drop_middle.
  - intros y. apply insert_take_drop. by eapply lookup_lt_Some.
Qed.

(** A sum over the goroutines after one of them stepped and started
    others. *)
Lemma sum_list_with_insert {A} (f : A -> nat)
    (l : list A) (i : nat) (x y : A) (new : list A) :
  l !! i = Some x ->
  (sum_list_with f (<[i:=y]> l ++ new) + f x
   = sum_list_with f l + f y + sum_list_with f new)%nat.
Proof.
  intros (l1 & l2 & -> & Hins)%lookup_split. rewrite Hins.
  rewrite !sum_list_with_app. simpl. lia.
Qed.

(** The same for what the goroutines hold. *)
Lemma bind_insert {A B} (f : A -> list B)
    (l : list A) (i : nat) (x y : A) (new : list A) :
  l !! i = Some x ->
  (f x ++ ((<[i:=y]> l ++ new) ≫= f)) ≡ₚ ((f y ++ (new ≫= f)) ++ (l ≫= f)).
Proof.
  intros (l1 & l2 & -> & Hins)%lookup_split. rewrite Hins.
  rewrite !bind_app, !bind_cons. solve_Permutation.
Qed.

(** *** Projections of token lists *)
Lemma omap_fmap_some {A B} (f : B -> option A) (g : A -> B) (l : list A) :
  (forall x, f (g x) = Some x) -> omap f (g <$> l) = l.
Proof.
  intros H. induction l as [|x l IH]; [done|].
  csimpl. rewrite H. simpl. by rewrite IH.
Qed.

Lemma omap_fmap_none {A B C} (f : B -> option C) (g : A -> B) (l : list A) :
  (forall x, f (g x) = None) -> omap f (g <$> l) = [].
Proof.
  intros H. induction l as [|x l IH]; [done|].
  csimpl. by rewrite H.
Qed.

Lemma omap_bind {A B C} (f : B -> option C) (g : A -> list B) (l : list A) :
  omap f (l ≫= g) = l ≫= (fun x => omap f (g x)).
Proof.
  induction l as [|x l IH]; [done|].
  by rewrite !bind_cons, omap_app, IH.
Qed.

(** A uniform sum. *)
Lemma sum_list_with_const {A} (f : A -> nat) (l : list A) (n : nat) :
  (forall x, x ∈ l -> f x = n) -> sum_list_with f l = (length l * n)%nat.
Proof.
  intros H. induction l as [|x l IH]; [done|]. simpl.
  rewrite H by apply list_elem_of_here.
  rewrite IH; [lia|]. intros y Hy. apply H. by apply list_elem_of_further.
Qed.

(** The size of a uniform union. *)
Lemma length_bind_const {A B} (g : A -> list B) (l : list A) (n : nat) :
  (forall x, x ∈ l -> length (g x) = n) ->
  length (l ≫= g) = (length l * n)%nat.
Proof.
  intros H. induction l as [|x l IH]; [done|].
  rewrite bind_cons, length_app. simpl.
  rewrite H by apply list_elem_of_here.
  rewrite IH; [lia|]. intros y Hy. apply H. by apply list_elem_of_further.
Qed.

Lemma filter_bind {A B} (P : B -> Prop) `{!forall x, Decision (P x)}
    (g : A -> list B) (l : list A) :
  filter P (l ≫= g) = l ≫= (fun x => filter P (g x)).
Proof.
  induction l as [|x l IH]; [done|].
  by rewrite !bind_cons, filter_app, IH.
Qed.

Lemma filter_fmap_none {A B} (P : B -> Prop) `{!forall x, Decision (P x)}
    (g : A -> B) (l : list A) :
  (forall x, ~ P (g x)) -> filter P (g <$> l) = [].
Proof.
  intros HP. induction l as [|x l IH]; [done|].
  rewrite fmap_cons, filter_cons.
  by destruct (decide (P (g x))); [destruct (HP x)|].
Qed.

Lemma filter_fmap_all {A B} (P : B -> Prop) `{!forall x, Decision (P x)}
    (g : A -> B) (l : list A) :
  (forall x, P (g x)) -> filter P (g <$> l) = g <$> l.
Proof.
  intros HP. induction l as [|x l IH]; [done|].
  rewrite fmap_cons, filter_cons, IH.
  by destruct (decide (P (g x))) as [|Hn]; [|destruct (Hn (HP x))].
Qed.

Section Run.
Variable client : Clientset.
Variable flags : Flags.

Abbreviation gtokens := (goroutine_tokens client flags).
Abbreviation gweight := (weight client flags).

(** *** One step of a pod or container goroutine

    While the channels are open and the wait group counts the goroutine,
    its step does not panic, leaves the channels open, keeps the wait
    group in line with the live goroutines, moves tokens without creating
    or losing any, and makes the measure decrease. *)
Lemma exec_goroutine_sound g x g' started x' :
  exec_goroutine client flags g x = Some (g', started, x') ->
  panicked x = false -> channels_open x -> 0 < wg x ->
  (panicked x' = false
   /\ cap (logChan x') = cap (logChan x)
   /\ cap (errorChan x') = cap (errorChan x)
   /\ channels_open x')
  /\ live g = 1%nat
  /\ wg x' + 1
     = wg x + Z.of_nat (live g') + Z.of_nat (sum_list_with live started)
  /\ (gtokens g ++ shared_tokens x)
     ≡ₚ ((gtokens g' ++ (started ≫= gtokens)) ++ shared_tokens x')
  /\ (gweight g' + sum_list_with gweight started + shared_weight x'
      < gweight g + shared_weight x)%nat.
Proof.
  intros Hexec Hpanic [Hlog Herr] Hwg.
  destruct x as [n [lcap lbuf lclosed] [ecap ebuf eclosed] pk].
  unfold channels_open, shared_tokens, shared_weight. simpl in *. subst.
  assert (Hdone : (n <=? 0) = false) by (apply Z.leb_gt; lia).
  destruct g as [p|p e|p [|c cs]|p|p|p c|p c e|p c [|l ls]|p c|p c];
    simpl in Hexec; unfold send, wg_Done in Hexec; simpl in Hexec;
    rewrite ?Hdone in Hexec;
    repeat case_match; simplify_eq; simpl.
  all: unfold pod_tokens, pod_work, ctr_tokens, ctr_work, pod_weight.
  all: repeat match goal with H : _ = _ |- _ => rewrite H end.
  all: simpl; rewrite ?fmap_app, ?length_app; simpl.
  all: split; [done|]. all: split; [done|]. all: split; [lia|].
  all: split; [solve_Permutation|try lia].
  all: unfold ctr_weight;
    repeat match goal with H : _ = _ |- _ => rewrite H end; simpl; lia.
Qed.

Variable store0 : LogStorage.

Abbreviation inv := (invariant client flags store0).

(** Only a goroutine that has not run its [wg.Done()] can step. *)
Lemma exec_goroutine_live g x r :
  exec_goroutine client flags g x = Some r -> live g = 1%nat.
Proof. destruct g; simpl; done. Qed.

(** A live goroutine is counted. *)
Lemma live_le_wg (gs : list goroutine) (i : nat) (g : goroutine) :
  gs !! i = Some g -> (live g <= sum_list_with live gs)%nat.
Proof.
  intros H. apply sum_list_with_in. by eapply list_elem_of_lookup_2.
Qed.

(** *** The invariant is kept by every step *)
Ltac unfold_inv :=
  unfold main_inv, closer_inv, consumer_inv, tokens, shared_tokens,
    channels_open, expected_tokens, resolved_pods in *; simpl in *.

Ltac split_inv := split; unfold_inv.

(** The calling goroutine. *)
Lemma main_step_invariant s s' :
  inv s -> exec_main client flags s = Some s' -> inv s'.
Proof.
  intros [Hp Hcap Hwg Hmain Hcl Hco Hst Htok] Hstep.
  unfold exec_main in Hstep.
  destruct s as [m gs cl co x lp st tl pr]. unfold_inv.
  destruct m as [|[|p ps]| | |err]; simpl in *.
  - (* MainEntry *)
    inversion Hmain; subst; clear Hmain.
    destruct (decide (pod flags = "")) as [Hpod|Hpod].
    + destruct (ListPods client (namespace flags)) as [podList|e] eqn:Hlist;
        simplify_eq; split_inv; rewrite ?Hlist; try done.
      all: destruct (decide (pod flags = "")); rewrite ?Hlist; try done.
      by repeat split; eauto.
    + simplify_eq. split_inv; done.
  - (* MainRange [] *)
    simplify_eq. destruct Hmain as (-> & -> & ->).
    split_inv; try done.
  - (* MainRange (p :: ps) *)
    simplify_eq. destruct Hmain as (-> & -> & ->).
    split_inv; try done.
    + rewrite sum_list_with_app. simpl. lia.
    + rewrite <- Htok. rewrite bind_app, bind_cons. simpl.
      solve_Permutation.
  - (* MainGoConsumer *)
    simplify_eq. destruct Hmain as (? & -> & ->).
    split_inv; try done. split; [done|]. by left.
  - (* MainWait *)
    destruct (lp =? 0) eqn:Hlp; simplify_eq.
    apply Z.eqb_eq in Hlp. subst.
    destruct Hmain as (? & [[_ ?]|[-> _]]); [done|].
    split_inv; done.
  - done.
Qed.

(** A pod or container goroutine: it can step only while the closer is
    still waiting, hence while both channels are open. *)
Lemma goroutine_step_invariant s i g g' started x' :
  inv s ->
  goroutines s !! i = Some g ->
  exec_goroutine client flags g (sh s) = Some (g', started, x') ->
  inv (set_goroutines (<[i := g']> (goroutines s) ++ started) (set_sh x' s)).
Proof.
  intros [Hp Hcap Hwg Hmain Hcl Hco Hst Htok] Hi Hexec.
  pose proof (exec_goroutine_live _ _ _ Hexec) as Hlive.
  pose proof (live_le_wg _ _ _ Hi) as Hle.
  assert (Hpos : 0 < wg (sh s)) by lia.
  assert (Hopen : channels_open (sh s)).
  { unfold closer_inv in Hcl.
    destruct (closer s) as [[]|]; try done; lia. }
  destruct (exec_goroutine_sound _ _ _ _ _ Hexec Hp Hopen Hpos)
    as ((Hp' & Hc1 & Hc2 & Hopen') & _ & Hwg' & Htok' & _).
  pose proof (sum_list_with_insert live _ _ _ g' started Hi) as Hsum.
  pose proof (bind_insert gtokens _ _ _ g' started Hi) as Hbind.
  destruct s as [m gs cl co x lp st tl pr]. simpl in *.
  split_inv.
  - done.
  - by rewrite Hc1, Hc2.
  - lia.
  - destruct m as [| | | |[err|]]; try done.
    + by inversion Hmain; subst.
    + destruct Hmain as [Hs _]. by inversion Hs; subst.
  - destruct cl as [[]|]; try done; lia.
  - intros ->. destruct Hopen as [Hopen _]. destruct (Hco eq_refl) as [Hcl' _].
    congruence.
  - done.
  - rewrite <- Htok.
    apply (Permutation_app_inv_l (gtokens g)).
    fold (shared_tokens x) (shared_tokens x').
    transitivity
      ((TEntry <$> logs st) ++ (TError <$> pr) ++ main_tokens client flags m
         ++ (gtokens g ++ ((<[i:=g']> gs ++ started) ≫= gtokens))
         ++ shared_tokens x');
      [solve_Permutation|].
    rewrite Hbind.
    transitivity
      ((TEntry <$> logs st) ++ (TError <$> pr) ++ main_tokens client flags m
         ++ (gs ≫= gtokens)
         ++ ((gtokens g' ++ started ≫= gtokens) ++ shared_tokens x'));
      [solve_Permutation|].
    rewrite <- Htok'. solve_Permutation.
Qed.

(** The part of the invariant on the calling goroutine, when the step is
    of another goroutine. *)
Ltac keep_main m Hmain :=
  destruct m as [| | | |[?|]]; simpl in *;
  first [ by inversion Hmain
        | by (destruct Hmain as [Hs _]; inversion Hs)
        | intuition (first [congruence | done | lia]) ].

(** The closer. *)
Lemma closer_step_invariant s s' :
  inv s -> exec_closer s = Some s' -> inv s'.
Proof.
  intros [Hp Hcap Hwg Hmain Hcl Hco Hst Htok] Hstep.
  unfold exec_closer, close in Hstep.
  destruct s as [m gs cl co [n [lcap lbuf lcl] [ecap ebuf ecl] pk] lp st tl pr].
  unfold_inv.
  destruct cl as [[]|]; simpl in *; try done.
  - destruct (n =? 0) eqn:Hn; simplify_eq. apply Z.eqb_eq in Hn. subst.
    split_inv; try done. keep_main m Hmain.
  - destruct Hcl as (-> & -> & ->). simplify_eq.
    split_inv; try done.
    + keep_main m Hmain.
    + intros ->. keep_main m Hmain.
  - destruct Hcl as (-> & -> & ->). simplify_eq.
    split_inv; try done. keep_main m Hmain.
Qed.

(** The consumer, through either case of its [select]. *)
Lemma consumer_step_invariant k s s' :
  inv s -> exec_consumer k s = Some s' -> inv s'.
Proof.
  intros [Hp Hcap Hwg Hmain Hcl Hco Hst Htok] Hstep.
  unfold exec_consumer, recv in Hstep.
  destruct s as [m gs cl co [n [lcap lbuf lcl] [ecap ebuf ecl] pk] lp st tl pr].
  unfold_inv.
  destruct co as [[]|]; try done.
  destruct k; simpl in *.
  - destruct lbuf as [|log lbuf]; [destruct lcl; [|done]|]; simplify_eq.
    + split_inv; try done.
      destruct m as [| | | |[?|]]; simpl in *; try by intuition congruence.
      * by inversion Hmain.
      * destruct Hmain as (? & [[_ ->]|[? _]]); [|done].
        split; [done|]. by right.
      * destruct Hmain as [Hs _]. by inversion Hs.
    + split_inv; try done.
      * keep_main m Hmain.
      * by apply prefix_app_r.
      * rewrite <- Htok, fmap_app. simpl. solve_Permutation.
  - destruct ebuf as [|err ebuf]; [destruct ecl; [|done]|]; simplify_eq.
    + split_inv; done.
    + split_inv; try done.
      * keep_main m Hmain.
      * rewrite <- Htok, fmap_app. simpl. solve_Permutation.
Qed.

(** It holds on entry. *)
Lemma enter_invariant : inv (enter store0).
Proof. split_inv; done. Qed.

(** Hence it is kept by every step of the program: in particular no step
    panics, no send meets a closed channel and [wg] never goes negative. *)
Lemma step_invariant c s s' :
  inv s -> step client flags c s = Some s' -> inv s'.
Proof.
  intros Hinv Hstep. unfold step in Hstep.
  rewrite (inv_no_panic _ _ _ _ Hinv) in Hstep.
  destruct c as [|i| |k].
  - by eapply main_step_invariant.
  - destruct (goroutines s !! i) as [g|] eqn:Hi; [|done].
    destruct (exec_goroutine client flags g (sh s)) as [[[g' started] x']|] eqn:Hg;
      [|done].
    simplify_eq. by eapply goroutine_step_invariant.
  - by eapply closer_step_invariant.
  - by eapply consumer_step_invariant.
Qed.

(** And along every run. *)
Lemma run_invariant schedule s s' :
  inv s -> run client flags schedule s = Some s' -> inv s'.
Proof.
  revert s. induction schedule as [|c schedule IH]; intros s Hinv Hrun;
    simpl in Hrun.
  - by simplify_eq.
  - destruct (step client flags c s) as [s1|] eqn:Hstep; [|done].
    eapply IH; [|done]. by eapply step_invariant.
Qed.

(** A schedule continued by another. *)
Lemma run_app schedule1 schedule2 s s1 :
  run client flags schedule1 s = Some s1 ->
  run client flags (schedule1 ++ schedule2) s = run client flags schedule2 s1.
Proof.
  revert s. induction schedule1 as [|c schedule1 IH]; intros s Hrun;
    simpl in *.
  - by simplify_eq.
  - destruct (step client flags c s) as [s'|]; [|done]. by apply IH.
Qed.

(** *** Bounded work, and no run gets stuck *)

(** A positive count of live goroutines gives one of them. *)
Lemma exists_live (gs : list goroutine) :
  (0 < sum_list_with live gs)%nat ->
  exists i g, gs !! i = Some g /\ live g = 1%nat.
Proof.
  induction gs as [|g gs IH]; simpl; [lia|]. intros H.
  destruct (live g) as [|[|n]] eqn:Hg.
  - destruct IH as (i & g' & Hi & Hg'); [lia|]. by exists (S i), g'.
  - by exists 0%nat, g.
  - destruct g; simpl in Hg; lia.
Qed.

(** With both buffers empty and both channels open, a live goroutine is
    not blocked. *)
Lemma exec_goroutine_enabled g x :
  live g = 1%nat -> channels_open x ->
  buf (logChan x) = [] -> buf (errorChan x) = [] ->
  (0 < cap (logChan x))%nat -> (0 < cap (errorChan x))%nat ->
  exists r, exec_goroutine client flags g x = Some r.
Proof.
  intros Hlive [Hl He] Hlb Heb Hlc Hec.
  destruct x as [n [lcap lbuf lcl] [ecap ebuf ecl] pk]. simpl in *. subst.
  assert (Hl' : (0 <? lcap)%nat = true) by (apply Nat.ltb_lt; lia).
  assert (He' : (0 <? ecap)%nat = true) by (apply Nat.ltb_lt; lia).
  destruct g as [p|p e|p [|c cs]|p|p|p c|p c e|p c [|l ls]|p c|p c];
    simpl in *; try done; unfold send; simpl; rewrite ?Hl', ?He'; eauto.
  - destruct (containersOf client flags p); eauto.
  - destruct (logsOf client flags p c); eauto.
Qed.

(** Every step makes the measure decrease, but the idle turn of the
    consumer, which changes nothing. *)
Lemma step_measure c s s' :
  inv s -> step client flags c s = Some s' ->
  if idle c s then s' = s
  else (measure client flags s' < measure client flags s)%nat.
Proof.
  intros Hinv Hstep.
  pose proof Hinv as [Hp Hcap Hwg Hmain Hcl Hco Hst Htok].
  unfold step in Hstep. rewrite Hp in Hstep.
  destruct c as [|i| |k]; simpl.
  - (* the calling goroutine *)
    unfold exec_main in Hstep. unfold main_inv in Hmain. unfold measure.
    destruct (main s) as [|[|p ps]| | |err] eqn:Hm.
    + unfold main_weight, resolved_pods.
      destruct (decide (pod flags = "")).
      * destruct (ListPods client (namespace flags)); simplify_eq; simpl; lia.
      * simplify_eq. simpl. lia.
    + destruct Hmain as (Hc & _). simplify_eq. simpl. rewrite Hc. simpl. lia.
    + simplify_eq. simpl. rewrite sum_list_with_app. simpl.
      unfold shared_weight, pods_weight. simpl. lia.
    + destruct Hmain as (_ & Hc & _). simplify_eq. simpl. rewrite Hc. simpl. lia.
    + destruct (logsProcessed s =? 0); simplify_eq. simpl. lia.
    + done.
  - (* a pod or container goroutine *)
    destruct (goroutines s !! i) as [g|] eqn:Hi; [|done].
    destruct (exec_goroutine client flags g (sh s)) as [[[g' started] x']|] eqn:Hg;
      [|done].
    simplify_eq.
    pose proof (exec_goroutine_live _ _ _ Hg) as Hlive.
    pose proof (live_le_wg _ _ _ Hi) as Hle.
    assert (Hopen : channels_open (sh s)).
    { unfold closer_inv in Hcl. destruct (closer s) as [[]|]; try done; lia. }
    destruct (exec_goroutine_sound _ _ _ _ _ Hg Hp Hopen)
      as (_ & _ & _ & _ & Hw); [lia|].
    pose proof (sum_list_with_insert (weight client flags) _ _ _ g' started Hi).
    unfold measure. simpl. lia.
  - (* the closer *)
    unfold exec_closer, close in Hstep. unfold closer_inv, channels_open in Hcl.
    unfold measure, shared_weight.
    destruct (closer s) as [[]|] eqn:Hc; try done.
    + destruct (wg (sh s) =? 0); simplify_eq. simpl. lia.
    + destruct Hcl as (_ & Hl & _). rewrite Hl in Hstep. simplify_eq. simpl. lia.
    + destruct Hcl as (_ & _ & He). rewrite He in Hstep. simplify_eq. simpl. lia.
  - (* the consumer *)
    unfold exec_consumer in Hstep. unfold measure, shared_weight.
    destruct (consumer s) as [[]|] eqn:Hc; try done.
    destruct k.
    + unfold recv in Hstep.
      destruct (buf (logChan (sh s))) as [|log lbuf] eqn:Hb.
      * destruct (closed (logChan (sh s))); simplify_eq. simpl. rewrite Hb. simpl. lia.
      * simplify_eq. simpl. rewrite Hc. simpl. lia.
    + unfold recv in *.
      destruct (buf (errorChan (sh s))) as [|err ebuf] eqn:Hb.
      * destruct (closed (errorChan (sh s))); by simplify_eq.
      * simplify_eq. simpl. rewrite Hc. simpl. lia.
Qed.

(** Whatever the schedule, a run takes at most as many steps as the measure
    of its first state, idle turns of the consumer apart. *)
Lemma busy_bounded schedule s :
  inv s -> (busy client flags schedule s <= measure client flags s)%nat.
Proof.
  revert s. induction schedule as [|c schedule IH]; intros s Hinv; simpl;
    [lia|].
  destruct (step client flags c s) as [s'|] eqn:Hstep; [|lia].
  pose proof (step_measure _ _ _ Hinv Hstep) as Hm.
  pose proof (IH s' (step_invariant _ _ _ Hinv Hstep)) as Hb.
  destruct (idle c s); [by subst|lia].
Qed.

(** An idle turn is possible only when the log case of the [select] is
    ready as well: [logChan] is closed before [errorChan]. *)
Lemma idle_log_ready c s :
  inv s -> idle c s = true -> recv (logChan (sh s)) <> RecvBlocks.
Proof.
  intros [Hp Hcap Hwg Hmain Hcl Hco Hst Htok] Hidle.
  unfold idle, recv in *.
  destruct c as [| | |[]]; try done.
  destruct (buf (errorChan (sh s))); [|done].
  destruct (closed (errorChan (sh s))) eqn:He; [|done].
  unfold closer_inv, channels_open in Hcl.
  destruct (closer s) as [[]|]; try (destruct Hcl as [? ?]; congruence);
    try (destruct Hcl as (_ & _ & ?); congruence).
  destruct Hcl as (_ & -> & _). by destruct (buf (logChan (sh s))).
Qed.

(** Until [retrieveLogs] has returned, some step other than the idle turn
    of the consumer is possible. *)
Lemma progress s :
  inv s -> ~ returned s ->
  exists c s', step client flags c s = Some s' /\ idle c s = false.
Proof.
  intros Hinv Hnot.
  pose proof Hinv as [Hp Hcap Hwg Hmain Hcl Hco Hst Htok].
  unfold step. rewrite Hp. unfold main_inv in Hmain.
  destruct (main s) as [|[|p ps]| | |err] eqn:Hm.
  - exists RunMain. unfold exec_main. rewrite Hm.
    destruct (decide (pod flags = "")); [|by eauto].
    destruct (ListPods client (namespace flags)); by eauto.
  - exists RunMain. unfold exec_main. rewrite Hm. by eauto.
  - exists RunMain. unfold exec_main. rewrite Hm. by eauto.
  - exists RunMain. unfold exec_main. rewrite Hm. by eauto.
  - (* at [logsProcessed.Wait()] *)
    destruct Hmain as (Hcl0 & [[Hco0 Hlp]|[Hco0 Hlp]]).
    2:{ exists RunMain. unfold exec_main. rewrite Hm, Hlp. by eauto. }
    destruct (buf (logChan (sh s))) as [|log lbuf] eqn:Hlb.
    2:{ exists (RunConsumer CaseLog). unfold exec_consumer, recv.
        rewrite Hco0, Hlb. by eauto. }
    destruct (buf (errorChan (sh s))) as [|e ebuf] eqn:Heb.
    2:{ exists (RunConsumer CaseErr). unfold exec_consumer, idle, recv.
        rewrite Hco0, Heb. by eauto. }
    destruct (decide (0 < sum_list_with live (goroutines s))%nat)
      as [Hlive|Hlive].
    + (* some goroutine is live: the channels are open and it can step *)
      destruct (exists_live _ Hlive) as (i & g & Hi & Hg).
      assert (Hopen : channels_open (sh s)).
      { unfold closer_inv in Hcl.
        destruct (closer s) as [[]|]; try done; lia. }
      destruct Hcap as [Hc1 Hc2].
      destruct (exec_goroutine_enabled g (sh s) Hg Hopen Hlb Heb)
        as ([[g' started] x'] & Hexec); [lia..|].
      exists (RunGoroutine i). rewrite Hi, Hexec. by eauto.
    + (* all have finished: the closer, then the consumer *)
      assert (Hwg0 : wg (sh s) = 0) by lia.
      unfold closer_inv, channels_open in Hcl.
      destruct (closer s) as [[]|] eqn:Hc; [| | | |done].
      * exists RunCloser. unfold exec_closer. rewrite Hc, Hwg0. by eauto.
      * destruct Hcl as (_ & Hl & He).
        exists RunCloser. unfold exec_closer, close. rewrite Hc, Hl. by eauto.
      * destruct Hcl as (_ & Hl & He).
        exists RunCloser. unfold exec_closer, close. rewrite Hc, He. by eauto.
      * destruct Hcl as (_ & Hl & He).
        exists (RunConsumer CaseLog). unfold exec_consumer, recv.
        rewrite Hco0, Hlb, Hl. by eauto.
  - destruct Hnot. by exists err.
Qed.

(** From every state of a run the function can still return. *)
Lemma can_return s :
  inv s ->
  exists schedule s', run client flags schedule s = Some s' /\ returned s'.
Proof.
  remember (measure client flags s) as n eqn:Hn.
  revert s Hn. induction (lt_wf n) as [n _ IH]. intros s -> Hinv.
  destruct (main s) as [| | | |err] eqn:Hm;
    try (destruct (progress s Hinv) as (c & s1 & Hstep & Hidle);
         [intros [err Herr]; congruence|];
         pose proof (step_measure _ _ _ Hinv Hstep) as Hlt;
         rewrite Hidle in Hlt;
         destruct (IH _ Hlt s1 eq_refl) as (schedule & s' & Hrun & Hret);
         [by eapply step_invariant|];
         exists (c :: schedule), s'; simpl; rewrite Hstep; done).
  exists [], s. split; [done|]. by exists err.
Qed.

(** *** The state in which the function returns *)

(** Finished goroutines hold their task only. *)
Lemma finished_tokens (gs : list goroutine) :
  sum_list_with live gs = 0%nat ->
  Forall finished gs /\ gs ≫= gtokens = TTask <$> (goroutine_task <$> gs).
Proof.
  induction gs as [|g gs IH]; [done|]. intros H. simpl in H.
  destruct IH as [IH1 IH2]; [lia|].
  assert (Hg : live g = 0%nat) by lia.
  split; [by constructor|].
  rewrite bind_cons, IH2. by destruct g.
Qed.

(** Where everything is once [retrieveLogs] has returned [nil]. *)
Lemma returned_accounts s :
  inv s -> main s = MainReturned None ->
  Forall finished (goroutines s)
  /\ (exists added,
        logs (logStore s) = logs store0 ++ added
        /\ added ≡ₚ expected_entries client flags)
  /\ printed s ++ buf (errorChan (sh s)) ≡ₚ expected_errors client flags
  /\ goroutine_task <$> goroutines s ≡ₚ expected_tasks client flags.
Proof.
  intros [Hp Hcap Hwg Hmain Hcl Hco [added Hst] Htok] Hm.
  unfold main_inv in Hmain. rewrite Hm in Hmain. destruct Hmain as [Hc Hcons].
  destruct (Hco Hcons) as [Hclosed Hbuf].
  assert (Hzero : sum_list_with live (goroutines s) = 0%nat).
  { unfold closer_inv, channels_open in Hcl.
    destruct (closer s) as [[]|]; try done;
      try (destruct Hcl as [Hcl _]; congruence); lia. }
  destruct (finished_tokens _ Hzero) as [Hfin Hgs].
  unfold tokens, shared_tokens in Htok.
  rewrite Hgs, Hbuf, Hm, Hst in Htok. simpl in Htok.
  rewrite app_nil_r in Htok.
  split; [done|]. split; [|split].
  - exists added. split; [done|].
    apply (omap_Permutation entry_of) in Htok.
    rewrite !omap_app, !(omap_fmap_some entry_of TEntry),
      !(omap_fmap_none entry_of TError), (omap_fmap_none entry_of TTask) in Htok
      by done.
    simpl in Htok. rewrite app_nil_r in Htok.
    by apply Permutation_app_inv_l in Htok.
  - apply (omap_Permutation error_of) in Htok.
    rewrite !omap_app, !(omap_fmap_none error_of TEntry),
      !(omap_fmap_some error_of TError), (omap_fmap_none error_of TTask) in Htok
      by done.
    simpl in Htok. by rewrite app_nil_r in Htok.
  - apply (omap_Permutation task_of) in Htok.
    rewrite !omap_app, !(omap_fmap_none task_of TEntry),
      !(omap_fmap_none task_of TError), (omap_fmap_some task_of TTask) in Htok
      by done.
    by simpl in Htok.
Qed.

(** A run that returns an error is one whose pod listing failed, and it
    has done nothing else. *)
Lemma returned_error s err :
  inv s -> main s = MainReturned (Some err) ->
  s = set_main (MainReturned (Some err)) (enter store0)
  /\ pod flags = EmptyString
  /\ exists e, ListPods client (namespace flags) = Err e
               /\ err = "failed to list pods: " +:+ e.
Proof.
  intros Hinv Hm. pose proof (inv_main _ _ _ _ Hinv) as Hmain.
  unfold main_inv in Hmain. by rewrite Hm in Hmain.
Qed.

(** *** What is expected when every call succeeds *)
Lemma ctr_work_tasks p c : omap task_of (ctr_work client flags p c) = [].
Proof.
  unfold ctr_work. destruct (logsOf client flags p c); [|done].
  by apply omap_fmap_none.
Qed.

Lemma pod_tokens_tasks p containers :
  containersOf client flags p = Ok containers ->
  omap task_of (pod_tokens client flags p)
  = PodTask p :: (CtrTask p <$> containers).
Proof.
  intros H. unfold pod_tokens, pod_work. rewrite H. csimpl. f_equal.
  rewrite omap_bind. clear H.
  induction containers as [|c cs IH]; [done|].
  rewrite bind_cons, IH. unfold ctr_tokens. csimpl.
  by rewrite ctr_work_tasks.
Qed.

(** The entries of a container whose stream is read. *)
Lemma logsOf_stream p c logBytes :
  pods_GetLogs client (namespace flags) p c = StreamBytes logBytes ->
  logsOf client flags p c
  = Ok (imap (fun i line =>
                {| Namespace := namespace flags; PodName := p; Container := c;
                   LogContent := line;
                   Timestamp := time_Now client p c i |})
             (logLines logBytes)).
Proof. intros H. unfold logsOf, RetrievePodLogs. by rewrite H. Qed.

Lemma all_succeed_entries pods M L :
  all_succeed client flags pods M L ->
  length (omap entry_of (pods ≫= pod_tokens client flags))
  = (length pods * M * L)%nat.
Proof.
  intros H. rewrite omap_bind, (length_bind_const _ _ (M * L)); [lia|].
  intros p Hp. destruct (H p Hp) as (cs & Hcs & <- & Hc).
  unfold pod_tokens, pod_work. rewrite Hcs. csimpl.
  rewrite omap_bind. apply length_bind_const.
  intros c Hc'. destruct (Hc c Hc') as (b & Hb & <-).
  unfold ctr_tokens, ctr_work. rewrite (logsOf_stream _ _ _ Hb). csimpl.
  rewrite omap_fmap_some by done. apply length_imap.
Qed.

Lemma all_succeed_errors pods M L :
  all_succeed client flags pods M L ->
  omap error_of (pods ≫= pod_tokens client flags) = [].
Proof.
  intros H. rewrite omap_bind.
  induction pods as [|p pods IH]; [done|].
  rewrite bind_cons, IH.
  2:{ intros q Hq. apply H. by apply list_elem_of_further. }
  rewrite app_nil_r.
  destruct (H p) as (cs & Hcs & _ & Hc); [apply list_elem_of_here|].
  unfold pod_tokens, pod_work. rewrite Hcs. csimpl. rewrite omap_bind.
  clear Hcs. induction cs as [|c cs IHc]; [done|].
  rewrite bind_cons, IHc.
  2:{ intros c' Hc'. apply Hc. by apply list_elem_of_further. }
  rewrite app_nil_r.
  destruct (Hc c) as (b & Hb & _); [apply list_elem_of_here|].
  unfold ctr_tokens, ctr_work. rewrite (logsOf_stream _ _ _ Hb). csimpl.
  by apply omap_fmap_none.
Qed.

Lemma all_succeed_tasks pods M L :
  all_succeed client flags pods M L ->
  length (filter is_pod_task (omap task_of (pods ≫= pod_tokens client flags)))
  = length pods
  /\ length (filter is_ctr_task (omap task_of (pods ≫= pod_tokens client flags)))
     = (length pods * M)%nat.
Proof.
  intros H. rewrite omap_bind, !filter_bind. split.
  - rewrite (length_bind_const _ _ 1); [lia|].
    intros p Hp. destruct (H p Hp) as (cs & Hcs & _).
    rewrite (pod_tokens_tasks _ _ Hcs), filter_cons. simpl.
    by rewrite filter_fmap_none by (by intros ? ?).
  - apply length_bind_const.
    intros p Hp. destruct (H p Hp) as (cs & Hcs & <- & _).
    rewrite (pod_tokens_tasks _ _ Hcs), filter_cons. simpl.
    rewrite filter_fmap_all by (by intros ?). apply length_fmap.
Qed.

(** The measure on entry. *)
Lemma all_succeed_measure pods M L :
  resolved_pods client flags = Ok pods ->
  all_succeed client flags pods M L ->
  measure client flags (enter store0)
  = (8 + length pods * (4 + M * (4 + 2 * L)))%nat.
Proof.
  intros Hpods Hall. unfold measure, main_weight, shared_weight. simpl.
  rewrite Hpods. unfold pods_weight.
  rewrite (sum_list_with_const _ _ (4 + M * (4 + 2 * L))); [lia|].
  intros p Hp. destruct (Hall p Hp) as (cs & Hcs & <- & Hc).
  unfold pod_weight, range_weight. rewrite Hcs.
  rewrite (sum_list_with_const _ _ (4 + 2 * L)); [lia|].
  intros c Hc'. destruct (Hc c Hc') as (b & Hb & <-).
  unfold ctr_weight. rewrite (logsOf_stream _ _ _ Hb), length_imap. lia.
Qed.

(** Every expected entry is stamped with its origin. *)
Lemma expected_stamped pods :
  Forall (stamped client flags pods) (omap entry_of (pods ≫= pod_tokens client flags)).
Proof.
  apply Forall_forall. intros log Hlog.
  apply list_elem_of_omap in Hlog as (t & Ht & Hlog).
  destruct t as [log'| |]; simplify_eq/=.
  apply list_elem_of_bind in Ht as (p & Ht & Hp).
  unfold pod_tokens, pod_work in Ht.
  apply elem_of_cons in Ht as [?|Ht]; [done|].
  destruct (containersOf client flags p) as [cs|e] eqn:Hcs.
  2:{ by apply list_elem_of_singleton in Ht. }
  apply list_elem_of_bind in Ht as (c & Ht & Hc).
  unfold ctr_tokens, ctr_work in Ht.
  apply elem_of_cons in Ht as [?|Ht]; [done|].
  unfold logsOf, RetrievePodLogs in Ht.
  destruct (pods_GetLogs client (namespace flags) p c) as [e|e|b] eqn:Hb;
    try by apply list_elem_of_singleton in Ht.
  apply list_elem_of_fmap in Ht as (log' & Heq & Hin). simplify_eq.
  apply elem_of_lookup_imap_1 in Hin as (i & line & -> & Hi).
  apply list_elem_of_lookup_2 in Hi.
  unfold stamped. simpl. split; [done|]. split; [done|].
  split; [by exists cs|]. exists b. split; [done|]. split; [done|].
  unfold logLines in Hi. by apply list_elem_of_filter in Hi as [? _].
Qed.

(** The expected entries are the collected ones. *)
Lemma expected_collected pods :
  omap entry_of (pods ≫= pod_tokens client flags) = collected client flags pods.
Proof.
  unfold collected. rewrite omap_bind. apply list_bind_ext; [|done].
  intros p. unfold pod_tokens, pod_work.
  destruct (containersOf client flags p) as [cs|e]; [|done]. csimpl.
  rewrite omap_bind. apply list_bind_ext; [|done].
  intros c. unfold ctr_tokens, ctr_work.
  destruct (logsOf client flags p c) as [logs|e]; [|done]. csimpl.
  by apply omap_fmap_some.
Qed.

(** C1: over K pods with M containers each, where every container listing
    and every fetch succeeds and every log has L non-empty lines.  Under
    any schedule a run takes at most 8 + K (4 + M (4 + 2 L)) steps, apart
    from the idle turns of the consumer's loop (its [select] taking the
    error case on the closed and drained [errorChan]); from every state of a run
    [retrieveLogs] can still return, it cannot get stuck; and whenever it
    returns it returns [nil], every goroutine it started has finished,
    these being K pod goroutines and K×M container goroutines, and the
    store holds what it held before followed by exactly K×M×L entries,
    which are, up to their order, the stamped non-empty lines of all the
    logs; nothing was printed as an error. *)
Theorem retrieveLogs_collects_all (pods : list string) (K M L : nat) :
  resolved_pods client flags = Ok pods ->
  length pods = K ->
  all_succeed client flags pods M L ->
  (forall schedule,
      (busy client flags schedule (enter store0)
       <= 8 + K * (4 + M * (4 + 2 * L)))%nat)
  /\ (forall schedule s,
        run client flags schedule (enter store0) = Some s ->
        exists schedule' r,
          retrieveLogs client flags store0 (schedule ++ schedule') = Some r)
  /\ (forall schedule err s,
        retrieveLogs client flags store0 schedule = Some (err, s) ->
        err = None
        /\ Forall finished (goroutines s)
        /\ length (filter is_pod_task (goroutine_task <$> goroutines s)) = K
        /\ length (filter is_ctr_task (goroutine_task <$> goroutines s))
           = (K * M)%nat
        /\ (exists added,
              GetLogs (logStore s) = GetLogs store0 ++ added
              /\ length added = (K * M * L)%nat
              /\ added ≡ₚ collected client flags pods
              /\ Forall (stamped client flags pods) added)
        /\ printed s = []).
Proof.
  intros Hpods <- Hall. split; [|split].
  - intros schedule. rewrite <- (all_succeed_measure _ _ _ Hpods Hall).
    apply busy_bounded, enter_invariant.
  - intros schedule s Hrun.
    destruct (can_return s) as (schedule' & s' & Hrun' & err & Hret).
    { eapply run_invariant; [apply enter_invariant|done]. }
    exists schedule', (err, s'). unfold retrieveLogs.
    by rewrite (run_app _ _ _ _ Hrun), Hrun', Hret.
  - intros schedule err s Hret. unfold retrieveLogs in Hret.
    destruct (run client flags schedule (enter store0)) as [s'|] eqn:Hrun;
      [|done].
    destruct (main s') as [| | | |err'] eqn:Hm; try done. simplify_eq.
    assert (Hinv : inv s) by (eapply run_invariant; [apply enter_invariant|done]).
    destruct err as [err|].
    { destruct (returned_error _ _ Hinv Hm) as (_ & Hpod & e & He & _).
      unfold resolved_pods in Hpods. rewrite decide_True in Hpods by done.
      congruence. }
    destruct (returned_accounts _ Hinv Hm)
      as (Hfin & (added & Hadded & Hperm) & Herrs & Htasks).
    unfold expected_entries, expected_errors, expected_tasks, expected_tokens
      in *.
    rewrite Hpods in *.
    destruct (all_succeed_tasks _ _ _ Hall) as [Hpt Hct].
    split; [done|]. split; [done|].
    split; [by rewrite Htasks, Hpt|].
    split; [by rewrite Htasks, Hct|].
    split.
    + exists added. split; [done|].
      split; [by rewrite Hperm, (all_succeed_entries _ _ _ Hall)|].
      split; [by rewrite Hperm, expected_collected|].
      rewrite Hperm. apply expected_stamped.
    + rewrite (all_succeed_errors _ _ _ Hall) in Herrs.
      apply Permutation_nil_r in Herrs. by apply app_eq_nil in Herrs as [? _].
Qed.
(** *** What is expected when exactly one fetch fails *)
Lemma fetches_succeed_tokens p containers L :
  fetches_succeed client flags p containers L ->
  length (omap entry_of (containers ≫= ctr_tokens client flags p))
  = (length containers * L)%nat
  /\ omap error_of (containers ≫= ctr_tokens client flags p) = [].
Proof.
  intros H. induction containers as [|c cs IH]; [done|].
  destruct IH as [IH1 IH2].
  { intros c' Hc'. apply H. by apply list_elem_of_further. }
  destruct (H c) as (b & Hb & <-); [apply list_elem_of_here|].
  rewrite bind_cons, !omap_app, length_app, IH1, IH2.
  unfold ctr_tokens, ctr_work. rewrite (logsOf_stream _ _ _ Hb). csimpl.
  rewrite omap_fmap_some, (omap_fmap_none error_of TEntry) by done.
  rewrite length_imap. split; [lia|done].
Qed.

(** The pod of the failing container. *)
Lemma failing_pod_tokens pf cs1 cf cs2 e L :
  containersOf client flags pf = Ok (cs1 ++ cf :: cs2) ->
  fetches_succeed client flags pf (cs1 ++ cs2) L ->
  logsOf client flags pf cf = Err e ->
  length (omap entry_of (pod_tokens client flags pf))
  = ((length cs1 + length cs2) * L)%nat
  /\ omap error_of (pod_tokens client flags pf) = [e].
Proof.
  intros Hcs Hfetch Hfail.
  assert (Hf1 : fetches_succeed client flags pf cs1 L).
  { intros c Hc. apply Hfetch. apply elem_of_app. by left. }
  assert (Hf2 : fetches_succeed client flags pf cs2 L).
  { intros c Hc. apply Hfetch. apply elem_of_app. by right. }
  destruct (fetches_succeed_tokens _ _ _ Hf1) as [Hn1 He1].
  destruct (fetches_succeed_tokens _ _ _ Hf2) as [Hn2 He2].
  unfold pod_tokens, pod_work. rewrite Hcs. csimpl.
  rewrite bind_app, bind_cons, !omap_app, !length_app, Hn1, Hn2, He1, He2.
  unfold ctr_tokens, ctr_work. rewrite Hfail. csimpl.
  split; [lia|done].
Qed.

(** Partial failure: when exactly one fetch fails, every return leaves
    the entries of all the other containers in the store, and the one
    error either printed or still in the error channel. *)
Lemma one_fetch_fails
    (pods1 pods2 : list string) (pf : string)
    (cs1 cs2 : list string) (cf : string) (e : error) (M L : nat) :
  resolved_pods client flags = Ok (pods1 ++ pf :: pods2) ->
  all_succeed client flags (pods1 ++ pods2) M L ->
  containersOf client flags pf = Ok (cs1 ++ cf :: cs2) ->
  length (cs1 ++ cf :: cs2) = M ->
  fetches_succeed client flags pf (cs1 ++ cs2) L ->
  logsOf client flags pf cf = Err e ->
  forall schedule err s,
    retrieveLogs client flags store0 schedule = Some (err, s) ->
    err = None
    /\ (exists added,
          GetLogs (logStore s) = GetLogs store0 ++ added
          /\ length added
             = ((length (pods1 ++ pf :: pods2) * M - 1) * L)%nat)
    /\ (printed s = [e] /\ buf (errorChan (sh s)) = []
        \/ printed s = [] /\ buf (errorChan (sh s)) = [e]).
Proof.
  intros Hpods Hall Hcs HM Hfetch Hfail schedule err s Hret.
  unfold retrieveLogs in Hret.
  destruct (run client flags schedule (enter store0)) as [s'|] eqn:Hrun;
    [|done].
  destruct (main s') as [| | | |err'] eqn:Hm; try done. simplify_eq.
  assert (Hinv : invariant client flags store0 s)
    by (eapply run_invariant; [apply enter_invariant|done]).
  destruct err as [err|].
  { destruct (returned_error _ _ Hinv Hm) as (_ & Hpod & e' & He' & _).
    unfold resolved_pods in Hpods. rewrite decide_True in Hpods by done.
    congruence. }
  destruct (returned_accounts _ Hinv Hm)
    as (_ & (added & Hadded & Hperm) & Herrs & _).
  unfold expected_entries, expected_errors, expected_tokens in *.
  rewrite Hpods in *.
  assert (Hall1 : all_succeed client flags pods1 (length (cs1 ++ cf :: cs2)) L).
  { intros p Hp. apply Hall. apply elem_of_app. by left. }
  assert (Hall2 : all_succeed client flags pods2 (length (cs1 ++ cf :: cs2)) L).
  { intros p Hp. apply Hall. apply elem_of_app. by right. }
  destruct (failing_pod_tokens _ _ _ _ _ _ Hcs Hfetch Hfail) as [Hn He].
  rewrite bind_app, bind_cons, !omap_app in Hperm.
  rewrite bind_app, bind_cons, !omap_app in Herrs.
  rewrite He, (all_succeed_errors _ _ _ Hall1),
    (all_succeed_errors _ _ _ Hall2) in Herrs.
  simpl in Herrs.
  split; [done|]. split.
  - exists added. split; [done|].
    rewrite Hperm, !length_app, Hn,
      (all_succeed_entries _ _ _ Hall1),
      (all_succeed_entries _ _ _ Hall2).
    rewrite ?length_app. simpl. rewrite ?length_app. simpl.
    nia.
  - apply Permutation_singleton_r in Herrs.
    destruct (printed s) as [|e1 [|e2 pr]]; simplify_eq/=; auto.
Qed.

End Run.

(** Two pods of two containers each, one line per log, under a schedule
    that runs the goroutines in the order they were started. *)
Lemma retrieveLogs_collects_all_witness :
  exists s,
    retrieveLogs demo_client demo_flags NewLogStorage demo_schedule
    = Some (None, s)
    /\ Forall finished (goroutines s)
    /\ length (filter is_pod_task (goroutine_task <$> goroutines s)) = 2%nat
    /\ length (filter is_ctr_task (goroutine_task <$> goroutines s)) = 4%nat
    /\ length (GetLogs (logStore s)) = 4%nat.
Proof.
  assert (Hall : all_succeed demo_client demo_flags ["web-0"; "web-1"] 2 1).
  { intros p _. exists ["app"; "sidecar"]. split; [reflexivity|].
    split; [reflexivity|]. intros c _. eexists. split; reflexivity. }
  pose proof (proj2 (proj2 (retrieveLogs_collects_all demo_client demo_flags
                              NewLogStorage ["web-0"; "web-1"] 2 2 1
                              eq_refl eq_refl Hall))) as H.
  destruct (retrieveLogs demo_client demo_flags NewLogStorage demo_schedule)
    as [[err s]|] eqn:Hrun; [|vm_compute in Hrun; discriminate Hrun].
  destruct (H demo_schedule err s Hrun)
    as (-> & Hfin & Hpods & Hctrs & (added & Hadded & Hlen & _) & _).
  exists s. split; [reflexivity|]. split; [exact Hfin|].
  split; [exact Hpods|]. split; [exact Hctrs|].
  rewrite Hadded. exact Hlen.
Defined.

(** *** A failed pod listing *)
Section Fatal.
Variable client : Clientset.
Variable flags : Flags.
Variable store : LogStorage.
Variable e : error.
Hypothesis Hpod : pod flags = EmptyString.
Hypothesis Hlist : ListPods client (namespace flags) = Err e.

(** From entry the only step is the failed listing, and after it no
    goroutine can step: none was started. *)
Lemma aborted_step c s s' :
  s = enter store \/ s = aborted store e ->
  step client flags c s = Some s' -> s' = aborted store e.
Proof.
  intros [-> | ->] Hstep; destruct c as [|i| |k];
    unfold step in Hstep; simpl in Hstep; try done.
  unfold exec_main in Hstep; simpl in Hstep.
  rewrite decide_True, Hlist in Hstep by done. by simplify_eq.
Qed.

(** So a run stays in one of these two states. *)
Lemma aborted_run schedule s s' :
  s = enter store \/ s = aborted store e ->
  run client flags schedule s = Some s' ->
  s' = enter store \/ s' = aborted store e.
Proof.
  revert s. induction schedule as [|c schedule IH]; intros s Hs Hrun;
    simpl in Hrun.
  - by simplify_eq.
  - destruct (step client flags c s) as [s1|] eqn:Hstep; [|done].
    eapply IH; [|done]. right. by eapply aborted_step.
Qed.

End Fatal.

(** C8: when no pod is named and the pod listing fails, [retrieveLogs]
    returns the error [failed to list pods: ...] and has done nothing
    else: in every state of every run no goroutine is started (so nothing
    is fetched), neither the closer nor the consumer is started, both
    channels are empty, nothing is printed and the store is the one it
    found.  And this is the only failure of [retrieveLogs]: whenever, for
    any cluster, flags, store and schedule, it returns an error, the pod
    listing failed and it has done nothing else. *)
Theorem pod_listing_failure_is_fatal
  (client : Clientset) (flags : Flags) (store : LogStorage) (e : error) :
pod flags = EmptyString ->
ListPods client (namespace flags) = Err e ->
retrieveLogs client flags store [RunMain]
= Some (Some ("failed to list pods: " +:+ e), aborted store e)
/\ (forall schedule s,
      run client flags schedule (enter store) = Some s ->
      s = enter store \/ s = aborted store e)
/\ (goroutines (aborted store e) = []
    /\ closer (aborted store e) = None
    /\ consumer (aborted store e) = None
    /\ buf (logChan (sh (aborted store e))) = []
    /\ buf (errorChan (sh (aborted store e))) = []
    /\ printed (aborted store e) = []
    /\ logStore (aborted store e) = store)
/\ (forall client' flags' store' schedule err s,
      retrieveLogs client' flags' store' schedule = Some (Some err, s) ->
      pod flags' = EmptyString
      /\ exists e',
           ListPods client' (namespace flags') = Err e'
           /\ err = "failed to list pods: " +:+ e'
           /\ s = aborted store' e').
Proof.
intros Hpod Hlist. split.
{ unfold retrieveLogs, run, step, exec_main. simpl.
  by rewrite decide_True, Hlist by done. }
split.
{ intros schedule s Hrun. eapply aborted_run; [done..|by left|done]. }
split; [done|].
intros client' flags' store' schedule err s Hret.
unfold retrieveLogs in Hret.
destruct (run client' flags' schedule (enter store')) as [s'|] eqn:Hrun;
  [|done].
destruct (main s') as [| | | |err'] eqn:Hm; try done. simplify_eq.
assert (Hinv : invariant client' flags' store' s)
  by (eapply run_invariant; [apply enter_invariant|done]).
destruct (returned_error _ _ _ _ _ Hinv Hm) as (Hs & Hp & e' & He' & ->).
split; [done|]. by exists e'.
Qed.

(** A cluster that cannot be reached. *)
Lemma pod_listing_failure_is_fatal_witness :
retrieveLogs unreachable_client demo_flags NewLogStorage [RunMain]
= Some (Some "failed to list pods: connection refused",
        aborted NewLogStorage "connection refused").
Proof.
exact (proj1 (pod_listing_failure_is_fatal unreachable_client demo_flags
                NewLogStorage "connection refused" eq_refl eq_refl)).
Defined.

(** C2, on the code: one pod with two containers, the fetch of [sidecar]
    fails and the log of [app] has one line.  Under a schedule in which
    the consumer's [select] takes the log case while the error waits in
    [errorChan], [retrieveLogs] returns [nil] with the one entry in the
    store, but the consumer returned at the closed [logChan] without
    receiving the error: nothing was printed, the error is still in the
    buffer of [errorChan]. *)
Theorem lost_error_run :
  logsOf lossy_client demo_flags "web-0" "sidecar"
  = Err "failed to retrieve logs for pod web-0, container sidecar: error opening log stream: container is starting"
  /\ fetches_succeed lossy_client demo_flags "web-0" ["app"] 1
  /\ exists s,
       retrieveLogs lossy_client demo_flags NewLogStorage lossy_schedule
       = Some (None, s)
       /\ length (GetLogs (logStore s)) = 1%nat
       /\ printed s = []
       /\ buf (errorChan (sh s))
          = ["failed to retrieve logs for pod web-0, container sidecar: error opening log stream: container is starting"].
Proof.
  split; [reflexivity|]. split.
  - intros c ->%list_elem_of_singleton. eexists. split; reflexivity.
  - eexists. split; [vm_compute; reflexivity|]. by vm_compute.
Qed.

End RetrieveFacts.

(* ===================================================================== *)
(** ** From the cluster to the report *)

Module PipelineFacts.
Import Go K8s Storage Cmd RetrieveSpec.

(** The end-to-end scenario: the log of [c1] is [INFO start] and
    [ERROR timeout reaching db], the log of [c2] is [WARN disk nearly full].
    The store gets three entries; one error, one warning; critical-events
    is the error line of [c1], the error pattern winning over [timeout];
    performance-issues is empty. *)
Example end_to_end_scenario :
  exists s,
    retrieveLogs scenario_client scenario_flags NewLogStorage scenario_schedule
    = Some (None, s)
    /\ length (GetLogs (logStore s)) = 3%nat
    /\ Analysis.errorCount (Analysis.NewLogAnalyzer (GetLogs (logStore s))) = 1
    /\ Analysis.warningCount (Analysis.NewLogAnalyzer (GetLogs (logStore s))) = 1
    /\ Analysis.criticalEvents (Analysis.NewLogAnalyzer (GetLogs (logStore s)))
       = [{| Namespace := "n"; PodName := "p"; Container := "c1";
             LogContent := "ERROR timeout reaching db";
             Timestamp := "2024-11-27T10:00:00Z" |}]
    /\ Analysis.performanceIssues
         (Analysis.NewLogAnalyzer (GetLogs (logStore s))) = [].
Proof. eexists. split; [vm_compute; reflexivity|]. by vm_compute. Qed.

End PipelineFacts.

(* ===================================================================== *)
(** ** The lines of a log *)

Module K8sFacts.
Import Go K8s RetrieveSpec TextSpec.

(** [strings.Split] gives at least one piece. *)
Lemma Split_nl_nonempty (s : string) : Split_nl s <> [].
Proof.
  induction s as [|b s IH]; [done|]. simpl.
  destruct (Ascii.eqb b "010"); [done|]. by destruct (Split_nl s).
Qed.

(** A byte that is not a line feed goes to the front of the first piece. *)
Lemma Split_nl_cons (b : ascii) (s : string) :
  Ascii.eqb b "010" = false ->
  exists piece rest,
    Split_nl s = piece :: rest /\ Split_nl (String b s) = String b piece :: rest.
Proof.
  intros Hb. simpl. rewrite Hb.
  destruct (Split_nl s) as [|piece rest] eqn:Hs; [by apply Split_nl_nonempty in Hs|].
  by exists piece, rest.
Qed.

(** Splitting a text at a line feed splits its pieces. *)
Lemma Split_nl_app (a b : string) :
  Split_nl (a +:+ String "010" b) = Split_nl a ++ Split_nl b.
Proof.
  induction a as [|c a IH]; [done|].
  change (String c a +:+ String "010" b) with (String c (a +:+ String "010" b)).
  destruct (Ascii.eqb c "010") eqn:Hc.
  - simpl. rewrite Hc. by rewrite IH.
  - destruct (Split_nl_cons c a Hc) as (piece & rest & Ha & ->).
    destruct (Split_nl_cons c (a +:+ String "010" b) Hc)
      as (piece' & rest' & Hab & ->).
    rewrite IH, Ha in Hab. by simplify_eq/=.
Qed.

Lemma Split_nl_line (s : string) :
  has_newline s = false -> Split_nl s = [s].
Proof.
  induction s as [|b s IH]; [done|]. simpl. unfold is_newline.
  destruct (Ascii.eqb b "010"); [done|]. simpl. by intros ->%IH.
Qed.

(** No piece holds a line feed. *)
Lemma Split_nl_pieces (s : string) :
  Forall (fun piece => has_newline piece = false) (Split_nl s).
Proof.
  induction s as [|b s IH]; [by repeat constructor|]. simpl.
  destruct (Ascii.eqb b "010") eqn:Hb; [by constructor|].
  destruct (Split_nl s) as [|piece rest]; [repeat constructor; simpl|].
  - unfold is_newline. by rewrite Hb.
  - inversion_clear IH. constructor; [|done]. simpl. unfold is_newline.
    by rewrite Hb.
Qed.

(** One piece more than there are line feeds. *)
Lemma Split_nl_length (s : string) :
  length (Split_nl s) = S (newlines s).
Proof.
  induction s as [|b s IH]; [done|]. simpl. unfold is_newline.
  destruct (Ascii.eqb b "010"); simpl; [by rewrite IH|].
  destruct (Split_nl s); simpl in *; lia.
Qed.

Lemma logLines_app (a b : string) :
  logLines (a +:+ String "010" b) = logLines a ++ logLines b.
Proof. unfold logLines. by rewrite Split_nl_app, filter_app. Qed.

Lemma logLines_line (s : string) : is_line s -> logLines s = [s].
Proof.
  intros [Hne Hnl]. unfold logLines. rewrite (Split_nl_line _ Hnl).
  rewrite filter_cons, decide_True by done. done.
Qed.

Lemma fmap_LogContent_imap (f : nat -> string -> LogEntry) (l : list string) :
  (forall i line, LogContent (f i line) = line) ->
  LogContent <$> imap f l = l.
Proof.
  revert f. induction l as [|x l IH]; intros f Hf; [done|].
  simpl. rewrite Hf. f_equal. apply IH. intros i line. apply Hf.
Qed.

Lemma logLines_Join (lines : list string) :
  Forall is_line lines ->
  logLines (Join lines (String "010" EmptyString)) = lines.
Proof.
  unfold Join. induction 1 as [|x l Hx Hl IH]; [done|].
  destruct l as [|y l].
  - by apply logLines_line.
  - change (String.concat (String "010" EmptyString) (x :: y :: l))
      with (x +:+ String "010" (String.concat (String "010" EmptyString) (y :: l))).
    by rewrite logLines_app, IH, logLines_line.
Qed.

(** X1: whenever [RetrievePodLogs] returns entries, the stream of the
    container was read to its end, the contents of the entries are the
    non-empty lines of the log in the order of the log, every entry
    carries the namespace, the pod and the container of the call, no
    content is empty or holds a line feed, and there is at most one entry
    more than the log has line feeds. *)
Theorem RetrievePodLogs_entries (client : Clientset) (ns p c : string)
    (logs : list LogEntry) :
  RetrievePodLogs client ns p c = Ok logs ->
  exists logBytes,
    pods_GetLogs client ns p c = StreamBytes logBytes
    /\ LogContent <$> logs = logLines logBytes
    /\ Forall (from_container ns p c) logs
    /\ (length logs <= newlines logBytes + 1)%nat.
Proof.
  unfold RetrievePodLogs. intros H.
  destruct (pods_GetLogs client ns p c) as [e|e|b]; try done.
  injection H as <-. exists b. split; [done|]. split; [|split].
  - by apply fmap_LogContent_imap.
  - apply Forall_forall. intros log Hin.
    apply elem_of_lookup_imap_1 in Hin as (i & line & -> & Hi).
    apply list_elem_of_lookup_2 in Hi. unfold logLines in Hi.
    apply list_elem_of_filter in Hi as [Hne Hin].
    repeat split; try done. simpl.
    pose proof (Split_nl_pieces b) as Hp.
    by apply (proj1 (Forall_forall _ _) Hp).
  - rewrite length_imap. unfold logLines.
    pose proof (length_filter (fun line => line <> EmptyString) (Split_nl b)).
    rewrite Split_nl_length in *. lia.
Qed.

Lemma RetrievePodLogs_entries_witness :
  exists logs,
    RetrievePodLogs scenario_client "n" "p" "c1" = Ok logs
    /\ LogContent <$> logs = ["INFO start"; "ERROR timeout reaching db"]
    /\ Forall (from_container "n" "p" "c1") logs.
Proof.
  eexists. split; [reflexivity|].
  destruct (RetrievePodLogs_entries scenario_client "n" "p" "c1" _ eq_refl)
    as (logBytes & Hb & Hc & Hf & _).
  split; [reflexivity|exact Hf].
Defined.

(** X2: a line feed separates the lines on its two sides, so the lines of
    a log are those of what precedes a line feed followed by those of what
    follows it; hence a line feed at the end of a log adds no entry, nor
    does a blank line, and the empty log has no line. *)
Theorem logLines_newline (a b : string) :
  logLines (a +:+ String "010" b) = logLines a ++ logLines b
  /\ logLines (a +:+ String "010" EmptyString) = logLines a
  /\ logLines (a +:+ String "010" (String "010" b))
     = logLines (a +:+ String "010" b)
  /\ logLines EmptyString = [].
Proof.
  split; [apply logLines_app|]. split; [|split; [|done]].
  - rewrite logLines_app. apply app_nil_r.
  - pose proof (logLines_app EmptyString b) as H0.
    change (EmptyString +:+ String "010" b) with (String "010" b) in H0.
    by rewrite (logLines_app a (String "010" b)), H0, (logLines_app a b).
Qed.

(** X3: a log made of lines that are not empty and hold no line feed,
    separated by line feeds, with or without a line feed after the last
    one, is read back as exactly these lines, in their order. *)
Theorem RetrievePodLogs_round_trip (client : Clientset) (ns p c : string)
    (lines : list string) :
  Forall is_line lines ->
  pods_GetLogs client ns p c
    = StreamBytes (Join lines (String "010" EmptyString))
  \/ pods_GetLogs client ns p c
     = StreamBytes (Join lines (String "010" EmptyString)
                      +:+ String "010" EmptyString) ->
  exists logs,
    RetrievePodLogs client ns p c = Ok logs /\ LogContent <$> logs = lines.
Proof.
  intros Hlines Hb. unfold RetrievePodLogs.
  destruct Hb as [-> | ->]; eexists; (split; [done|]);
    rewrite fmap_LogContent_imap by done.
  - by apply logLines_Join.
  - rewrite logLines_app, logLines_Join by done. apply app_nil_r.
Qed.

Lemma RetrievePodLogs_round_trip_witness :
  exists logs,
    RetrievePodLogs scenario_client "n" "p" "c1" = Ok logs
    /\ LogContent <$> logs = ["INFO start"; "ERROR timeout reaching db"].
Proof.
  apply (RetrievePodLogs_round_trip scenario_client "n" "p" "c1"
           ["INFO start"; "ERROR timeout reaching db"]).
  - repeat constructor; discriminate.
  - right. reflexivity.
Defined.

End K8sFacts.

(* ===================================================================== *)
(** ** The patterns: context and case *)

Module MatchFacts.
Import Go K8s Regexp RegexpFacts Analysis Spec TextSpec.

Ltac each_byte b := destruct b as [[] [] [] [] [] [] [] []].

(** [fold_rune] with its tests written as comparisons of bytes. *)
Lemma fold_rune_eq (c : ascii) (s : string) :
  fold_rune c s
  = match s with
    | EmptyString => None
    | String b s' =>
        if Ascii.eqb (to_lower b) (to_lower c) then Some s'
        else if Ascii.eqb (to_lower c) "s" then
          if Ascii.eqb b "197" then
            match s' with
            | EmptyString => None
            | String b' s'' => if Ascii.eqb b' "191" then Some s'' else None
            end
          else None
        else None
    end.
Proof.
  destruct s as [|b s]; [done|]. unfold fold_rune.
  destruct (Ascii.eqb (to_lower b) (to_lower c)); [done|].
  destruct (Ascii.eqb (to_lower c) "s"); [|done].
  each_byte b; try reflexivity.
  destruct s as [|b' s]; [done|]. each_byte b'; reflexivity.
Qed.

(** *** A match survives text added after and before it *)

Lemma fold_rune_append (c : ascii) (s t post : string) :
  fold_rune c s = Some t -> fold_rune c (s +:+ post) = Some (t +:+ post).
Proof.
  destruct s as [|b s]; [done|].
  change (String b s +:+ post) with (String b (s +:+ post)).
  rewrite !fold_rune_eq.
  destruct (Ascii.eqb (to_lower b) (to_lower c)); [by intros [= ->]|].
  destruct (Ascii.eqb (to_lower c) "s"); [|done].
  destruct (Ascii.eqb b "197"); [|done].
  destruct s as [|b' s]; [done|].
  change (String b' s +:+ post) with (String b' (s +:+ post)). cbv beta iota.
  destruct (Ascii.eqb b' "191"); [by intros [= ->]|done].
Qed.

Lemma lit_prefix_append (w s t post : string) :
  lit_prefix w s = Some t -> lit_prefix w (s +:+ post) = Some (t +:+ post).
Proof.
  revert s. induction w as [|c w IH]; intros s; simpl; [by intros [= ->]|].
  destruct (fold_rune c s) as [s'|] eqn:Hc; [|done].
  rewrite (fold_rune_append _ _ _ post Hc). apply IH.
Qed.

Lemma dot_star_append (s t post : string) :
  t ∈ dot_star s -> t +:+ post ∈ dot_star (s +:+ post).
Proof.
  induction s as [|b s IH].
  - simpl. intros ->%list_elem_of_singleton. destruct post; apply list_elem_of_here.
  - change (String b s +:+ post) with (String b (s +:+ post)).
    cbn [dot_star]. intros [->|Ht]%elem_of_cons; [apply list_elem_of_here|].
    apply list_elem_of_further.
    destruct (Ascii.eqb b "010"); [by apply elem_of_nil in Ht|by apply IH].
Qed.

Lemma matchAt_append (r : regex) (s t post : string) :
  t ∈ matchAt r s -> t +:+ post ∈ matchAt r (s +:+ post).
Proof.
  revert s t. induction r as [w| |r1 IH1 r2 IH2|r1 IH1 r2 IH2]; intros s t; simpl.
  - destruct (lit_prefix w s) as [t'|] eqn:Hw; [|by intros ?%elem_of_nil].
    intros ->%list_elem_of_singleton.
    rewrite (lit_prefix_append _ _ _ post Hw). apply list_elem_of_here.
  - apply dot_star_append.
  - intros (s' & Ht & Hs')%list_elem_of_bind. apply list_elem_of_bind.
    exists (s' +:+ post). split; [by apply IH2|by apply IH1].
  - intros [H|H]%elem_of_app; apply elem_of_app; [left; by apply IH1|right; by apply IH2].
Qed.

Lemma matchAt_append_nonempty (r : regex) (s post : string) :
  matchAt r s <> [] -> matchAt r (s +:+ post) <> [].
Proof.
  destruct (matchAt r s) as [|t l] eqn:H; [done|]. intros _ Hnil.
  assert (Ht : t ∈ matchAt r s) by (rewrite H; apply list_elem_of_here).
  apply (matchAt_append _ _ _ post) in Ht. rewrite Hnil in Ht.
  by apply elem_of_nil in Ht.
Qed.

Lemma MatchString_unfold (r : regex) (b : ascii) (s : string) :
  MatchString r (String b s) = true ->
  matchAt r (String b s) <> [] \/ MatchString r s = true.
Proof.
  unfold MatchString. simpl. intros [H|H]%orb_true_iff; [left|by right].
  by destruct (matchAt r (String b s)).
Qed.

Lemma MatchString_append (r : regex) (s post : string) :
  MatchString r s = true -> MatchString r (s +:+ post) = true.
Proof.
  induction s as [|b s IH]; intros H.
  - apply MatchString_here. apply (matchAt_append_nonempty r EmptyString post).
    unfold MatchString in H. simpl in H. by destruct (matchAt r EmptyString).
  - change (String b s +:+ post) with (String b (s +:+ post)).
    apply MatchString_unfold in H as [H|H].
    + apply MatchString_here.
      by apply (matchAt_append_nonempty r (String b s) post).
    + apply MatchString_cons. by apply IH.
Qed.

Lemma MatchString_prepend (r : regex) (pre s : string) :
  MatchString r s = true -> MatchString r (pre +:+ s) = true.
Proof.
  intros H. induction pre as [|b pre IH]; [done|].
  change (String b pre +:+ s) with (String b (pre +:+ s)).
  by apply MatchString_cons.
Qed.

Lemma MatchString_context (r : regex) (pre s post : string) :
  MatchString r s = true -> MatchString r (pre +:+ s +:+ post) = true.
Proof. intros H. by apply MatchString_prepend, MatchString_append. Qed.

(** X4: the four patterns are not anchored, so a pattern that matches a
    content matches every text that contains this content; hence putting
    text before and after a content never moves it to a category that
    [analyzeLine] tries later: what is classified as an error stays one,
    a warning becomes at most an error, and so on down to the contents
    that match nothing. *)
Theorem first_match_context (pre s post : string) :
  (rank (first_match (pre +:+ s +:+ post)) <= rank (first_match s))%nat.
Proof.
  unfold first_match.
  destruct (MatchString errorRegex s) eqn:He;
    [by rewrite (MatchString_context _ pre s post He)|].
  destruct (MatchString warningRegex s) eqn:Hw;
    [rewrite (MatchString_context _ pre s post Hw)|];
    destruct (MatchString performanceRegex s) eqn:Hp;
    try rewrite (MatchString_context _ pre s post Hp);
    destruct (MatchString restartRegex s) eqn:Hr;
    try rewrite (MatchString_context _ pre s post Hr);
    repeat match goal with
           | |- context [MatchString ?r (pre +:+ s +:+ post)] =>
               destruct (MatchString r (pre +:+ s +:+ post))
           end;
    simpl; lia.
Qed.

(** *** Case *)

Lemma to_lower_idem (b : ascii) : to_lower (to_lower b) = to_lower b.
Proof. each_byte b; reflexivity. Qed.

Lemma to_lower_eqb_high (b : ascii) :
  Ascii.eqb (to_lower b) "197" = Ascii.eqb b "197"
  /\ Ascii.eqb (to_lower b) "191" = Ascii.eqb b "191"
  /\ Ascii.eqb (to_lower b) "010" = Ascii.eqb b "010".
Proof. each_byte b; done. Qed.

Lemma fold_rune_lower (c : ascii) (s : string) :
  fold_rune c (lower s) = lower <$> fold_rune c s.
Proof.
  destruct s as [|b s]; [done|]. cbn [lower].
  rewrite !fold_rune_eq, to_lower_idem.
  destruct (Ascii.eqb (to_lower b) (to_lower c)); [done|].
  destruct (Ascii.eqb (to_lower c) "s"); [|done].
  destruct (to_lower_eqb_high b) as (-> & _ & _).
  destruct (Ascii.eqb b "197"); [|done].
  destruct s as [|b' s]; [done|]. cbn [lower].
  destruct (to_lower_eqb_high b') as (_ & -> & _).
  by destruct (Ascii.eqb b' "191").
Qed.

Lemma lit_prefix_lower (w s : string) :
  lit_prefix w (lower s) = lower <$> lit_prefix w s.
Proof.
  revert s. induction w as [|c w IH]; intros s; [done|]. simpl.
  rewrite fold_rune_lower. destruct (fold_rune c s) as [s'|]; [|done].
  simpl. apply IH.
Qed.

Lemma dot_star_lower (s : string) :
  dot_star (lower s) = lower <$> dot_star s.
Proof.
  induction s as [|b s IH]; [done|]. cbn [lower dot_star].
  destruct (to_lower_eqb_high b) as (_ & _ & ->).
  rewrite fmap_cons. f_equal. destruct (Ascii.eqb b "010"); [done|apply IH].
Qed.

Lemma matchAt_lower (r : regex) (s : string) :
  matchAt r (lower s) = lower <$> matchAt r s.
Proof.
  revert s. induction r as [w| |r1 IH1 r2 IH2|r1 IH1 r2 IH2]; intros s; simpl.
  - rewrite lit_prefix_lower. by destruct (lit_prefix w s).
  - apply dot_star_lower.
  - rewrite IH1. generalize (matchAt r1 s). intros l.
    induction l as [|t l IH]; [done|].
    rewrite fmap_cons, !bind_cons, fmap_app, IH2. by f_equal.
  - by rewrite fmap_app, IH1, IH2.
Qed.

Lemma MatchString_lower (r : regex) (s : string) :
  MatchString r (lower s) = MatchString r s.
Proof.
  unfold MatchString. induction s as [|b s IH].
  - simpl. change EmptyString with (lower EmptyString) at 1.
    rewrite matchAt_lower. by destruct (matchAt r EmptyString).
  - cbn [lower suffixes existsb]. rewrite IH. f_equal.
    change (String (to_lower b) (lower s)) with (lower (String b s)).
    rewrite matchAt_lower. by destruct (matchAt r (String b s)).
Qed.

(** X5: the classification does not see the case of ASCII letters: two
    contents that are equal once their ASCII upper-case letters are put
    in lower case match the same patterns, so [analyzeLine] takes the
    same path for both. *)
Theorem first_match_ignores_case (s t : string) :
  lower s = lower t ->
  first_match s = first_match t
  /\ MatchString errorRegex s = MatchString errorRegex t
  /\ MatchString warningRegex s = MatchString warningRegex t
  /\ MatchString performanceRegex s = MatchString performanceRegex t
  /\ MatchString restartRegex s = MatchString restartRegex t.
Proof.
  intros H.
  assert (Hr : forall r, MatchString r s = MatchString r t).
  { intros r. by rewrite <- (MatchString_lower r s), H, MatchString_lower. }
  unfold first_match. by rewrite !Hr.
Qed.

Lemma first_match_ignores_case_witness :
  first_match "Error: TIMEOUT reaching db"
  = first_match "ERROR: timeout reaching DB".
Proof.
  exact (proj1 (first_match_ignores_case "Error: TIMEOUT reaching db"
                  "ERROR: timeout reaching DB" eq_refl)).
Defined.

End MatchFacts.

(* ===================================================================== *)
(** ** The numbers of a classification *)

Module TallyFacts.
Import Go K8s Regexp Analysis Spec AnalysisFacts TextSpec.

(** The paths of the classification exclude each other. *)
Lemma filter_paths (batch : list LogEntry) :
  (length (filter counted_error batch) <= length (filter is_critical batch)
   /\ length (filter is_critical batch) + length (filter counted_warning batch)
      + length (filter is_performance batch) <= length batch)%nat.
Proof.
  induction batch as [|log batch [IH1 IH2]]; [simpl; lia|].
  rewrite !filter_cons.
  unfold is_critical, counted_error, counted_warning, is_performance in *.
  destruct (first_match (LogContent log));
    repeat case_decide; try (exfalso; intuition congruence); simpl; lia.
Qed.

(** X6: the numbers of a classification fit together.  For a batch no
    longer than the largest [int], the analyser keeps the batch as it
    is, the error count is the number of entries on the error path and
    the warning count the number of entries on the warning path; the
    error count is at most the number of critical events (the others
    being restart copies), and the critical events, the warnings and the
    performance issues together are at most the entries of the batch,
    since an entry takes one path only. *)
Theorem NewLogAnalyzer_tallies (batch : list LogEntry) :
  len batch <= int_max ->
  logs (NewLogAnalyzer batch) = batch
  /\ errorCount (NewLogAnalyzer batch) = len (filter counted_error batch)
  /\ warningCount (NewLogAnalyzer batch) = len (filter counted_warning batch)
  /\ 0 <= errorCount (NewLogAnalyzer batch)
       <= len (criticalEvents (NewLogAnalyzer batch))
  /\ len (criticalEvents (NewLogAnalyzer batch))
     + warningCount (NewLogAnalyzer batch)
     + len (performanceIssues (NewLogAnalyzer batch)) <= len batch.
Proof.
  intros Hmax.
  destruct (NewLogAnalyzer_counts batch Hmax) as [He Hw].
  destruct (fold_analyzeLine batch (fresh batch)) as (Hl & Hc & Hp).
  destruct (filter_paths batch) as [H1 H2].
  unfold NewLogAnalyzer, processLogs in *. cbn [logs] in *.
  fold (fresh batch) in *. rewrite He, Hw, Hl, Hc, Hp. simpl.
  unfold len. rewrite length_fmap. repeat split; try done; lia.
Qed.

Lemma NewLogAnalyzer_tallies_witness :
  errorCount (NewLogAnalyzer mixed_batch) = 1
  /\ warningCount (NewLogAnalyzer mixed_batch) = 1
  /\ len (criticalEvents (NewLogAnalyzer mixed_batch)) = 2
  /\ len (performanceIssues (NewLogAnalyzer mixed_batch)) = 1.
Proof.
  assert (Hmax : len mixed_batch <= int_max) by (by vm_compute).
  destruct (NewLogAnalyzer_tallies mixed_batch Hmax)
    as (_ & He & Hw & _ & _).
  split; [by rewrite He|]. split; [by rewrite Hw|]. split; reflexivity.
Defined.

(** The counts and the outputs of two batches with the same entries. *)
Lemma NewLogAnalyzer_reorder (batch1 batch2 : list LogEntry) :
  batch1 ≡ₚ batch2 ->
  len batch1 <= int_max ->
  errorCount (NewLogAnalyzer batch1) = errorCount (NewLogAnalyzer batch2)
  /\ warningCount (NewLogAnalyzer batch1) = warningCount (NewLogAnalyzer batch2)
  /\ criticalEvents (NewLogAnalyzer batch1)
       ≡ₚ criticalEvents (NewLogAnalyzer batch2)
  /\ performanceIssues (NewLogAnalyzer batch1)
       ≡ₚ performanceIssues (NewLogAnalyzer batch2).
Proof.
  intros Hperm Hmax.
  assert (Hmax2 : len batch2 <= int_max).
  { unfold len in *. by rewrite <- Hperm. }
  destruct (NewLogAnalyzer_counts batch1 Hmax) as [He1 Hw1].
  destruct (NewLogAnalyzer_counts batch2 Hmax2) as [He2 Hw2].
  destruct (fold_analyzeLine batch1 (fresh batch1)) as (_ & Hc1 & Hp1).
  destruct (fold_analyzeLine batch2 (fresh batch2)) as (_ & Hc2 & Hp2).
  unfold NewLogAnalyzer, processLogs in *. cbn [logs] in *.
  fold (fresh batch1) (fresh batch2) in *.
  rewrite He1, He2, Hw1, Hw2, Hc1, Hc2, Hp1, Hp2. simpl. unfold len.
  by rewrite Hperm.
Qed.

(** X7: the order of a batch matters to the order of the outputs only.
    Two batches with the same entries in different orders, no longer
    than the largest [int], get the same error count and the same
    warning count, and their critical events and their performance
    issues are the same entries up to order, hence as many. *)
Theorem NewLogAnalyzer_Permutation (batch1 batch2 : list LogEntry) :
  batch1 ≡ₚ batch2 ->
  len batch1 <= int_max ->
  errorCount (NewLogAnalyzer batch1) = errorCount (NewLogAnalyzer batch2)
  /\ warningCount (NewLogAnalyzer batch1) = warningCount (NewLogAnalyzer batch2)
  /\ criticalEvents (NewLogAnalyzer batch1)
       ≡ₚ criticalEvents (NewLogAnalyzer batch2)
  /\ performanceIssues (NewLogAnalyzer batch1)
       ≡ₚ performanceIssues (NewLogAnalyzer batch2)
  /\ len (criticalEvents (NewLogAnalyzer batch1))
     = len (criticalEvents (NewLogAnalyzer batch2))
  /\ len (performanceIssues (NewLogAnalyzer batch1))
     = len (performanceIssues (NewLogAnalyzer batch2)).
Proof.
  intros Hperm Hmax.
  destruct (NewLogAnalyzer_reorder _ _ Hperm Hmax) as (He & Hw & Hc & Hp).
  split; [done|]. split; [done|]. split; [done|]. split; [done|].
  unfold len. by rewrite Hc, Hp.
Qed.

Lemma NewLogAnalyzer_Permutation_witness :
  errorCount (NewLogAnalyzer (reverse mixed_batch))
  = errorCount (NewLogAnalyzer mixed_batch)
  /\ criticalEvents (NewLogAnalyzer (reverse mixed_batch))
     ≡ₚ criticalEvents (NewLogAnalyzer mixed_batch).
Proof.
  assert (Hmax : len (reverse mixed_batch) <= int_max) by (by vm_compute).
  destruct (NewLogAnalyzer_Permutation (reverse mixed_batch) mixed_batch
              (reverse_Permutation mixed_batch) Hmax) as (He & _ & Hc & _).
  split; [exact He|exact Hc].
Defined.

(** X8: classifying two batches one after the other as a single batch (of
    at most the largest [int] entries) gives the critical events of the
    first followed by those of the second, likewise for the performance
    issues, and counts that are the sums of the counts: an entry is
    classified on its own, whatever precedes it. *)
Theorem NewLogAnalyzer_app (batch1 batch2 : list LogEntry) :
  len (batch1 ++ batch2) <= int_max ->
  errorCount (NewLogAnalyzer (batch1 ++ batch2))
  = errorCount (NewLogAnalyzer batch1) + errorCount (NewLogAnalyzer batch2)
  /\ warningCount (NewLogAnalyzer (batch1 ++ batch2))
     = warningCount (NewLogAnalyzer batch1)
       + warningCount (NewLogAnalyzer batch2)
  /\ criticalEvents (NewLogAnalyzer (batch1 ++ batch2))
     = criticalEvents (NewLogAnalyzer batch1)
       ++ criticalEvents (NewLogAnalyzer batch2)
  /\ performanceIssues (NewLogAnalyzer (batch1 ++ batch2))
     = performanceIssues (NewLogAnalyzer batch1)
       ++ performanceIssues (NewLogAnalyzer batch2).
Proof.
  intros Hmax. unfold len in Hmax. rewrite length_app in Hmax.
  destruct (NewLogAnalyzer_counts (batch1 ++ batch2)) as [He Hw].
  { unfold len. rewrite length_app. lia. }
  destruct (NewLogAnalyzer_counts batch1) as [He1 Hw1]; [unfold len; lia|].
  destruct (NewLogAnalyzer_counts batch2) as [He2 Hw2]; [unfold len; lia|].
  destruct (fold_analyzeLine (batch1 ++ batch2) (fresh (batch1 ++ batch2)))
    as (_ & Hc & Hp).
  destruct (fold_analyzeLine batch1 (fresh batch1)) as (_ & Hc1 & Hp1).
  destruct (fold_analyzeLine batch2 (fresh batch2)) as (_ & Hc2 & Hp2).
  unfold NewLogAnalyzer, processLogs in *. cbn [logs] in *.
  fold (fresh batch1) (fresh batch2) (fresh (batch1 ++ batch2)) in *.
  rewrite He, He1, He2, Hw, Hw1, Hw2, Hc, Hc1, Hc2, Hp, Hp1, Hp2. simpl.
  unfold len. rewrite !filter_app, !length_app, fmap_app.
  repeat split; try done; lia.
Qed.

Lemma NewLogAnalyzer_app_witness :
  errorCount (NewLogAnalyzer (mixed_batch ++ mixed_batch)) = 2
  /\ len (criticalEvents (NewLogAnalyzer (mixed_batch ++ mixed_batch))) = 4.
Proof.
  assert (Hmax : len (mixed_batch ++ mixed_batch) <= int_max)
    by (by vm_compute).
  destruct (NewLogAnalyzer_app mixed_batch mixed_batch Hmax)
    as (He & _ & Hc & _).
  split; [by rewrite He|by rewrite Hc].
Defined.

End TallyFacts.

(* ===================================================================== *)
(** ** Every run of [retrieveLogs] *)

Module RunFacts.
Import Go K8s Storage Cmd Root RetrieveSpec RetrieveFacts RunSpec.

(** What the validation lets through. *)
Lemma validateInputCombinations_None (namespace pod container : string) :
  validateInputCombinations namespace pod container = None ->
  namespace <> EmptyString /\ (container <> EmptyString -> pod <> EmptyString).
Proof.
  unfold validateInputCombinations.
  repeat case_decide; intros; try done.
  destruct (decide (namespace = EmptyString)),
    (decide (pod = EmptyString)), (decide (container = EmptyString));
    intuition congruence.
Qed.

(** A subsequence with the same elements is the sequence. *)
Lemma sublist_Permutation_eq {A} (l1 l2 : list A) :
  l1 `sublist_of` l2 -> l1 ≡ₚ l2 -> l1 = l2.
Proof.
  induction 1 as [|x l1 l2 Hs IH|x l1 l2 Hs IH]; intros Hp.
  - by apply Permutation_nil_l in Hp.
  - f_equal. apply IH. by apply (inj (cons x)).
  - apply sublist_length in Hs. apply Permutation_length in Hp.
    simpl in Hp. lia.
Qed.

Section Runs.
Variable client : Clientset.
Variable flags : Flags.
Variable store0 : LogStorage.

Abbreviation inv := (invariant client flags store0).

(** A property kept by every step is kept by every run. *)
Lemma run_preserves (Q : state -> Prop) :
  (forall c s s', inv s -> Q s -> step client flags c s = Some s' -> Q s') ->
  forall schedule s s',
    inv s -> Q s -> run client flags schedule s = Some s' -> Q s'.
Proof.
  intros HQ schedule. induction schedule as [|c schedule IH];
    intros s s' Hinv Hq Hrun; simpl in Hrun.
  - by simplify_eq.
  - destruct (step client flags c s) as [s1|] eqn:Hstep; [|done].
    eapply IH; [| |done].
    + by eapply step_invariant.
    + by eapply HQ.
Qed.

(** What a step does to the store, to the counter and to [logChan]: the
    consumer moves the oldest entry of the channel to the end of the
    store and counts it, a container goroutine sends one entry, and
    every other step leaves the three alone. *)
Lemma step_entries c s s' :
  step client flags c s = Some s' ->
  (logStore s' = logStore s /\ totalLogs s' = totalLogs s
   /\ (buf (logChan (sh s')) = buf (logChan (sh s))
       \/ exists log, buf (logChan (sh s')) = buf (logChan (sh s)) ++ [log]))
  \/ (exists log,
        buf (logChan (sh s)) = log :: buf (logChan (sh s'))
        /\ logStore s' = AddLog (logStore s) log
        /\ totalLogs s' = incr (totalLogs s)).
Proof.
  unfold step. destruct (panicked (sh s)); [done|].
  destruct c as [|i| |k].
  - unfold exec_main. intros H. left.
    repeat case_match; simplify_eq; simpl; auto.
  - intros H. left.
    destruct (goroutines s !! i) as [g|]; [|done].
    destruct (exec_goroutine client flags g (sh s)) as [[[g' st] x']|] eqn:Hg;
      [|done].
    simplify_eq. simpl. split; [done|]. split; [done|].
    destruct g; simpl in Hg; unfold send, wg_Done in Hg;
      repeat case_match; simplify_eq; simpl; eauto.
  - unfold exec_closer, close. intros H. left.
    repeat case_match; simplify_eq; simpl; auto.
  - unfold exec_consumer, recv. intros H.
    destruct (consumer s) as [[]|]; try done.
    destruct k.
    + destruct (buf (logChan (sh s))) as [|log l] eqn:Hb.
      * left. repeat case_match; simplify_eq; simpl; rewrite ?Hb; auto.
      * right. simplify_eq. exists log. by simpl.
    + left. repeat case_match; simplify_eq; simpl; auto.
Qed.

(** What a step does to the list of goroutines. *)
Lemma step_goroutines c s s' :
  step client flags c s = Some s' ->
  match c with
  | RunGoroutine i =>
      exists g g' started x',
        goroutines s !! i = Some g
        /\ exec_goroutine client flags g (sh s) = Some (g', started, x')
        /\ s' = set_goroutines (<[i := g']> (goroutines s) ++ started)
                   (set_sh x' s)
  | _ =>
      goroutines s' = goroutines s
      \/ exists p, goroutines s' = goroutines s ++ [PodStart p]
  end.
Proof.
  unfold step. destruct (panicked (sh s)); [done|].
  destruct c as [|i| |k].
  - unfold exec_main. intros H.
    repeat case_match; simplify_eq; simpl; eauto.
  - intros H.
    destruct (goroutines s !! i) as [g|]; [|done].
    destruct (exec_goroutine client flags g (sh s)) as [[[g' st] x']|] eqn:Hg;
      [|done].
    simplify_eq. by exists g, g', st, x'.
  - unfold exec_closer, close. intros H.
    repeat case_match; simplify_eq; simpl; auto.
  - unfold exec_consumer, recv. intros H.
    repeat case_match; simplify_eq; simpl; auto.
Qed.

(** *** The entries added and sent *)

Lemma added_AddLog s s' log :
  inv s -> logStore s' = AddLog (logStore s) log ->
  added store0 s' = added store0 s ++ [log].
Proof.
  intros Hinv Hs. unfold added. rewrite Hs. simpl.
  destruct (inv_store _ _ _ _ Hinv) as [k ->].
  rewrite <- app_assoc, !drop_app_length. done.
Qed.

(** Every step leaves what has been sent, or adds one entry at its end. *)
Lemma step_sent c s s' :
  inv s -> step client flags c s = Some s' ->
  sent store0 s' = sent store0 s
  \/ exists log, sent store0 s' = sent store0 s ++ [log].
Proof.
  intros Hinv Hstep. unfold sent.
  destruct (step_entries _ _ _ Hstep)
    as [(Hst & _ & [Hb|[log Hb]])|(log & Hb & Hst & _)].
  - left. unfold added. by rewrite Hst, Hb.
  - right. exists log. unfold added. by rewrite Hst, Hb, app_assoc.
  - left. rewrite (added_AddLog _ _ _ Hinv Hst), Hb, <- app_assoc. done.
Qed.

(** [incr] after a wrap is the wrap of the successor. *)
Lemma incr_wrap_int (n : Z) : incr (wrap_int n) = wrap_int (n + 1).
Proof.
  unfold incr, wrap_int.
  replace ((n + 2 ^ 63) mod 2 ^ 64 - 2 ^ 63 + 1 + 2 ^ 63)
    with ((n + 2 ^ 63) mod 2 ^ 64 + 1) by lia.
  rewrite Zplus_mod_idemp_l. f_equal. f_equal. lia.
Qed.

Lemma step_counted c s s' :
  inv s -> counted store0 s -> step client flags c s = Some s' ->
  counted store0 s'.
Proof.
  intros Hinv Hq Hstep. unfold counted in *.
  destruct (step_entries _ _ _ Hstep)
    as [(Hst & Ht & _)|(log & _ & Hst & Ht)].
  - unfold added in *. by rewrite Hst, Ht.
  - rewrite (added_AddLog _ _ _ Hinv Hst), Ht, Hq, incr_wrap_int.
    unfold len. rewrite length_app. simpl. f_equal. lia.
Qed.

Lemma enter_counted : counted store0 (enter store0).
Proof. unfold counted, added. simpl. by rewrite drop_all. Qed.

(** *** Capacities *)

Lemma step_within_caps c s s' :
  within_caps s -> step client flags c s = Some s' -> within_caps s'.
Proof.
  unfold within_caps, step.
  destruct s as [m gs cl co [n [lcap lbuf lcl] [ecap ebuf ecl] pk] lp st tl pr].
  simpl. intros [Hl He]. destruct pk; [done|].
  destruct c as [|i| |k].
  - unfold exec_main. simpl. intros H.
    repeat case_match; simplify_eq; simpl; auto.
  - intros H.
    destruct (gs !! i) as [g|]; [|done].
    match type of H with
    | context [exec_goroutine ?c ?f ?g ?x] =>
        destruct (exec_goroutine c f g x) as [[[g' started] x']|] eqn:Hg;
          [|done]
    end.
    simplify_eq. simpl.
    destruct g; simpl in Hg; unfold send, wg_Done in Hg; simpl in Hg;
      repeat case_match; simplify_eq; simpl; rewrite ?length_app; simpl;
      repeat match goal with
             | H : (_ <? _)%nat = true |- _ => apply Nat.ltb_lt in H
             end; split; lia.
  - unfold exec_closer, close. simpl. intros H.
    repeat case_match; simplify_eq; simpl; auto.
  - unfold exec_consumer, recv. simpl. intros H.
    repeat case_match; simplify_eq; simpl in *; split; lia.
Qed.

(** *** The order of the entries of a container *)

Lemma in_order_mono seq ext g :
  in_order client flags seq g -> in_order client flags (seq ++ ext) g.
Proof.
  destruct g; simpl; try done.
  - intros H logs Hl. by apply sublist_inserts_r, H.
  - intros (d & Hd & Hs). exists d. split; [done|]. by apply sublist_inserts_r.
  - intros H logs Hl. by apply sublist_inserts_r, H.
  - intros H logs Hl. by apply sublist_inserts_r, H.
Qed.

Lemma exec_goroutine_in_order g x g' started x' seq :
  exec_goroutine client flags g x = Some (g', started, x') ->
  in_order client flags seq g ->
  (forall seq', Forall (in_order client flags seq') started)
  /\ (buf (logChan x') = buf (logChan x) /\ in_order client flags seq g'
      \/ exists log,
           buf (logChan x') = buf (logChan x) ++ [log]
           /\ in_order client flags (seq ++ [log]) g').
Proof.
  intros Hexec Hg.
  destruct g as [p|p e|p [|c cs]|p|p|p c|p c e|p c [|l ls]|p c|p c];
    unfold exec_goroutine, send, wg_Done in Hexec;
    repeat case_match; simplify_eq; unfold in_order in *;
    (split; [intros; repeat constructor|]); try by left.
  - left. split; [done|]. exists []. rewrite app_nil_l. split; [done|].
    apply sublist_nil_l.
  - left. split; [done|]. intros logs Hl. congruence.
  - left. split; [done|]. destruct Hg as (d & Hd & Hs).
    intros logs Hl. rewrite app_nil_r, Hl in Hd. by simplify_eq.
  - right. exists l. split; [done|]. destruct Hg as (d & Hd & Hs).
    exists (d ++ [l]). rewrite <- app_assoc. split; [done|].
    by apply sublist_app.
Qed.

Lemma step_in_order c s s' :
  inv s ->
  Forall (in_order client flags (sent store0 s)) (goroutines s) ->
  step client flags c s = Some s' ->
  Forall (in_order client flags (sent store0 s')) (goroutines s').
Proof.
  intros Hinv Hq Hstep.
  pose proof (step_goroutines _ _ _ Hstep) as Hgs.
  destruct c as [|i| |k].
  2:{ destruct Hgs as (g & g' & started & x' & Hi & Hexec & ->).
      assert (Hg : in_order client flags (sent store0 s) g).
      { eapply (proj1 (Forall_lookup _ _)); done. }
      destruct (exec_goroutine_in_order _ _ _ _ _ _ Hexec Hg)
        as [Hst [[Hb Hg']|(log & Hb & Hg')]].
      - assert (Hsent : sent store0 (set_goroutines (<[i:=g']> (goroutines s) ++ started)
                                  (set_sh x' s)) = sent store0 s).
        { unfold sent, added. simpl. by rewrite Hb. }
        rewrite Hsent. simpl. apply Forall_app. split; [|done].
        by apply Forall_insert.
      - assert (Hsent : sent store0 (set_goroutines (<[i:=g']> (goroutines s) ++ started)
                                  (set_sh x' s)) = sent store0 s ++ [log]).
        { unfold sent, added. simpl. by rewrite Hb, app_assoc. }
        rewrite Hsent. simpl. apply Forall_app. split; [|done].
        apply Forall_insert; [|done].
        eapply Forall_impl; [done|]. intros g0. apply in_order_mono. }
  all: assert (Hall : Forall (in_order client flags (sent store0 s')) (goroutines s))
    by (destruct (step_sent _ _ _ Hinv Hstep) as [->|[log ->]];
        [done|eapply Forall_impl; [done|]; intros g0; apply in_order_mono]).
  all: destruct Hgs as [->|[p ->]]; [done|].
  all: apply Forall_app; split; [done|]; by repeat constructor.
Qed.

(** *** What a run leaves *)

Lemma run_counted schedule s :
  run client flags schedule (enter store0) = Some s -> counted store0 s.
Proof.
  apply (run_preserves (counted store0) step_counted).
  - apply enter_invariant.
  - apply enter_counted.
Qed.

Lemma run_within_caps schedule s :
  run client flags schedule (enter store0) = Some s -> within_caps s.
Proof.
  apply (run_preserves within_caps).
  - intros c s1 s2 _. apply step_within_caps.
  - apply enter_invariant.
  - unfold within_caps. simpl. lia.
Qed.

Lemma run_in_order schedule s :
  run client flags schedule (enter store0) = Some s ->
  Forall (in_order client flags (sent store0 s)) (goroutines s).
Proof.
  apply (run_preserves
           (fun s => Forall (in_order client flags (sent store0 s))
                            (goroutines s)) step_in_order).
  - apply enter_invariant.
  - constructor.
Qed.

(** The store of a state of a run is the store on entry followed by what
    was added. *)
Lemma store_added s :
  inv s -> logs (logStore s) = logs store0 ++ added store0 s.
Proof.
  intros Hinv. destruct (inv_store _ _ _ _ Hinv) as [k Hk].
  unfold added. by rewrite Hk, drop_app_length.
Qed.

(** The expected errors are the failures. *)
Lemma expected_failures pods :
  omap error_of (pods ≫= pod_tokens client flags) = failures client flags pods.
Proof.
  unfold failures. rewrite omap_bind. apply list_bind_ext; [|done].
  intros p. unfold pod_tokens, pod_work.
  destruct (containersOf client flags p) as [cs|e]; [|done]. csimpl.
  rewrite omap_bind. apply list_bind_ext; [|done].
  intros c. unfold ctr_tokens, ctr_work.
  destruct (logsOf client flags p c) as [logs|e]; [|done]. csimpl.
  by apply omap_fmap_none.
Qed.

(** Each container of each pod is a task of the run. *)
Lemma expected_ctr_task pods p containers c :
  p ∈ pods -> containersOf client flags p = Ok containers -> c ∈ containers ->
  CtrTask p c ∈ omap task_of (pods ≫= pod_tokens client flags).
Proof.
  intros Hp Hcs Hc. rewrite omap_bind. apply list_elem_of_bind.
  exists p. split; [|done]. rewrite (pod_tokens_tasks _ _ _ _ Hcs).
  apply list_elem_of_further, list_elem_of_fmap. by exists c.
Qed.

(** A run that has returned [nil]. *)
Lemma returned_nil schedule s :
  retrieveLogs client flags store0 schedule = Some (None, s) ->
  run client flags schedule (enter store0) = Some s
  /\ inv s /\ main s = MainReturned None
  /\ sent store0 s = added store0 s.
Proof.
  unfold retrieveLogs. intros H.
  destruct (run client flags schedule (enter store0)) as [s'|] eqn:Hrun;
    [|done].
  destruct (main s') as [| | | |err'] eqn:Hm; try done. simplify_eq.
  assert (Hinv : inv s) by (eapply run_invariant; [apply enter_invariant|done]).
  split; [done|]. split; [done|]. split; [done|].
  pose proof (inv_main _ _ _ _ Hinv) as Hmain. unfold main_inv in Hmain.
  rewrite Hm in Hmain. destruct Hmain as [_ Hco].
  destruct (inv_consumer _ _ _ _ Hinv Hco) as [_ Hbuf].
  unfold sent. by rewrite Hbuf, app_nil_r.
Qed.

(** A run over resolved pods does not return an error. *)
Lemma returned_no_error pods schedule err s :
  resolved_pods client flags = Ok pods ->
  retrieveLogs client flags store0 schedule = Some (err, s) ->
  err = None.
Proof.
  unfold retrieveLogs. intros Hpods H.
  destruct (run client flags schedule (enter store0)) as [s'|] eqn:Hrun;
    [|done].
  destruct (main s') as [| | | |err'] eqn:Hm; try done. simplify_eq.
  assert (Hinv : inv s) by (eapply run_invariant; [apply enter_invariant|done]).
  destruct err as [err|]; [|done].
  destruct (returned_error _ _ _ _ _ Hinv Hm) as (_ & Hpod & e & He & _).
  unfold resolved_pods in Hpods. rewrite decide_True in Hpods by done.
  congruence.
Qed.


(** The entries and the errors of a run that has returned. *)
Lemma returned_entries pods schedule s :
  resolved_pods client flags = Ok pods ->
  retrieveLogs client flags store0 schedule = Some (None, s) ->
  added store0 s ≡ₚ collected client flags pods
  /\ printed s ++ buf (errorChan (sh s)) ≡ₚ failures client flags pods.
Proof.
  intros Hpods Hret.
  destruct (returned_nil _ _ Hret) as (Hrun & Hinv & Hm & _).
  destruct (returned_accounts _ _ _ _ Hinv Hm)
    as (_ & (added' & Hadded & Hperm) & Herrs & _).
  unfold expected_entries, expected_errors, expected_tokens in *.
  rewrite Hpods in *.
  rewrite expected_collected in Hperm. rewrite expected_failures in Herrs.
  split; [|done]. unfold added. by rewrite Hadded, drop_app_length.
Qed.

(** The log of a container is a subsequence of what a returned run has
    added. *)
Lemma returned_in_order pods schedule s p containers c logs :
  resolved_pods client flags = Ok pods ->
  retrieveLogs client flags store0 schedule = Some (None, s) ->
  p ∈ pods -> containersOf client flags p = Ok containers -> c ∈ containers ->
  logsOf client flags p c = Ok logs ->
  logs `sublist_of` added store0 s.
Proof.
  intros Hpods Hret Hp Hcs Hc Hlogs.
  destruct (returned_nil _ _ Hret) as (Hrun & Hinv & Hm & Hsent).
  destruct (returned_accounts _ _ _ _ Hinv Hm) as (Hfin & _ & _ & Htasks).
  unfold expected_tasks, expected_tokens in Htasks. rewrite Hpods in Htasks.
  pose proof (expected_ctr_task _ _ _ _ Hp Hcs Hc) as Hin.
  rewrite <- Htasks in Hin.
  apply list_elem_of_fmap in Hin as (g & Hg & Hin).
  pose proof (run_in_order _ _ Hrun) as Hord. rewrite Hsent in Hord.
  pose proof (proj1 (Forall_forall _ _) Hord g Hin) as Hog.
  pose proof (proj1 (Forall_forall _ _) Hfin g Hin) as Hfg.
  destruct g; try done; simpl in Hg; simplify_eq. by apply Hog.
Qed.

(** X9: no run of [retrieveLogs] goes wrong, whatever the cluster, the
    flags and the schedule.  In every state a run reaches, no goroutine
    has panicked (no send on a closed channel, no channel closed twice,
    no negative wait group), [wg] is the number of pod and container
    goroutines that have not run their [wg.Done()], [logChan] holds at
    most 100 entries and [errorChan] at most 10 errors, [logChan] is
    closed only once every goroutine started has finished and none is
    left to start, and [errorChan] is closed only after [logChan]. *)
Theorem retrieveLogs_is_safe schedule s :
  run client flags schedule (enter store0) = Some s ->
  panicked (sh s) = false
  /\ wg (sh s) = Z.of_nat (sum_list_with live (goroutines s))
  /\ (length (buf (logChan (sh s))) <= 100)%nat
  /\ (length (buf (errorChan (sh s))) <= 10)%nat
  /\ (closed (logChan (sh s)) = true ->
      Forall finished (goroutines s)
      /\ main s <> MainEntry /\ forall pods, main s <> MainRange pods)
  /\ (closed (errorChan (sh s)) = true -> closed (logChan (sh s)) = true).
Proof.
  intros Hrun.
  assert (Hinv : inv s) by (eapply run_invariant; [apply enter_invariant|done]).
  destruct (run_within_caps _ _ Hrun) as [Hl He].
  destruct Hinv as [Hp [Hc1 Hc2] Hwg Hmain Hcl Hco Hst Htok].
  rewrite Hc1 in Hl. rewrite Hc2 in He.
  split; [done|]. split; [done|]. split; [done|]. split; [done|].
  unfold closer_inv, channels_open, main_inv in *.
  split.
  - intros Hclosed.
    destruct (closer s) as [[]|] eqn:Hcloser;
      try (destruct Hcl as [? ?]; congruence).
    all: destruct Hcl as (Hz & _).
    all: split; [apply (finished_tokens client flags); lia|].
    all: split; [intros Hm|intros pods Hm]; rewrite Hm in Hmain.
    all: try (rewrite Hmain in Hcloser; done).
    all: destruct Hmain as (? & _); congruence.
  - intros Hclosed.
    destruct (closer s) as [[]|];
      try (destruct Hcl as [? ?]; congruence);
      destruct Hcl as (_ & ? & ?); congruence.
Qed.

(** X10: [retrieveLogs] cannot get stuck, whatever the cluster answers
    (failing listings and fetches included).  Every run takes at most
    as many steps as the measure of the entry state, idle turns of the
    consumer apart, and from every state a run reaches some continuation
    of the schedule makes [retrieveLogs] return. *)
Theorem retrieveLogs_can_always_return schedule s :
  run client flags schedule (enter store0) = Some s ->
  (busy client flags schedule (enter store0)
   <= measure client flags (enter store0))%nat
  /\ exists schedule' r,
       retrieveLogs client flags store0 (schedule ++ schedule') = Some r.
Proof.
  intros Hrun.
  split; [apply (busy_bounded client flags store0), enter_invariant|].
  destruct (can_return client flags store0 s) as (schedule' & s' & Hrun' & err & Hret).
  { eapply run_invariant; [apply enter_invariant|done]. }
  exists schedule', (err, s'). unfold retrieveLogs.
  by rewrite (run_app _ _ _ _ _ _ Hrun), Hrun', Hret.
Qed.

(** X11: failures are isolated.  Once the pods are known, every return of
    [retrieveLogs] is [nil]; every goroutine started has finished; the
    store holds what it held on entry
    followed by, up to order, exactly the entries of every container
    whose pod could be listed and whose fetch succeeded, each stamped
    with its origin; and the errors printed together with those left in
    [errorChan] are, up to order, exactly one error per failed container
    listing and per failed fetch. *)
Theorem retrieveLogs_isolates_failures pods schedule err s :
  resolved_pods client flags = Ok pods ->
  retrieveLogs client flags store0 schedule = Some (err, s) ->
  err = None
  /\ Forall finished (goroutines s)
  /\ GetLogs (logStore s) = GetLogs store0 ++ added store0 s
  /\ added store0 s ≡ₚ collected client flags pods
  /\ Forall (stamped client flags pods) (added store0 s)
  /\ printed s ++ buf (errorChan (sh s)) ≡ₚ failures client flags pods.
Proof.
  intros Hpods Hret.
  pose proof (returned_no_error _ _ _ _ Hpods Hret) as ->.
  destruct (returned_nil _ _ Hret) as (_ & Hinv & Hm & _).
  destruct (returned_entries _ _ _ Hpods Hret) as [Hadd Herr].
  destruct (returned_accounts _ _ _ _ Hinv Hm) as (Hfin & _).
  split; [done|]. split; [done|]. split; [by apply store_added|].
  split; [done|].
  split; [|done]. rewrite Hadd, <- expected_collected. apply expected_stamped.
Qed.

(** X12: the entries of one container keep the order of its log.  When
    [retrieveLogs] has returned, the entries fetched from a container are
    a subsequence of what was added to the store: other containers'
    entries may come in between, but no two entries of one container are
    swapped. *)
Theorem retrieveLogs_keeps_container_order
    pods schedule s p containers c logs :
  resolved_pods client flags = Ok pods ->
  retrieveLogs client flags store0 schedule = Some (None, s) ->
  p ∈ pods -> containersOf client flags p = Ok containers -> c ∈ containers ->
  logsOf client flags p c = Ok logs ->
  GetLogs (logStore s) = GetLogs store0 ++ added store0 s
  /\ logs `sublist_of` added store0 s.
Proof.
  intros Hpods Hret Hp Hcs Hc Hlogs.
  destruct (returned_nil _ _ Hret) as (_ & Hinv & _ & _).
  split; [by apply store_added|]. by eapply returned_in_order.
Qed.

(** X13: in every state of a run, the store is what it was on entry
    followed by the entries added, and [totalLogs] is the number of
    entries added, as an [int]: the number itself as long as it does not
    exceed the largest [int]. *)
Theorem totalLogs_counts_added schedule s :
  run client flags schedule (enter store0) = Some s ->
  GetLogs (logStore s) = GetLogs store0 ++ added store0 s
  /\ totalLogs s = wrap_int (len (added store0 s))
  /\ (len (added store0 s) <= int_max -> totalLogs s = len (added store0 s)).
Proof.
  intros Hrun.
  assert (Hinv : inv s) by (eapply run_invariant; [apply enter_invariant|done]).
  pose proof (run_counted _ _ Hrun) as Hc. unfold counted in Hc.
  split; [by apply store_added|]. split; [done|].
  intros Hmax. rewrite Hc. unfold wrap_int, int_max, len in *.
  rewrite Z.mod_small; lia.
Qed.

(** *** The pods of a run *)



(** *** The errors of a run *)

Lemma failures_failure_of pods e :
  e ∈ failures client flags pods -> failure_of client flags pods e.
Proof.
  unfold failures. intros (p & He & Hp)%list_elem_of_bind.
  exists p. split; [done|].
  destruct (containersOf client flags p) as [cs|e'] eqn:Hcs.
  - right. apply list_elem_of_bind in He as (c & He & Hc).
    unfold logsOf in He.
    destruct (RetrievePodLogs client (namespace flags) p c) as [logs|e'']
      eqn:Hl; [by apply elem_of_nil in He|].
    apply list_elem_of_singleton in He. by exists cs, c, e''.
  - left. apply list_elem_of_singleton in He. subst.
    unfold containersOf in Hcs. case_decide as Hc; [done|].
    destruct (ListContainers client (namespace flags) p) as [cs|e''] eqn:Hl;
      [done|].
    simplify_eq. split; [|by exists e''].
    destruct (decide (container flags = EmptyString)); done.
Qed.

(** X14: every error printed by a run that has returned is the error of
    a call that failed for a pod of the run, and names it: it is the
    failure to list the containers of that pod (no container flag being
    set), with the pod's name, or the failure to retrieve the logs of one
    of its containers, with the names of the pod and of the container.
    No more errors are printed than calls have failed. *)
Theorem printed_errors_name_their_source pods schedule err s :
  resolved_pods client flags = Ok pods ->
  retrieveLogs client flags store0 schedule = Some (err, s) ->
  Forall (failure_of client flags pods) (printed s)
  /\ (length (printed s) <= length (failures client flags pods))%nat.
Proof.
  intros Hpods Hret.
  pose proof (returned_no_error _ _ _ _ Hpods Hret) as ->.
  destruct (returned_entries _ _ _ Hpods Hret) as [_ Herr].
  split.
  - apply Forall_forall. intros e He. apply failures_failure_of.
    rewrite <- Herr. apply elem_of_app. by left.
  - apply Permutation_length in Herr. rewrite length_app in Herr. lia.
Qed.

(** *** One container *)

(** X15: with flags that pass the validation and name a container (hence
    a pod), every return of [retrieveLogs] is [nil] and depends on one
    call of [RetrievePodLogs] only.  If it succeeds, the store holds what
    it held on entry followed by exactly the entries of that container
    in the order of its log, and no error is printed or left; if it
    fails, the store is unchanged and the one error, naming the pod and
    the container, is printed or left in [errorChan]. *)
Theorem retrieveLogs_one_container schedule err s :
  validateInputCombinations (namespace flags) (pod flags) (container flags)
  = None ->
  container flags <> EmptyString ->
  retrieveLogs client flags store0 schedule = Some (err, s) ->
  err = None
  /\ match RetrievePodLogs client (namespace flags) (pod flags)
                           (container flags) with
     | Ok logs =>
         GetLogs (logStore s) = GetLogs store0 ++ logs
         /\ printed s = [] /\ buf (errorChan (sh s)) = []
     | Err e =>
         GetLogs (logStore s) = GetLogs store0
         /\ printed s ++ buf (errorChan (sh s))
            = ["failed to retrieve logs for pod " +:+ pod flags
                 +:+ ", container " +:+ container flags +:+ ": " +:+ e]
     end.
Proof.
  intros Hval Hc Hret.
  destruct (validateInputCombinations_None _ _ _ Hval) as [_ Hpod].
  specialize (Hpod Hc).
  assert (Hpods : resolved_pods client flags = Ok [pod flags]).
  { unfold resolved_pods. by rewrite decide_False. }
  assert (Hcs : containersOf client flags (pod flags) = Ok [container flags]).
  { unfold containersOf. by rewrite decide_True. }
  pose proof (returned_no_error _ _ _ _ Hpods Hret) as ->.
  split; [done|].
  destruct (returned_nil _ _ Hret) as (_ & Hinv & _ & _).
  destruct (returned_entries _ _ _ Hpods Hret) as [Hadd Herr].
  pose proof (store_added _ Hinv) as Hstore.
  unfold collected in Hadd. unfold failures in Herr.
  rewrite bind_cons, Hcs, bind_cons in Hadd. csimpl in Hadd.
  rewrite bind_cons, Hcs, bind_cons in Herr. csimpl in Herr.
  rewrite !app_nil_r in Hadd, Herr.
  assert (Hin : pod flags ∈ [pod flags]) by apply list_elem_of_here.
  assert (Hcin : container flags ∈ [container flags]) by apply list_elem_of_here.
  pose proof (fun logs => returned_in_order _ _ _ _ _ _ logs
                            Hpods Hret Hin Hcs Hcin) as Hord.
  unfold logsOf in *.
  destruct (RetrievePodLogs client (namespace flags) (pod flags)
                            (container flags)) as [logs|e].
  - apply Permutation_nil_r, app_eq_nil in Herr as [-> ->].
    split; [|done]. unfold GetLogs. rewrite Hstore. f_equal.
    symmetry. apply sublist_Permutation_eq; [by apply Hord|done].
  - apply Permutation_nil_r in Hadd. apply Permutation_singleton_r in Herr.
    split; [|done]. unfold GetLogs. by rewrite Hstore, Hadd, app_nil_r.
Qed.

End Runs.

Section Answers.
Variable flags : Flags.
Variables client1 client2 : Clientset.
Hypothesis Hsame : same_answers flags client1 client2.

Lemma containersOf_same p :
  containersOf client1 flags p = containersOf client2 flags p.
Proof.
  destruct Hsame as (_ & Hc & _). unfold containersOf.
  case_decide as Hd; [done|]. rewrite Hc; [done|].
  by destruct (decide (container flags = EmptyString)).
Qed.

Lemma logsOf_same p c : logsOf client1 flags p c = logsOf client2 flags p c.
Proof. destruct Hsame as (_ & _ & Hl). unfold logsOf. by rewrite Hl. Qed.

Lemma step_same c s : step client1 flags c s = step client2 flags c s.
Proof.
  unfold step. destruct (panicked (sh s)); [done|].
  destruct c as [|i| |k]; try done.
  - unfold exec_main. destruct (main s); try done.
    case_decide as Hp; [|done]. destruct Hsame as (Hl & _). by rewrite Hl.
  - destruct (goroutines s !! i) as [g|]; [|done].
    destruct g; simpl; try done.
    + by rewrite containersOf_same.
    + by rewrite logsOf_same.
Qed.

Lemma run_same schedule s :
  run client1 flags schedule s = run client2 flags schedule s.
Proof.
  revert s. induction schedule as [|c schedule IH]; intros s; [done|].
  simpl. rewrite step_same. by destruct (step client2 flags c s).
Qed.

End Answers.

(** X16: a run depends on the cluster only through the calls it makes.
    Two clients that give the same pod listing when no pod flag is set,
    the same container listings when no container flag is set, and the
    same logs, in the namespace of the flags, give the same result under
    every schedule: with a pod flag the pod listing is never consulted,
    with a container flag the container listings are not, and no other
    namespace is. *)
Theorem retrieveLogs_same_answers (flags : Flags)
    (client1 client2 : Clientset) (store : LogStorage)
    (schedule : list choice) :
  same_answers flags client1 client2 ->
  retrieveLogs client1 flags store schedule
  = retrieveLogs client2 flags store schedule.
Proof.
  intros Hsame. unfold retrieveLogs. by rewrite (run_same _ _ _ Hsame).
Qed.

(** *** Runs of the examples *)

Lemma retrieveLogs_is_safe_witness :
  exists s,
    run demo_client demo_flags demo_schedule (enter NewLogStorage) = Some s
    /\ panicked (sh s) = false
    /\ wg (sh s) = 0
    /\ Forall finished (goroutines s).
Proof.
  destruct (run demo_client demo_flags demo_schedule (enter NewLogStorage))
    as [s|] eqn:Hrun; [|vm_compute in Hrun; discriminate Hrun].
  destruct (retrieveLogs_is_safe demo_client demo_flags NewLogStorage
              demo_schedule s Hrun) as (Hp & _ & _ & _ & Hc & _).
  assert (Hclosed : closed (logChan (sh s)) = true)
    by (vm_compute in Hrun; by injection Hrun as <-).
  assert (Hwg : wg (sh s) = 0)
    by (vm_compute in Hrun; by injection Hrun as <-).
  destruct (Hc Hclosed) as (Hfin & _).
  exists s. split; [reflexivity|]. split; [exact Hp|].
  split; [exact Hwg|exact Hfin].
Defined.

Lemma retrieveLogs_can_always_return_witness :
  exists schedule' r,
    retrieveLogs lossy_client demo_flags NewLogStorage
                 ([RunMain; RunMain; RunMain] ++ schedule') = Some r.
Proof.
  destruct (run lossy_client demo_flags [RunMain; RunMain; RunMain]
                (enter NewLogStorage))
    as [s|] eqn:Hrun; [|vm_compute in Hrun; discriminate Hrun].
  exact (proj2 (retrieveLogs_can_always_return lossy_client demo_flags
                  NewLogStorage [RunMain; RunMain; RunMain] s Hrun)).
Defined.

Lemma retrieveLogs_isolates_failures_witness :
  exists s,
    retrieveLogs lossy_client demo_flags NewLogStorage lossy_schedule
    = Some (None, s)
    /\ LogContent <$> GetLogs (logStore s) = ["INFO start"]
    /\ printed s ++ buf (errorChan (sh s))
       ≡ₚ failures lossy_client demo_flags ["web-0"].
Proof.
  destruct (retrieveLogs lossy_client demo_flags NewLogStorage lossy_schedule)
    as [[err s]|] eqn:Hrun; [|vm_compute in Hrun; discriminate Hrun].
  destruct (retrieveLogs_isolates_failures lossy_client demo_flags
              NewLogStorage ["web-0"] lossy_schedule err s eq_refl Hrun)
    as (-> & _ & _ & _ & _ & Herr).
  exists s. split; [reflexivity|]. split; [|exact Herr].
  vm_compute in Hrun. by injection Hrun as <-.
Defined.

Lemma retrieveLogs_keeps_container_order_witness :
  exists s logs,
    retrieveLogs scenario_client scenario_flags NewLogStorage late_schedule
    = Some (None, s)
    /\ logsOf scenario_client scenario_flags "p" "c1" = Ok logs
    /\ LogContent <$> logs = ["INFO start"; "ERROR timeout reaching db"]
    /\ logs `sublist_of` added NewLogStorage s.
Proof.
  destruct (retrieveLogs scenario_client scenario_flags NewLogStorage
              late_schedule)
    as [[[err|] s]|] eqn:Hrun; try (vm_compute in Hrun; discriminate Hrun).
  exists s. eexists. split; [reflexivity|]. split; [reflexivity|].
  split; [reflexivity|].
  apply (retrieveLogs_keeps_container_order scenario_client scenario_flags
           NewLogStorage ["p"] late_schedule s "p" ["c1"; "c2"] "c1" _
           eq_refl Hrun).
  - apply list_elem_of_here.
  - reflexivity.
  - apply list_elem_of_here.
  - reflexivity.
Defined.

Lemma totalLogs_counts_added_witness :
  exists s,
    run demo_client demo_flags demo_schedule (enter NewLogStorage) = Some s
    /\ totalLogs s = 4.
Proof.
  destruct (run demo_client demo_flags demo_schedule (enter NewLogStorage))
    as [s|] eqn:Hrun; [|vm_compute in Hrun; discriminate Hrun].
  destruct (totalLogs_counts_added demo_client demo_flags NewLogStorage
              demo_schedule s Hrun) as (_ & _ & Htotal).
  exists s. split; [reflexivity|]. rewrite Htotal.
  - vm_compute in Hrun. by injection Hrun as <-.
  - vm_compute in Hrun. injection Hrun as <-. by vm_compute.
Defined.

Lemma printed_errors_name_their_source_witness :
  exists s,
    retrieveLogs lossy_client demo_flags NewLogStorage printing_schedule
    = Some (None, s)
    /\ length (printed s) = 1%nat
    /\ Forall (failure_of lossy_client demo_flags ["web-0"]) (printed s).
Proof.
  destruct (retrieveLogs lossy_client demo_flags NewLogStorage
              printing_schedule)
    as [[[err|] s]|] eqn:Hrun; try (vm_compute in Hrun; discriminate Hrun).
  destruct (printed_errors_name_their_source lossy_client demo_flags
              NewLogStorage ["web-0"] printing_schedule None s eq_refl Hrun)
    as [Hall _].
  exists s. split; [reflexivity|]. split; [|exact Hall].
  vm_compute in Hrun. by injection Hrun as <-.
Defined.

Lemma retrieveLogs_one_container_witness :
  exists s,
    retrieveLogs scenario_client single_flags NewLogStorage single_schedule
    = Some (None, s)
    /\ LogContent <$> GetLogs (logStore s)
       = ["INFO start"; "ERROR timeout reaching db"].
Proof.
  destruct (retrieveLogs scenario_client single_flags NewLogStorage
              single_schedule) as [[err s]|] eqn:Hrun;
    [|vm_compute in Hrun; discriminate Hrun].
  destruct (retrieveLogs_one_container scenario_client single_flags
              NewLogStorage single_schedule err s eq_refl
              ltac:(discriminate) Hrun) as [-> H].
  exists s. split; [reflexivity|].
  change (RetrievePodLogs scenario_client (namespace single_flags)
            (pod single_flags) (container single_flags))
    with (Ok (imap (fun i line =>
                      {| Namespace := "n"; PodName := "p"; Container := "c1";
                         LogContent := line;
                         Timestamp := "2024-11-27T10:00:00Z" |})
                   ["INFO start"; "ERROR timeout reaching db"])) in H.
  destruct H as (-> & _). reflexivity.
Defined.

Lemma retrieveLogs_same_answers_witness :
  retrieveLogs unlisted_client scenario_flags NewLogStorage scenario_schedule
  = retrieveLogs scenario_client scenario_flags NewLogStorage
                 scenario_schedule.
Proof.
  apply (retrieveLogs_same_answers scenario_flags unlisted_client
           scenario_client NewLogStorage scenario_schedule).
  split; [discriminate|]. split; [reflexivity|reflexivity].
Defined.

End RunFacts.

(* ===================================================================== *)
(** ** The input of the analysis service *)

Module OpenAIFacts.
Import Go K8s Analysis OpenAI RegexpFacts.

Lemma slice_to_length (s : string) (n : nat) :
  (n <= String.length s)%nat -> String.length (slice_to s n) = n.
Proof.
  revert s. induction n as [|n IH]; intros [|b s] H; simpl in *; try lia.
  rewrite IH; lia.
Qed.

Lemma slice_to_prefix (s : string) (n : nat) :
  exists rest, s = slice_to s n +:+ rest.
Proof.
  revert s. induction n as [|n IH]; intros [|b s]; simpl;
    try (by eexists).
  destruct (IH s) as [rest Hrest]. exists rest.
  change (String b s = String b (slice_to s n +:+ rest)). by rewrite <- Hrest.
Qed.

Lemma length_append (s t : string) :
  String.length (s +:+ t) = (String.length s + String.length t)%nat.
Proof.
  induction s as [|b s IH]; [done|].
  change (S (String.length (s +:+ t)) = S (String.length s + String.length t)).
  by rewrite IH.
Qed.

(** X17: the text sent for analysis is bounded.  Whatever the
    classification, [focusedLogs] after the size check is a prefix of the
    text built from the report and the two lists, of at most 10000 bytes:
    the text itself when it has at most 10000 bytes, its first 10000
    bytes otherwise; the content of the user message, the 99 bytes of the
    request line included, has at most 10099 bytes. *)
Theorem focusedLogs_bounded (la : LogAnalyzer) :
  len_string (focusedLogs la) <= maxInputSize
  /\ (exists rest, combinedLogs la = focusedLogs la +:+ rest)
  /\ (len_string (combinedLogs la) <= maxInputSize ->
      focusedLogs la = combinedLogs la)
  /\ (maxInputSize < len_string (combinedLogs la) ->
      len_string (focusedLogs la) = maxInputSize)
  /\ len_string (userContent la) <= maxInputSize + 99.
Proof.
  assert (H : len_string (focusedLogs la) <= maxInputSize
              /\ (maxInputSize < len_string (combinedLogs la) ->
                  len_string (focusedLogs la) = maxInputSize)).
  { unfold focusedLogs, len_string, maxInputSize.
    destruct (10000 <? Z.of_nat (String.length (combinedLogs la))) eqn:Hlt.
    - apply Z.ltb_lt in Hlt. rewrite slice_to_length by lia. lia.
    - apply Z.ltb_ge in Hlt. lia. }
  destruct H as [H1 H2]. split; [done|]. split; [|split; [|split; [done|]]].
  - unfold focusedLogs. destruct (maxInputSize <? _).
    + apply slice_to_prefix.
    + exists EmptyString. by rewrite append_nil_r.
  - intros Hle. unfold focusedLogs.
    destruct (maxInputSize <? _) eqn:Hlt; [|done].
    apply Z.ltb_lt in Hlt. lia.
  - unfold userContent, len_string in *. rewrite length_append.
    unfold maxInputSize in *.
    match goal with
    | |- context [(String.length ?s + _)%nat] =>
        change (String.length s) with 99%nat
    end.
    lia.
Qed.

(** X18: [toInt32Ptr] gives a value in the range of [int32], equal to
    its argument when the argument is in that range and differing from it
    by a multiple of 2^32 otherwise; the token limit of every request is
    750. *)
Theorem toInt32Ptr_range (i : Z) :
  int32_min <= toInt32Ptr i <= int32_max
  /\ (int32_min <= i <= int32_max -> toInt32Ptr i = i)
  /\ (exists k, toInt32Ptr i = i + k * 2 ^ 32)
  /\ forall oa la, MaxTokens (request oa la) = 750.
Proof.
  unfold toInt32Ptr, int32, int32_min, int32_max.
  split; [|split; [|split]].
  - pose proof (Z.mod_pos_bound (i + 2 ^ 31) (2 ^ 32)). lia.
  - intros H. rewrite Z.mod_small; lia.
  - exists (- ((i + 2 ^ 31) / 2 ^ 32)).
    pose proof (Z.div_mod (i + 2 ^ 31) (2 ^ 32)). lia.
  - reflexivity.
Qed.

End OpenAIFacts.

(* ===================================================================== *)
(** ** Printing the store *)

Module PrintFacts.
Import Go K8s Storage StorageFacts.

Lemma PrettyPrintLogs_fmap (palette : Palette) (ls : LogStorage)
    (stdout : list string) :
  PrettyPrintLogs palette ls stdout
  = stdout ++ (prettyLine palette <$> logs ls).
Proof.
  unfold PrettyPrintLogs. generalize (logs ls). intros l. revert stdout.
  induction l as [|log l IH]; intros stdout; simpl.
  - by rewrite app_nil_r.
  - by rewrite IH, <- app_assoc.
Qed.

(** X19: [PrettyPrintLogs] writes one line per stored entry, in the
    order of the store, after what was written before: printing a store
    to which entries were appended writes the lines of the store before,
    then one line for each appended entry, in the order they were
    appended; printing a cleared store writes nothing. *)
Theorem PrettyPrintLogs_lines (palette : Palette) (ls : LogStorage)
    (es : list LogEntry) (stdout : list string) :
  PrettyPrintLogs palette (fold_left AddLog es ls) stdout
  = PrettyPrintLogs palette ls stdout ++ (prettyLine palette <$> es)
  /\ PrettyPrintLogs palette (Clear ls) stdout = stdout
  /\ PrettyPrintLogs palette ls stdout
     = stdout ++ (prettyLine palette <$> GetLogs ls).
Proof.
  rewrite !PrettyPrintLogs_fmap. split; [|split; [|done]].
  - pose proof (GetLogs_fold_AddLog es ls) as H. unfold GetLogs in H.
    by rewrite H, fmap_app, app_assoc.
  - simpl. apply app_nil_r.
Qed.

End PrintFacts.

(* ===================================================================== *)
(** ** The command *)

Module RootFacts.
Import Go K8s Storage Cmd Root RetrieveSpec RetrieveFacts RunSpec RunFacts
  PrintFacts TallyFacts RootSpec.

(** X20: [validateInputCombinations] accepts exactly the combinations
    with a namespace in which a container comes with a pod: it returns
    [nil] if and only if the namespace is not empty and, when a container
    is given, a pod is given too. *)
Theorem validateInputCombinations_accepts (namespace pod container : string) :
  validateInputCombinations namespace pod container = None
  <-> namespace <> EmptyString
      /\ (container <> EmptyString -> pod <> EmptyString).
Proof.
  unfold validateInputCombinations.
  destruct (decide (namespace = EmptyString)),
    (decide (pod = EmptyString)), (decide (container = EmptyString));
    repeat case_decide; split; intros; try done; intuition congruence.
Qed.

(** X21: the flags are validated before anything is done with the
    cluster.  Once the logger is there, flags without a namespace, or
    with a container and no pod, make [RunE] return an error, with
    nothing written, and the same one in every world and under every
    schedule: no client is created, no log retrieved, nothing
    analysed. *)
Theorem RunE_validates_first (w w' : World) (o : Options)
    (schedule schedule' : list choice) :
  zap_NewProduction w = None -> zap_NewProduction w' = None ->
  namespace (flags o) = EmptyString
  \/ (container (flags o) <> EmptyString /\ pod (flags o) = EmptyString) ->
  exists e,
    RunE w o schedule
    = Some {| exit := OpenAI.Returns (Some e); stdout := []; red := [] |}
    /\ RunE w' o schedule' = RunE w o schedule.
Proof.
  intros Hz Hz' Hbad. unfold RunE. rewrite Hz, Hz'.
  destruct (validateInputCombinations (namespace (flags o)) (pod (flags o))
              (container (flags o))) as [e|] eqn:Hval; [by exists e|].
  apply validateInputCombinations_None in Hval as [Hns Hpod].
  exfalso. destruct Hbad as [?|[Hc ?]]; [done|]. by apply Hpod.
Qed.

Lemma RunE_validates_first_witness :
  exists e,
    RunE scenario_world bad_options scenario_schedule
    = Some {| exit := OpenAI.Returns (Some e); stdout := []; red := [] |}
    /\ RunE offline_world bad_options [] 
       = RunE scenario_world bad_options scenario_schedule.
Proof.
  exact (RunE_validates_first scenario_world offline_world bad_options
           scenario_schedule [] eq_refl eq_refl (or_introl eq_refl)).
Defined.

(** [RunE] can always end: some schedule takes [retrieveLogs] to its
    return, and the rest of [RunE] is sequential. *)
Lemma RunE_can_end (w : World) (o : Options) :
  exists schedule r, RunE w o schedule = Some r.
Proof.
  unfold RunE.
  destruct (zap_NewProduction w); [exists []; by eexists|].
  destruct (validateInputCombinations _ _ _); [exists []; by eexists|].
  destruct ((createK8sClient (kube w) (kubeconfig o)).2) as [client|e];
    [|exists []; by eexists].
  destruct (can_return client (flags o) NewLogStorage (enter NewLogStorage))
    as (schedule & s & Hrun & err & Hm); [apply enter_invariant|].
  exists schedule. unfold retrieveLogs. rewrite Hrun, Hm.
  destruct err; [by eexists|]. destruct (printRaw o); [by eexists|].
  destruct (analyzeKubernetsLogs _ _ _) as [[[e|] out]|]; by eexists.
Qed.



(** X23: without [--print-raw], when one of [AZURE_API_KEY],
    [AZURE_API_BASE] and [AZURE_DEPLOYMENT_NAME] is empty or unset, [RunE]
    never succeeds.  Some run ends, and every run that ends returns an
    error; the standard output then holds the lines of [color.Red], one
    for each error the consumer of [retrieveLogs] received, and nothing
    else; and the run ends the same way whatever the OpenAI client
    constructor and the renderer are, neither being reached. *)
Theorem RunE_needs_configuration (w : World) (o : Options) :
  printRaw o = false ->
  Getenv (services w) "AZURE_API_KEY" = EmptyString
  \/ Getenv (services w) "AZURE_API_BASE" = EmptyString
  \/ Getenv (services w) "AZURE_DEPLOYMENT_NAME" = EmptyString ->
  (exists schedule r, RunE w o schedule = Some r)
  /\ forall schedule r,
       RunE w o schedule = Some r ->
       (exists e, exit r = OpenAI.Returns (Some e))
       /\ stdout r = redLine w <$> red r
       /\ forall NewClient Render,
            RunE {| zap_NewProduction := zap_NewProduction w;
                    kube := kube w;
                    services := {| Getenv := Getenv (services w);
                                   NewClientWithKeyCredential := NewClient;
                                   glamour_Render := Render |};
                    palette := palette w;
                    color_Red := color_Red w |} o schedule
            = Some r.
Proof.
  intros Hraw Hmissing. split; [apply RunE_can_end|].
  intros schedule r Hrun. unfold RunE in *.
  cbn [zap_NewProduction kube services palette]. rewrite Hraw in *.
  destruct (zap_NewProduction w);
    [injection Hrun as <-; simpl; by eauto|].
  destruct (validateInputCombinations _ _ _);
    [injection Hrun as <-; simpl; by eauto|].
  destruct ((createK8sClient (kube w) (kubeconfig o)).2) as [client|e];
    [|injection Hrun as <-; simpl; by eauto].
  destruct (retrieveLogs client (flags o) NewLogStorage schedule)
    as [[[e|] s]|]; [injection Hrun as <-; simpl; by eauto| |done].
  unfold analyzeKubernetsLogs, OpenAI.NewOpenAIAnalyzer in *. simpl in *.
  rewrite decide_True in Hrun by tauto. injection Hrun as <-. simpl.
  split; [by eexists|]. split; [done|]. intros NewClient Render.
  by rewrite decide_True by tauto.
Qed.

Lemma RunE_needs_configuration_witness :
  exists r e,
    RunE lossy_world prod_analysis_options printing_schedule = Some r
    /\ exit r = OpenAI.Returns (Some e)
    /\ stdout r = ["Error: failed to retrieve logs for pod web-0, container sidecar: error opening log stream: container is starting
"].
Proof.
  destruct (RunE lossy_world prod_analysis_options printing_schedule)
    as [r|] eqn:Hrun; [|vm_compute in Hrun; discriminate Hrun].
  assert (Hred : redLine lossy_world <$> red r = ["Error: failed to retrieve logs for pod web-0, container sidecar: error opening log stream: container is starting
"])
    by (vm_compute in Hrun; by injection Hrun as <-).
  destruct (RunE_needs_configuration lossy_world prod_analysis_options
              eq_refl (or_introl eq_refl))
    as (_ & Hends).
  destruct (Hends printing_schedule r Hrun) as ((e & He) & Hout & _).
  exists r, e. split; [reflexivity|]. split; [exact He|].
  rewrite Hout. exact Hred.
Defined.

(** X24: the numbers of the analysis do not depend on the schedule.  Two
    runs of [retrieveLogs] on the same cluster and with the same clock
    readings, from the same store, that have both returned [nil] leave
    stores with the same entries up to order; when these are no more
    than the largest [int], the analyser gives both the same error
    count, the same warning count and as many critical events and
    performance issues. *)
Theorem classification_any_schedule
    (client : Clientset) (flags : Flags) (store0 : LogStorage)
    (schedule1 schedule2 : list choice) (s1 s2 : state) :
  retrieveLogs client flags store0 schedule1 = Some (None, s1) ->
  retrieveLogs client flags store0 schedule2 = Some (None, s2) ->
  len (GetLogs (logStore s1)) <= int_max ->
  GetLogs (logStore s1) ≡ₚ GetLogs (logStore s2)
  /\ Analysis.errorCount (Analysis.NewLogAnalyzer (GetLogs (logStore s1)))
     = Analysis.errorCount (Analysis.NewLogAnalyzer (GetLogs (logStore s2)))
  /\ Analysis.warningCount (Analysis.NewLogAnalyzer (GetLogs (logStore s1)))
     = Analysis.warningCount (Analysis.NewLogAnalyzer (GetLogs (logStore s2)))
  /\ len (Analysis.criticalEvents (Analysis.NewLogAnalyzer (GetLogs (logStore s1))))
     = len (Analysis.criticalEvents (Analysis.NewLogAnalyzer (GetLogs (logStore s2))))
  /\ len (Analysis.performanceIssues
            (Analysis.NewLogAnalyzer (GetLogs (logStore s1))))
     = len (Analysis.performanceIssues
              (Analysis.NewLogAnalyzer (GetLogs (logStore s2)))).
Proof.
  intros Hret1 Hret2 Hmax.
  destruct (returned_nil _ _ _ _ _ Hret1) as (_ & Hinv1 & Hm1 & _).
  destruct (returned_nil _ _ _ _ _ Hret2) as (_ & Hinv2 & Hm2 & _).
  destruct (returned_accounts _ _ _ _ Hinv1 Hm1)
    as (_ & (a1 & Ha1 & Hp1) & _ & _).
  destruct (returned_accounts _ _ _ _ Hinv2 Hm2)
    as (_ & (a2 & Ha2 & Hp2) & _ & _).
  assert (Hperm : GetLogs (logStore s1) ≡ₚ GetLogs (logStore s2)).
  { unfold GetLogs. by rewrite Ha1, Ha2, Hp1, Hp2. }
  split; [done|].
  destruct (NewLogAnalyzer_reorder _ _ Hperm Hmax) as (He & Hw & Hc & Hp).
  split; [done|]. split; [done|]. unfold len. by rewrite Hc, Hp.
Qed.

Lemma classification_any_schedule_witness :
  exists s1 s2,
    retrieveLogs scenario_client scenario_flags NewLogStorage
                 scenario_schedule = Some (None, s1)
    /\ retrieveLogs scenario_client scenario_flags NewLogStorage
                    late_schedule = Some (None, s2)
    /\ GetLogs (logStore s1) <> GetLogs (logStore s2)
    /\ Analysis.errorCount (Analysis.NewLogAnalyzer (GetLogs (logStore s1)))
       = Analysis.errorCount (Analysis.NewLogAnalyzer (GetLogs (logStore s2))).
Proof.
  destruct (retrieveLogs scenario_client scenario_flags NewLogStorage
              scenario_schedule)
    as [[[err1|] s1]|] eqn:Hrun1; try (vm_compute in Hrun1; discriminate Hrun1).
  destruct (retrieveLogs scenario_client scenario_flags NewLogStorage
              late_schedule)
    as [[[err2|] s2]|] eqn:Hrun2; try (vm_compute in Hrun2; discriminate Hrun2).
  assert (Hmax : len (GetLogs (logStore s1)) <= int_max).
  { vm_compute in Hrun1. injection Hrun1 as <-. by vm_compute. }
  destruct (classification_any_schedule scenario_client scenario_flags
              NewLogStorage scenario_schedule late_schedule s1 s2
              Hrun1 Hrun2 Hmax) as (_ & He & _).
  exists s1, s2. split; [reflexivity|]. split; [reflexivity|].
  split; [|exact He].
  vm_compute in Hrun1. injection Hrun1 as <-.
  vm_compute in Hrun2. injection Hrun2 as <-. discriminate.
Defined.

End RootFacts.
